(** * Tegra X1 block-linear swizzling: a shallow embedding of
    [tegra_swizzle] (lib.h, blockheight.h, blockdepth.h, arrays.h,
    swizzle.h, surface.h) and the properties of its specification.

    Conventions of the embedding.
    - [size_t] is a 64-bit unsigned integer: a value is an [N] below
      [2^64], and every [+], [-] and [*] of the source is written with the
      wrapping operators [+%], [-%] and [*%].  Division, remainder and
      comparison never wrap and are the ones of [N].
    - [std::vector<unsigned char>] is a [list byte]; [v[i]] is a lookup or
      an insert at [N.to_nat i].  The source indexes without a bounds check,
      so an index outside the vector is undefined behaviour there; the
      embedding makes it the explicit outcome [OutOfBounds].
    - A thrown [std::runtime_error("Not enough data!")] is the outcome
      [NotEnoughData].
    - A [for] loop over an index is a fold over the list of the values the
      index takes. *)

From stdpp Require Import base numbers option list.
From Stdlib Require Import NArith ZArith Lia Strings.Byte.

Local Open Scope N_scope.

(** ** [size_t] arithmetic *)

Module SizeT.
Definition modulus : N := 2 ^ 64.
Definition wrap (n : N) : N := n mod modulus.
Definition add (a b : N) : N := wrap (a + b).
Definition mul (a b : N) : N := wrap (a * b).
(** Unsigned subtraction: [a - b] modulo [2^64]. *)
Definition sub (a b : N) : N := wrap (a + (modulus - wrap b)).
End SizeT.

Infix "+%" := SizeT.add (at level 50, left associativity) : N_scope.
Infix "-%" := SizeT.sub (at level 50, left associativity) : N_scope.
Infix "*%" := SizeT.mul (at level 40, left associativity) : N_scope.

(** The values [0, 1, ..., n-1] of a loop index [for (i = 0; i < n; ++i)]. *)
Definition N_range (n : N) : list N := N.of_nat <$> seq 0 (N.to_nat n).

(** The values of [for (i = 0; i < n; i += step)]. *)
Definition N_range_step (n step : N) : list N :=
  (fun k => k * step) <$> N_range ((n + step - 1) / step).

(** ** lib.h *)

Definition GOB_WIDTH_IN_BYTES : N := 64.
Definition GOB_HEIGHT_IN_BYTES : N := 8.
Definition GOB_SIZE_IN_BYTES : N := GOB_WIDTH_IN_BYTES *% GOB_HEIGHT_IN_BYTES.

(** [enum class BlockHeight]: a scoped enumeration over [int].  A value of
    the type is its integer ([static_cast<size_t>] and [BlockHeight(n)] are
    the identity on it); the enumerators are the constants below. *)
Definition BlockHeight : Type := N.

Module BlockHeight.
Definition One : BlockHeight := 1.
Definition Two : BlockHeight := 2.
Definition Four : BlockHeight := 4.
Definition Eight : BlockHeight := 8.
Definition Sixteen : BlockHeight := 16.
Definition ThirtyTwo : BlockHeight := 32.
Definition Invalid : BlockHeight := 0xFFFF.
End BlockHeight.

Definition block_height_from_value (value : N) : BlockHeight :=
  if value =? 1 then BlockHeight.One
  else if value =? 2 then BlockHeight.Two
  else if value =? 4 then BlockHeight.Four
  else if value =? 8 then BlockHeight.Eight
  else if value =? 16 then BlockHeight.Sixteen
  else if value =? 32 then BlockHeight.ThirtyTwo
  else BlockHeight.Invalid.

(** [(x + d - 1) / d]; the source divides by [d] unguarded, [d = 0] is
    outside its domain. *)
Definition div_round_up (x d : N) : N := (x +% d -% 1) / d.

Definition round_up (x n : N) : N := ((x +% n -% 1) / n) *% n.

Definition width_in_gobs (width bytes_per_pixel : N) : N :=
  div_round_up (width *% bytes_per_pixel) GOB_WIDTH_IN_BYTES.

Definition height_in_blocks (height block_height : N) : N :=
  div_round_up height (block_height *% GOB_HEIGHT_IN_BYTES).

(** ** blockheight.h *)

Definition block_height_mip0 (height : N) : BlockHeight :=
  let height_and_half := height +% (height / 2) in
  if 128 <=? height_and_half then BlockHeight.Sixteen
  else if 64 <=? height_and_half then BlockHeight.Eight
  else if 32 <=? height_and_half then BlockHeight.Four
  else if 16 <=? height_and_half then BlockHeight.Two
  else BlockHeight.One.

(** [while (cond v && v > 1) v /= 2;] with [fuel] iterations allowed.
    Every iteration halves [v], so as many iterations as [v] has bits
    always suffice ([halve_while_exit]). *)
Fixpoint halve_while (cond : N -> bool) (fuel : nat) (v : N) : N :=
  match fuel with
  | O => v
  | S fuel' =>
      if cond v && (1 <? v) then halve_while cond fuel' (v / 2) else v
  end.

Definition mip_block_height (mip_height : N) (block_height_mip0 : BlockHeight)
  : BlockHeight :=
  let block_height := block_height_mip0 in
  halve_while (fun block_height => mip_height <=? (block_height / 2) *% 8)
    (N.to_nat (N.size block_height)) block_height.

(** ** blockdepth.h *)

Definition block_depth (depth : N) : N :=
  let depth_and_half := depth +% (depth / 2) in
  if 16 <=? depth_and_half then 16
  else if 8 <=? depth_and_half then 8
  else if 4 <=? depth_and_half then 4
  else if 2 <=? depth_and_half then 2
  else 1.

Definition mip_block_depth (mip_depth gob_depth : N) : N :=
  halve_while (fun gob_depth => mip_depth <=? gob_depth / 2)
    (N.to_nat (N.size gob_depth)) gob_depth.

(** ** arrays.h *)

Definition gob_blocks_in_tile_x : N := 1.

Definition align_layer_size
  (layer_size height depth : N) (block_height_mip0 : BlockHeight)
  (depth_in_gobs : N) : N :=
  let size := layer_size in
  let gob_height := block_height_mip0 in
  let gob_depth := depth_in_gobs in
  if gob_blocks_in_tile_x <? 2 then
    let gob_height :=
      halve_while (fun gob_height => height <=? (gob_height / 2) *% 8)
        (N.to_nat (N.size gob_height)) gob_height in
    let gob_depth :=
      halve_while (fun gob_depth => depth <=? gob_depth / 2)
        (N.to_nat (N.size gob_depth)) gob_depth in
    let block_of_gobs_size := gob_height *% gob_depth *% GOB_SIZE_IN_BYTES in
    let size_in_block_of_gobs := size / block_of_gobs_size in
    if negb (size =? size_in_block_of_gobs *% block_of_gobs_size)
    then (size_in_block_of_gobs +% 1) *% block_of_gobs_size
    else size
  else
    let alignment :=
      (gob_blocks_in_tile_x *% GOB_SIZE_IN_BYTES) *% gob_height *% gob_depth in
    round_up size alignment.

(** ** swizzle.h: address arithmetic and sizes *)

Definition slice_size (block_height block_depth width_in_gobs height : N) : N :=
  let rob_size :=
    GOB_SIZE_IN_BYTES *% block_height *% block_depth *% width_in_gobs in
  div_round_up height (block_height *% GOB_HEIGHT_IN_BYTES) *% rob_size.

Definition gob_address_z (z block_height block_depth slice_size : N) : N :=
  (z / block_depth *% slice_size)
  +% (N.land z (block_depth -% 1) *% GOB_SIZE_IN_BYTES *% block_height).

Definition gob_address_y
  (y block_height_in_bytes block_size_in_bytes image_width_in_gobs : N) : N :=
  let block_y := y / block_height_in_bytes in
  let block_inner_row := y mod block_height_in_bytes / GOB_HEIGHT_IN_BYTES in
  block_y *% block_size_in_bytes *% image_width_in_gobs
  +% block_inner_row *% GOB_SIZE_IN_BYTES.

Definition gob_address_x (x block_size_in_bytes : N) : N :=
  let block_x := x / GOB_WIDTH_IN_BYTES in
  block_x *% block_size_in_bytes.

Definition gob_offset (x y : N) : N :=
  ((x mod 64) / 32) *% 256 +% ((y mod 8) / 2) *% 64
  +% ((x mod 32) / 16) *% 32 +% (y mod 2) *% 16 +% (x mod 16).

Definition GOB_ROW_OFFSETS : list N := [0; 16; 64; 80; 128; 144; 192; 208].

Definition swizzled_mip_size
  (width height depth : N) (block_height : BlockHeight) (bytes_per_pixel : N)
  : N :=
  let _width_in_gobs := width_in_gobs width bytes_per_pixel in
  let _height_in_blocks := height_in_blocks height block_height in
  let height_in_gobs := _height_in_blocks *% block_height in
  let depth_in_gobs := round_up depth (block_depth depth) in
  let num_gobs := _width_in_gobs *% height_in_gobs *% depth_in_gobs in
  num_gobs *% GOB_SIZE_IN_BYTES.

Definition deswizzled_mip_size (width height depth bytes_per_pixel : N) : N :=
  width *% height *% depth *% bytes_per_pixel.

(** ** Outcomes and byte vectors *)

Inductive outcome (A : Type) : Type :=
| Ok (a : A)
| NotEnoughData
| OutOfBounds.
Arguments Ok {A} a.
Arguments NotEnoughData {A}.
Arguments OutOfBounds {A}.

#[global] Instance outcome_ret : MRet outcome := fun A a => Ok a.
#[global] Instance outcome_bind : MBind outcome := fun A B f m =>
  match m with
  | Ok a => f a
  | NotEnoughData => NotEnoughData
  | OutOfBounds => OutOfBounds
  end.

(** A loop whose body updates the state [st] and may fail. *)
Fixpoint for_each {I S : Type} (l : list I) (body : S -> I -> outcome S)
  (st : S) : outcome S :=
  match l with
  | [] => Ok st
  | i :: l' => st' ← body st i; for_each l' body st'
  end.

Abbreviation buffer := (list byte).

(** [v.size()] *)
Definition size (v : buffer) : N := N.of_nat (length v).

(** [v[i]] read. *)
Definition load (v : buffer) (i : N) : outcome byte :=
  match v !! N.to_nat i with
  | Some b => Ok b
  | None => OutOfBounds
  end.

(** [v[i] = b]. *)
Definition store (v : buffer) (i : N) (b : byte) : outcome buffer :=
  if i <? size v then Ok (<[N.to_nat i := b]> v) else OutOfBounds.

(** [destination[d] = source[s]]. *)
Definition copy_byte (destination : buffer) (d : N) (source : buffer) (s : N)
  : outcome buffer :=
  b ← load source s; store destination d b.

(** [std::vector v(src.begin() + off, src.end())] *)
Definition vector_from (v : buffer) (off : N) : outcome buffer :=
  if off <=? size v then Ok (drop (N.to_nat off) v) else OutOfBounds.

(** [std::copy(first, last, d_first)] between two arrays.  A pointer into a
    vector is the vector and an index from its start; pointer arithmetic is
    exact, and leaving the array is caught at the access. *)
Definition std_copy (src : buffer) (first last : N) (dst : buffer) (d_first : N)
  : outcome buffer :=
  for_each (N_range (last - first))
    (fun dst k => copy_byte dst (d_first + k) src (first + k)) dst.

(** ** swizzle.h: GOB copy primitives *)

Definition deswizzle_gob_row
  (dst : buffer) (dst_ptr dst_offset : N) (src : buffer) (src_ptr src_offset : N)
  : outcome buffer :=
  dst ← std_copy src (src_ptr + src_offset + 288) (src_ptr + src_offset + 304)
          dst (dst_ptr + dst_offset + 48);
  dst ← std_copy src (src_ptr + src_offset + 256) (src_ptr + src_offset + 272)
          dst (dst_ptr + dst_offset + 32);
  dst ← std_copy src (src_ptr + src_offset + 32) (src_ptr + src_offset + 48)
          dst (dst_ptr + dst_offset + 16);
  std_copy src (src_ptr + src_offset) (src_ptr + src_offset + 16)
    dst (dst_ptr + dst_offset).

Definition swizzle_gob_row
  (dst : buffer) (dst_ptr dst_offset : N) (src : buffer) (src_ptr src_offset : N)
  : outcome buffer :=
  dst ← std_copy src (src_ptr + src_offset + 48) (src_ptr + src_offset + 64)
          dst (dst_ptr + dst_offset + 288);
  dst ← std_copy src (src_ptr + src_offset + 32) (src_ptr + src_offset + 48)
          dst (dst_ptr + dst_offset + 256);
  dst ← std_copy src (src_ptr + src_offset + 16) (src_ptr + src_offset + 32)
          dst (dst_ptr + dst_offset + 32);
  std_copy src (src_ptr + src_offset) (src_ptr + src_offset + 16)
    dst (dst_ptr + dst_offset).

Definition deswizzle_complete_gob
  (dst : buffer) (dst_ptr : N) (src : buffer) (src_ptr : N)
  (row_size_in_bytes : N) : outcome buffer :=
  for_each (N_range (N.of_nat (length GOB_ROW_OFFSETS)))
    (fun dst i =>
       deswizzle_gob_row dst dst_ptr (row_size_in_bytes *% i)
         src src_ptr (GOB_ROW_OFFSETS !!! N.to_nat i))
    dst.

Definition swizzle_complete_gob
  (dst : buffer) (dst_ptr : N) (src : buffer) (src_ptr : N)
  (row_size_in_bytes : N) : outcome buffer :=
  for_each (N_range (N.of_nat (length GOB_ROW_OFFSETS)))
    (fun dst i =>
       swizzle_gob_row dst dst_ptr (GOB_ROW_OFFSETS !!! N.to_nat i)
         src src_ptr (row_size_in_bytes *% i))
    dst.

Definition swizzle_deswizzle_gob (DESWIZZLE : bool)
  (destination source : buffer)
  (x0 y0 z0 width height bytes_per_pixel gob_address : N) : outcome buffer :=
  for_each (N_range GOB_HEIGHT_IN_BYTES)
    (fun destination y =>
       for_each (N_range GOB_WIDTH_IN_BYTES)
         (fun destination x =>
            if (y0 +% y <? height) && (x0 +% x <? width *% bytes_per_pixel)
            then
              let swizzled_offset := gob_address +% gob_offset x y in
              let linear_offset :=
                (z0 *% width *% height *% bytes_per_pixel)
                +% ((y0 +% y) *% width *% bytes_per_pixel)
                +% x0 +% x in
              if DESWIZZLE
              then copy_byte destination linear_offset source swizzled_offset
              else copy_byte destination swizzled_offset source linear_offset
            else Ok destination)
         destination)
    destination.

(** ** swizzle.h: one mip level *)

Definition swizzle_inner (DESWIZZLE : bool)
  (width height depth : N) (source destination : buffer)
  (block_height : BlockHeight) (block_depth bytes_per_pixel : N)
  : outcome buffer :=
  let _block_height := block_height in
  let _width_in_gobs := width_in_gobs width bytes_per_pixel in
  let _slice_size := slice_size _block_height block_depth _width_in_gobs height in
  let block_width := 1 in
  let block_size_in_bytes :=
    GOB_SIZE_IN_BYTES *% block_width *% _block_height *% block_depth in
  let block_height_in_bytes := GOB_HEIGHT_IN_BYTES *% _block_height in
  for_each (N_range depth)
    (fun destination z0 =>
       let offset_z := gob_address_z z0 _block_height block_depth _slice_size in
       for_each (N_range_step height GOB_HEIGHT_IN_BYTES)
         (fun destination y0 =>
            let offset_y :=
              gob_address_y y0 block_height_in_bytes block_size_in_bytes
                _width_in_gobs in
            for_each (N_range_step (width *% bytes_per_pixel) GOB_WIDTH_IN_BYTES)
              (fun destination x0 =>
                 let offset_x := gob_address_x x0 block_size_in_bytes in
                 let gob_address := offset_z +% offset_y +% offset_x in
                 if (x0 +% GOB_WIDTH_IN_BYTES <? width *% bytes_per_pixel)
                    && (y0 +% GOB_HEIGHT_IN_BYTES <? height)
                 then
                   let linear_offset :=
                     (z0 *% width *% height *% bytes_per_pixel)
                     +% (y0 *% width *% bytes_per_pixel)
                     +% x0 in
                   if DESWIZZLE
                   then deswizzle_complete_gob destination linear_offset
                          source gob_address (width *% bytes_per_pixel)
                   else swizzle_complete_gob destination gob_address
                          source linear_offset (width *% bytes_per_pixel)
                 else
                   swizzle_deswizzle_gob DESWIZZLE destination source
                     x0 y0 z0 width height bytes_per_pixel gob_address)
              destination)
         destination)
    destination.

Definition zeroed (n : N) : buffer := replicate (N.to_nat n) x00%byte.

Definition swizzle_block_linear
  (width height depth : N) (source : buffer) (block_height : BlockHeight)
  (bytes_per_pixel : N) : outcome buffer :=
  let destination :=
    zeroed (swizzled_mip_size width height depth block_height bytes_per_pixel) in
  let expected_size := deswizzled_mip_size width height depth bytes_per_pixel in
  if size source <? expected_size then NotEnoughData
  else
    let _block_depth := block_depth depth in
    swizzle_inner false width height depth source destination block_height
      _block_depth bytes_per_pixel.

Definition deswizzle_block_linear
  (width height depth : N) (source : buffer) (block_height : BlockHeight)
  (bytes_per_pixel : N) : outcome buffer :=
  let destination :=
    zeroed (deswizzled_mip_size width height depth bytes_per_pixel) in
  let expected_size :=
    swizzled_mip_size width height depth block_height bytes_per_pixel in
  if size source <? expected_size then NotEnoughData
  else
    let _block_depth := block_depth depth in
    swizzle_inner true width height depth source destination block_height
      _block_depth bytes_per_pixel.

(** ** surface.h *)

Record BlockDim : Type := mkBlockDim {
  bd_width : N;
  bd_height : N;
  bd_depth : N
}.

Definition block_dim_uncompressed : BlockDim := mkBlockDim 1 1 1.
Definition block_dim_4x4 : BlockDim := mkBlockDim 4 4 1.

(** [std::max(div_round_up(dim >> mip, block), (size_t)1)]; the shift is
    defined in the source for [mip < 64] only. *)
Definition mip_dimension (dim mip block : N) : N :=
  N.max (div_round_up (N.shiftr dim mip) block) 1.

Definition swizzled_surface_size
  (width height depth : N) (block_dim : BlockDim)
  (_block_height_mip0 : option BlockHeight)
  (bytes_per_pixel mipmap_count layer_count : N) : N :=
  let block_width := bd_width block_dim in
  let block_height := bd_height block_dim in
  let block_depth := bd_depth block_dim in
  let __block_height_mip0 :=
    if depth =? 1
    then default (block_height_mip0 (div_round_up height block_height))
           _block_height_mip0
    else BlockHeight.One in
  let mip_size :=
    fold_left
      (fun mip_size mip =>
         let mip_width := mip_dimension width mip block_width in
         let mip_height := mip_dimension height mip block_height in
         let mip_depth := mip_dimension depth mip block_depth in
         let _mip_block_height := mip_block_height mip_height __block_height_mip0 in
         mip_size +% swizzled_mip_size mip_width mip_height mip_depth
                       _mip_block_height bytes_per_pixel)
      (N_range mipmap_count) 0 in
  if 1 <? layer_count then
    let layer_size :=
      align_layer_size mip_size height depth __block_height_mip0 1 in
    layer_size *% layer_count
  else mip_size.

Definition deswizzled_surface_size
  (width height depth : N) (block_dim : BlockDim)
  (bytes_per_pixel mipmap_count layer_count : N) : N :=
  let block_width := bd_width block_dim in
  let block_height := bd_height block_dim in
  let block_depth := bd_depth block_dim in
  let layer_size :=
    fold_left
      (fun layer_size mip =>
         let mip_width := mip_dimension width mip block_width in
         let mip_height := mip_dimension height mip block_height in
         let mip_depth := mip_dimension depth mip block_depth in
         layer_size +% deswizzled_mip_size mip_width mip_height mip_depth
                         bytes_per_pixel)
      (N_range mipmap_count) 0 in
  layer_size *% layer_count.

Definition surface_destination (DESWIZZLE : bool)
  (width height depth : N) (block_dim : BlockDim)
  (block_height_mip0 : option BlockHeight)
  (bytes_per_pixel mipmap_count layer_count : N) (source : buffer)
  : outcome buffer :=
  let swizzled_size :=
    swizzled_surface_size width height depth block_dim block_height_mip0
      bytes_per_pixel mipmap_count layer_count in
  let deswizzled_size :=
    deswizzled_surface_size width height depth block_dim bytes_per_pixel
      mipmap_count layer_count in
  let surface_size := if DESWIZZLE then deswizzled_size else swizzled_size in
  let expected_size := if DESWIZZLE then swizzled_size else deswizzled_size in
  if size source <? expected_size then NotEnoughData
  else Ok (zeroed surface_size).

(** The state threaded through the mip loop: the result vector and the two
    offsets the source passes by reference. *)
Record cursor : Type := mkCursor {
  cur_dst : buffer;
  cur_src_offset : N;
  cur_dst_offset : N
}.

Definition swizzle_mipmap (DESWIZZLE : bool)
  (width height depth : N) (block_height : BlockHeight)
  (block_depth bytes_per_pixel : N) (source : buffer) (c : cursor)
  : outcome cursor :=
  let dst := cur_dst c in
  let src_offset := cur_src_offset c in
  let dst_offset := cur_dst_offset c in
  let swizzled_size :=
    swizzled_mip_size width height depth block_height bytes_per_pixel in
  let deswizzled_size :=
    deswizzled_mip_size width height depth bytes_per_pixel in
  if DESWIZZLE && (size source <? src_offset +% swizzled_size)
  then NotEnoughData
  else if negb DESWIZZLE && (size source <? src_offset +% deswizzled_size)
  then NotEnoughData
  else
    part_of_source ← vector_from source src_offset;
    part_of_dst ← vector_from dst dst_offset;
    part_of_dst ← swizzle_inner DESWIZZLE width height depth part_of_source
                     part_of_dst block_height block_depth bytes_per_pixel;
    dst ← for_each (N_range (size part_of_dst))
            (fun dst i => copy_byte dst (i +% dst_offset) part_of_dst i) dst;
    if DESWIZZLE
    then Ok (mkCursor dst (src_offset +% swizzled_size)
               (dst_offset +% deswizzled_size))
    else Ok (mkCursor dst (src_offset +% deswizzled_size)
               (dst_offset +% swizzled_size)).

(** The layer and mip loops of [swizzle_surface_inner], for a resolved
    mip-0 block height. *)
Definition swizzle_layers (DESWIZZLE : bool)
  (width height depth : N) (source result : buffer) (block_dim : BlockDim)
  (__block_height_mip0 : BlockHeight)
  (bytes_per_pixel mipmap_count layer_count : N) : outcome cursor :=
  let block_width := bd_width block_dim in
  let block_height := bd_height block_dim in
  let _block_depth := bd_depth block_dim in
  let block_depth_mip0 := block_depth depth in
  for_each (N_range layer_count)
    (fun c i =>
       c ← for_each (N_range mipmap_count)
             (fun c mip =>
                let mip_width := mip_dimension width mip block_width in
                let mip_height := mip_dimension height mip block_height in
                let mip_depth := mip_dimension depth mip _block_depth in
                let _mip_block_height :=
                  mip_block_height mip_height __block_height_mip0 in
                let _mip_block_depth :=
                  mip_block_depth mip_depth block_depth_mip0 in
                swizzle_mipmap DESWIZZLE mip_width mip_height mip_depth
                  _mip_block_height _mip_block_depth bytes_per_pixel source c)
             c;
       if 1 <? layer_count then
         if DESWIZZLE
         then Ok (mkCursor (cur_dst c)
                    (align_layer_size (cur_src_offset c) height depth
                       __block_height_mip0 1)
                    (cur_dst_offset c))
         else Ok (mkCursor (cur_dst c) (cur_src_offset c)
                    (align_layer_size (cur_dst_offset c) height depth
                       __block_height_mip0 1))
       else Ok c)
    (mkCursor result 0 0).

Definition swizzle_surface_inner (DESWIZZLE : bool)
  (width height depth : N) (source result : buffer) (block_dim : BlockDim)
  (_block_height_mip0 : option BlockHeight)
  (bytes_per_pixel mipmap_count layer_count : N) : outcome buffer :=
  let block_height := bd_height block_dim in
  let __block_height_mip0 :=
    if depth =? 1
    then default (block_height_mip0 (div_round_up height block_height))
           _block_height_mip0
    else BlockHeight.One in
  c ← swizzle_layers DESWIZZLE width height depth source result block_dim
        __block_height_mip0 bytes_per_pixel mipmap_count layer_count;
  Ok (cur_dst c).

Definition swizzle_surface
  (width height depth : N) (source : buffer) (block_dim : BlockDim)
  (block_height_mip0 : option BlockHeight)
  (bytes_per_pixel mipmap_count layer_count : N) : outcome buffer :=
  result ← surface_destination false width height depth block_dim
             block_height_mip0 bytes_per_pixel mipmap_count layer_count source;
  swizzle_surface_inner false width height depth source result block_dim
    block_height_mip0 bytes_per_pixel mipmap_count layer_count.

Definition deswizzle_surface
  (width height depth : N) (source : buffer) (block_dim : BlockDim)
  (block_height_mip0 : option BlockHeight)
  (bytes_per_pixel mipmap_count layer_count : N) : outcome buffer :=
  result ← surface_destination true width height depth block_dim
             block_height_mip0 bytes_per_pixel mipmap_count layer_count source;
  swizzle_surface_inner true width height depth source result block_dim
    block_height_mip0 bytes_per_pixel mipmap_count layer_count.


(** ** Specification-side definitions *)

(** The block heights of the Tegra TRM table: the enumerators of
    [BlockHeight] other than [Invalid]. *)
Definition valid_block_height (bh : BlockHeight) : Prop :=
  bh = BlockHeight.One \/ bh = BlockHeight.Two \/ bh = BlockHeight.Four \/
  bh = BlockHeight.Eight \/ bh = BlockHeight.Sixteen \/
  bh = BlockHeight.ThirtyTwo.

(** The bit-sliced form of the offset inside a GOB. *)
Definition gob_offset_bits (x y : N) : N :=
  N.lor (N.shiftl (N.land x 0x20) 3)
    (N.lor (N.shiftl (N.land y 0x6) 5)
       (N.lor (N.shiftl (N.land x 0x10) 1)
          (N.lor (N.shiftl (N.land y 1) 4) (N.land x 0xF)))).

(** Where the 16-byte run holding column [x] starts, relative to the start
    of its row inside the GOB. *)
Definition gob_run_offset (x : N) : N :=
  if x <? 16 then 0 else if x <? 32 then 32 else if x <? 48 then 256 else 288.

(** Ceiling division over the naturals, without wrap-around. *)
Definition cdiv (x d : N) : N := (x + d - 1) / d.

(** A valid surface descriptor, as the specification's data model has it:
    positive dimensions and block dimensions, 1 to 16 bytes per pixel, at
    least one mip level and one layer, and a tabulated block height when
    one is given. *)
Record valid_descriptor
  (width height depth : N) (block_dim : BlockDim)
  (block_height_mip0 : option BlockHeight)
  (bytes_per_pixel mipmap_count layer_count : N) : Prop := {
  vd_width : 1 <= width;
  vd_height : 1 <= height;
  vd_depth : 1 <= depth;
  vd_block_width : 1 <= bd_width block_dim;
  vd_block_height : 1 <= bd_height block_dim;
  vd_block_depth : 1 <= bd_depth block_dim;
  vd_bpp : 1 <= bytes_per_pixel <= 16;
  vd_mips : 1 <= mipmap_count;
  vd_layers : 1 <= layer_count;
  vd_bh : forall bh, block_height_mip0 = Some bh -> valid_block_height bh
}.

(** Descriptors on which no [size_t] computation of the library wraps
    around and no shift count reaches the width of [size_t]: dimensions up
    to the 16384 texels of the Tegra X1, at most 64 mip levels and 256
    layers. *)
Record representable
  (width height depth : N) (block_dim : BlockDim)
  (mipmap_count layer_count : N) : Prop := {
  rp_width : width <= 16384;
  rp_height : height <= 16384;
  rp_depth : depth <= 16384;
  rp_block_width : bd_width block_dim <= 16384;
  rp_block_height : bd_height block_dim <= 16384;
  rp_block_depth : bd_depth block_dim <= 16384;
  rp_mips : mipmap_count <= 64;
  rp_layers : layer_count <= 256
}.

(** The block depths the library derives. *)
Definition valid_block_depth (bd : N) : Prop :=
  bd = 1 \/ bd = 2 \/ bd = 4 \/ bd = 8 \/ bd = 16.

(** The sizes of one mip level, in exact arithmetic. *)
Definition swizzled_mip_size_exact (width height depth bh bpp : N) : N :=
  cdiv (width * bpp) 64 * (cdiv height (bh * 8) * bh)
  * (cdiv depth (block_depth depth) * block_depth depth) * 512.

Definition deswizzled_mip_size_exact (width height depth bpp : N) : N :=
  width * height * depth * bpp.

(** The mip-0 block height both surface functions resolve from the
    descriptor (the [__block_height_mip0] of the source). *)
Definition resolved_block_height_mip0
  (height depth : N) (block_dim : BlockDim)
  (supplied : option BlockHeight) : BlockHeight :=
  if depth =? 1
  then default (block_height_mip0 (div_round_up height (bd_height block_dim)))
         supplied
  else BlockHeight.One.

Definition sumN {A : Type} (f : A -> N) (l : list A) : N :=
  foldr (fun i acc => f i + acc) 0 l.

(** The two sizes of mip level [mip] of a surface, as the loops of the
    surface functions compute them. *)
Definition mip_swizzled_size
  (width height depth : N) (block_dim : BlockDim) (bh_mip0 : BlockHeight)
  (bytes_per_pixel mip : N) : N :=
  swizzled_mip_size
    (mip_dimension width mip (bd_width block_dim))
    (mip_dimension height mip (bd_height block_dim))
    (mip_dimension depth mip (bd_depth block_dim))
    (mip_block_height (mip_dimension height mip (bd_height block_dim)) bh_mip0)
    bytes_per_pixel.

Definition mip_deswizzled_size
  (width height depth : N) (block_dim : BlockDim)
  (bytes_per_pixel mip : N) : N :=
  deswizzled_mip_size
    (mip_dimension width mip (bd_width block_dim))
    (mip_dimension height mip (bd_height block_dim))
    (mip_dimension depth mip (bd_depth block_dim))
    bytes_per_pixel.

(** The alignment unit between layers: one block of GOBs of the height
    that [align_layer_size] derives, in bytes. *)
Definition layer_alignment (height : N) (bh_mip0 : BlockHeight) : N :=
  mip_block_height height bh_mip0 * 512.

(** ** Byte moves

    Every transfer of the library is a sequence of single-byte copies
    [destination[d] = source[s]] between two distinct vectors.  A move is
    the pair [(d, s)]. *)
Definition move : Type := (N * N)%type.

Definition apply_moves (source : buffer) (ms : list move) (destination : buffer)
  : outcome buffer :=
  for_each ms (fun destination m => copy_byte destination m.1 source m.2)
    destination.

(** The moves of [std::copy(first, last, d_first)]. *)
Definition std_copy_moves (first last d_first : N) : list move :=
  (fun k => (d_first + k, first + k)) <$> N_range (last - first).

Definition deswizzle_gob_row_moves
  (dst_ptr dst_offset src_ptr src_offset : N) : list move :=
  std_copy_moves (src_ptr + src_offset + 288) (src_ptr + src_offset + 304)
    (dst_ptr + dst_offset + 48)
  ++ std_copy_moves (src_ptr + src_offset + 256) (src_ptr + src_offset + 272)
       (dst_ptr + dst_offset + 32)
  ++ std_copy_moves (src_ptr + src_offset + 32) (src_ptr + src_offset + 48)
       (dst_ptr + dst_offset + 16)
  ++ std_copy_moves (src_ptr + src_offset) (src_ptr + src_offset + 16)
       (dst_ptr + dst_offset).

Definition swizzle_gob_row_moves
  (dst_ptr dst_offset src_ptr src_offset : N) : list move :=
  std_copy_moves (src_ptr + src_offset + 48) (src_ptr + src_offset + 64)
    (dst_ptr + dst_offset + 288)
  ++ std_copy_moves (src_ptr + src_offset + 32) (src_ptr + src_offset + 48)
       (dst_ptr + dst_offset + 256)
  ++ std_copy_moves (src_ptr + src_offset + 16) (src_ptr + src_offset + 32)
       (dst_ptr + dst_offset + 32)
  ++ std_copy_moves (src_ptr + src_offset) (src_ptr + src_offset + 16)
       (dst_ptr + dst_offset).

(** The moves of the fast primitives, [deswizzle_complete_gob] and
    [swizzle_complete_gob]. *)
Definition complete_gob_moves (DESWIZZLE : bool)
  (dst_ptr src_ptr row_size_in_bytes : N) : list move :=
  i ← N_range (N.of_nat (length GOB_ROW_OFFSETS));
  if DESWIZZLE
  then deswizzle_gob_row_moves dst_ptr (row_size_in_bytes *% i)
         src_ptr (GOB_ROW_OFFSETS !!! N.to_nat i)
  else swizzle_gob_row_moves dst_ptr (GOB_ROW_OFFSETS !!! N.to_nat i)
         src_ptr (row_size_in_bytes *% i).

(** The move of byte [(x, y)] of a GOB in the per-byte primitive. *)
Definition gob_byte_move (DESWIZZLE : bool)
  (x0 y0 z0 width height bytes_per_pixel gob_address x y : N) : move :=
  let swizzled_offset := gob_address +% gob_offset x y in
  let linear_offset :=
    (z0 *% width *% height *% bytes_per_pixel)
    +% ((y0 +% y) *% width *% bytes_per_pixel)
    +% x0 +% x in
  if DESWIZZLE then (linear_offset, swizzled_offset)
  else (swizzled_offset, linear_offset).

(** The moves of the per-byte primitive [swizzle_deswizzle_gob]. *)
Definition gob_moves (DESWIZZLE : bool)
  (x0 y0 z0 width height bytes_per_pixel gob_address : N) : list move :=
  y ← N_range GOB_HEIGHT_IN_BYTES;
  x ← N_range GOB_WIDTH_IN_BYTES;
  if (y0 +% y <? height) && (x0 +% x <? width *% bytes_per_pixel)
  then [gob_byte_move DESWIZZLE x0 y0 z0 width height bytes_per_pixel
          gob_address x y]
  else [].

(** [swizzle_inner] with every GOB sent to the per-byte primitive: the
    reference that the fast path is compared with. *)
Definition swizzle_inner_slow (DESWIZZLE : bool)
  (width height depth : N) (source destination : buffer)
  (block_height : BlockHeight) (block_depth bytes_per_pixel : N)
  : outcome buffer :=
  let _block_height := block_height in
  let _width_in_gobs := width_in_gobs width bytes_per_pixel in
  let _slice_size := slice_size _block_height block_depth _width_in_gobs height in
  let block_width := 1 in
  let block_size_in_bytes :=
    GOB_SIZE_IN_BYTES *% block_width *% _block_height *% block_depth in
  let block_height_in_bytes := GOB_HEIGHT_IN_BYTES *% _block_height in
  for_each (N_range depth)
    (fun destination z0 =>
       let offset_z := gob_address_z z0 _block_height block_depth _slice_size in
       for_each (N_range_step height GOB_HEIGHT_IN_BYTES)
         (fun destination y0 =>
            let offset_y :=
              gob_address_y y0 block_height_in_bytes block_size_in_bytes
                _width_in_gobs in
            for_each (N_range_step (width *% bytes_per_pixel) GOB_WIDTH_IN_BYTES)
              (fun destination x0 =>
                 let offset_x := gob_address_x x0 block_size_in_bytes in
                 let gob_address := offset_z +% offset_y +% offset_x in
                 swizzle_deswizzle_gob DESWIZZLE destination source
                   x0 y0 z0 width height bytes_per_pixel gob_address)
              destination)
         destination)
    destination.

(** The byte positions [(x, y)] of a GOB in the order of the per-byte
    loops, and in the order the fast primitives copy them. *)
Definition gob_positions : list (N * N) :=
  y ← N_range 8; x ← N_range 64; [(x, y)].

Definition gob_positions_fast : list (N * N) :=
  y ← N_range 8; c ← [48; 32; 16; 0]; k ← N_range 16; [(c + k, y)].

(** The position of a GOB byte, recovered from its offset in the GOB. *)
Definition gob_offset_inv (o : N) : N * N :=
  ((o / 256) mod 2 * 32 + (o / 32) mod 2 * 16 + o mod 16,
   (o / 64) mod 4 * 2 + (o / 16) mod 2).

(** The move of the byte at position [p = (x, y)] of the GOB at
    [(x0, y0, z0)], in exact arithmetic: between the swizzled offset
    [gob_address + gob_offset x y] and the linear offset of the byte. *)
Definition exact_gob_move (DESWIZZLE : bool)
  (x0 y0 z0 width height bytes_per_pixel gob_address : N) (p : N * N) : move :=
  let swizzled_offset := gob_address + gob_offset p.1 p.2 in
  let linear_offset :=
    z0 * width * height * bytes_per_pixel
    + (y0 + p.2) * width * bytes_per_pixel + x0 + p.1 in
  if DESWIZZLE then (linear_offset, swizzled_offset)
  else (swizzled_offset, linear_offset).

(** The address of the GOB holding byte [(x, y, z)] of a mip level, in
    exact arithmetic: [gob_address_z + gob_address_y + gob_address_x]. *)
Definition gob_address_exact
  (width height bh bd bpp x y z : N) : N :=
  let wg := cdiv (width * bpp) 64 in
  z / bd * (cdiv height (bh * 8) * (512 * bh * bd * wg))
  + z mod bd * 512 * bh
  + y / (8 * bh) * (512 * bh * bd) * wg
  + y mod (8 * bh) / 8 * 512
  + x / 64 * (512 * bh * bd).

(** The address of the GOB at [(x0, y0, z0)], as [swizzle_inner] computes
    it. *)
Definition mip_gob_address (width height bh bd bpp x0 y0 z0 : N) : N :=
  gob_address_z z0 bh bd (slice_size bh bd (width_in_gobs width bpp) height)
  +% gob_address_y y0 (GOB_HEIGHT_IN_BYTES *% bh)
       (GOB_SIZE_IN_BYTES *% 1 *% bh *% bd) (width_in_gobs width bpp)
  +% gob_address_x x0 (GOB_SIZE_IN_BYTES *% 1 *% bh *% bd).

(** The moves of one mip level: those of [swizzle_inner_slow]. *)
Definition inner_moves (DESWIZZLE : bool) (width height depth bh bd bpp : N)
  : list move :=
  z0 ← N_range depth;
  y0 ← N_range_step height GOB_HEIGHT_IN_BYTES;
  x0 ← N_range_step (width *% bpp) GOB_WIDTH_IN_BYTES;
  gob_moves DESWIZZLE x0 y0 z0 width height bpp
    (mip_gob_address width height bh bd bpp x0 y0 z0).

(** The block-linear address and the linear offset of byte [(x, y, z)] of a
    mip level, [x] counted in bytes. *)
Definition mip_address (width height bh bd bpp x y z : N) : N :=
  gob_address_exact width height bh bd bpp x y z
  + gob_offset (x mod 64) (y mod 8).

Definition mip_linear (width height bpp x y z : N) : N :=
  z * width * height * bpp + y * width * bpp + x.

Definition mip_move (DESWIZZLE : bool) (width height bh bd bpp x y z : N)
  : move :=
  if DESWIZZLE
  then (mip_linear width height bpp x y z,
        mip_address width height bh bd bpp x y z)
  else (mip_address width height bh bd bpp x y z,
        mip_linear width height bpp x y z).

(** A move between two windows, seen from the vectors the windows start
    in at [dst_offset] and [src_offset]. *)
Definition shift_move (dst_offset src_offset : N) (m : move) : move :=
  (m.1 + dst_offset, m.2 + src_offset).

(** ** The layout of a surface

    The offsets and the moves of the layer and mip loops of
    [swizzle_layers], for a descriptor and a resolved mip-0 block height
    [bh_mip0]. *)
Section surface_layout.
Context (width height depth : N) (block_dim : BlockDim)
  (bh_mip0 : BlockHeight) (bytes_per_pixel mipmap_count layer_count : N).

(** The moves of mip level [mip], relative to the start of the level in
    both vectors. *)
Definition mip_moves (DESWIZZLE : bool) (mip : N) : list move :=
  inner_moves DESWIZZLE
    (mip_dimension width mip (bd_width block_dim))
    (mip_dimension height mip (bd_height block_dim))
    (mip_dimension depth mip (bd_depth block_dim))
    (mip_block_height (mip_dimension height mip (bd_height block_dim)) bh_mip0)
    (mip_block_depth (mip_dimension depth mip (bd_depth block_dim))
       (block_depth depth))
    bytes_per_pixel.

(** The size of one layer in the swizzled vector, alignment included, and
    in the linear vector. *)
Definition layer_swizzled_size : N :=
  let mip_sum :=
    sumN (mip_swizzled_size width height depth block_dim bh_mip0
            bytes_per_pixel) (N_range mipmap_count) in
  if 1 <? layer_count
  then cdiv mip_sum (layer_alignment height bh_mip0)
       * layer_alignment height bh_mip0
  else mip_sum.

Definition layer_deswizzled_size : N :=
  sumN (mip_deswizzled_size width height depth block_dim bytes_per_pixel)
    (N_range mipmap_count).

(** Where mip level [mip] of layer [layer] starts in the swizzled and in
    the linear vector. *)
Definition mip_swizzled_offset (layer mip : N) : N :=
  layer * layer_swizzled_size
  + sumN (mip_swizzled_size width height depth block_dim bh_mip0
            bytes_per_pixel) (N_range mip).

Definition mip_deswizzled_offset (layer mip : N) : N :=
  layer * layer_deswizzled_size
  + sumN (mip_deswizzled_size width height depth block_dim bytes_per_pixel)
      (N_range mip).

(** All the moves of a surface transfer. *)
Definition surface_moves (DESWIZZLE : bool) : list move :=
  layer ← N_range layer_count;
  mip ← N_range mipmap_count;
  (if DESWIZZLE
   then shift_move (mip_deswizzled_offset layer mip)
          (mip_swizzled_offset layer mip)
   else shift_move (mip_swizzled_offset layer mip)
          (mip_deswizzled_offset layer mip))
    <$> mip_moves DESWIZZLE mip.
End surface_layout.

(** ** The address mapping of a surface *)
Section surface_mapping.
Context (width height depth : N) (block_dim : BlockDim)
  (bh_mip0 : BlockHeight) (bytes_per_pixel mipmap_count layer_count : N).

(** Byte [(x, y, z)] of mip level [mip] of layer [layer] belongs to the
    image; [x] counts bytes along a row. *)
Definition in_surface (layer mip x y z : N) : Prop :=
  layer < layer_count /\ mip < mipmap_count /\
  x < mip_dimension width mip (bd_width block_dim) * bytes_per_pixel /\
  y < mip_dimension height mip (bd_height block_dim) /\
  z < mip_dimension depth mip (bd_depth block_dim).

(** Its offset in the swizzled vector. *)
Definition surface_address (layer mip x y z : N) : N :=
  mip_swizzled_offset width height depth block_dim bh_mip0 bytes_per_pixel
    mipmap_count layer_count layer mip
  + mip_address
      (mip_dimension width mip (bd_width block_dim))
      (mip_dimension height mip (bd_height block_dim))
      (mip_block_height (mip_dimension height mip (bd_height block_dim))
         bh_mip0)
      (mip_block_depth (mip_dimension depth mip (bd_depth block_dim))
         (block_depth depth))
      bytes_per_pixel x y z.

(** Its offset in the linear vector. *)
Definition surface_linear (layer mip x y z : N) : N :=
  mip_deswizzled_offset width height depth block_dim bytes_per_pixel
    mipmap_count layer mip
  + mip_linear
      (mip_dimension width mip (bd_width block_dim))
      (mip_dimension height mip (bd_height block_dim))
      bytes_per_pixel x y z.

Definition surface_move (DESWIZZLE : bool) (layer mip x y z : N) : move :=
  if DESWIZZLE
  then (surface_linear layer mip x y z, surface_address layer mip x y z)
  else (surface_address layer mip x y z, surface_linear layer mip x y z).
End surface_mapping.

(* ================================================================== *)
(** * Properties *)

(** [lia] and [nia] see through division and remainder by a constant. *)
Ltac Zify.zify_post_hook ::= Z.to_euclidean_division_equations.

(** ** [size_t] arithmetic without overflow *)

Lemma wrap_small n : n < 2 ^ 64 -> SizeT.wrap n = n.
Proof. intros. unfold SizeT.wrap, SizeT.modulus. apply N.mod_small. lia. Qed.

Lemma add_small a b : a + b < 2 ^ 64 -> a +% b = a + b.
Proof. apply wrap_small. Qed.

Lemma mul_small a b : a * b < 2 ^ 64 -> a *% b = a * b.
Proof. apply wrap_small. Qed.

Lemma sub_small a b : b <= a -> a < 2 ^ 64 -> a -% b = a - b.
Proof.
  intros Hb Ha. unfold SizeT.sub.
  rewrite (wrap_small b) by lia. unfold SizeT.wrap, SizeT.modulus.
  replace (a + (2 ^ 64 - b)) with ((a - b) + 1 * 2 ^ 64) by lia.
  rewrite N.Div0.mod_add. apply N.mod_small. lia.
Qed.

Lemma wrap_lt n : SizeT.wrap n < 2 ^ 64.
Proof. unfold SizeT.wrap, SizeT.modulus. apply N.mod_lt. lia. Qed.

(** ** Loop ranges *)

Lemma elem_of_N_range n i : i ∈ N_range n <-> i < n.
Proof.
  unfold N_range. rewrite list_elem_of_fmap. split.
  - intros (k & -> & Hk). apply elem_of_seq in Hk. lia.
  - intros Hi. exists (N.to_nat i). split; [lia|]. apply elem_of_seq. lia.
Qed.

Lemma N_range_S n : N_range (N.succ n) = N_range n ++ [n].
Proof.
  unfold N_range. rewrite N2Nat.inj_succ, seq_S, fmap_app. simpl.
  by rewrite N2Nat.id.
Qed.

Lemma NoDup_N_range n : NoDup (N_range n).
Proof.
  unfold N_range. apply NoDup_fmap_2; [|apply NoDup_seq].
  intros a b. lia.
Qed.

Lemma elem_of_N_range_step n step x :
  0 < step -> x ∈ N_range_step n step <-> x < n /\ x mod step = 0.
Proof.
  intros Hs. unfold N_range_step. rewrite list_elem_of_fmap. split.
  - intros (k & -> & Hk). apply elem_of_N_range in Hk.
    split; [|apply N.Div0.mod_mul].
    assert (k * step + step <= n + step - 1); [|lia].
    pose proof (N.Div0.mul_div_le (n + step - 1) step). nia.
  - intros [Hx Hm]. exists (x / step). split.
    + apply N.Div0.div_exact in Hm. lia.
    + apply elem_of_N_range. apply N.Div0.div_exact in Hm.
      apply N.Div0.div_lt_upper_bound.
      pose proof (N.mod_upper_bound (n + step - 1) step ltac:(lia)).
      pose proof (N.div_mod (n + step - 1) step ltac:(lia)).
      nia.
Qed.

(** ** Block height and block depth inference *)

Lemma halve_while_le cond fuel v : halve_while cond fuel v <= v.
Proof.
  revert v. induction fuel as [|fuel IH]; intros v; simpl; [lia|].
  destruct (cond v && (1 <? v)); [|lia].
  etrans; [apply IH|]. apply N.Div0.div_le_upper_bound. lia.
Qed.

Lemma halve_while_pos cond fuel v : 0 < v -> 0 < halve_while cond fuel v.
Proof.
  revert v. induction fuel as [|fuel IH]; intros v Hv; simpl; [done|].
  destruct (cond v) eqn:Hc; simpl; [|done].
  destruct (N.ltb_spec 1 v); [|done].
  apply IH. apply N.div_str_pos. lia.
Qed.

(** The loop has really ended when the fuel is the bit size of the start
    value: the exit test of the [while] holds on the result. *)
Lemma halve_while_fuel cond fuel v :
  v < 2 ^ N.of_nat fuel ->
  let r := halve_while cond fuel v in cond r && (1 <? r) = false.
Proof.
  revert v. induction fuel as [|fuel IH]; intros v Hv; simpl.
  - simpl in Hv. assert (v = 0) as -> by lia. apply andb_false_r.
  - destruct (cond v && (1 <? v)) eqn:Hc; [|done].
    apply IH. apply N.Div0.div_lt_upper_bound.
    rewrite Nat2N.inj_succ, N.pow_succ_r' in Hv. lia.
Qed.

Lemma halve_while_exit cond v :
  let r := halve_while cond (N.to_nat (N.size v)) v in
  cond r && (1 <? r) = false.
Proof. apply halve_while_fuel. rewrite N2Nat.id. apply N.size_gt. Qed.

(** C8: the mip-0 block height is read off [H + H/2] by the thresholds
    128, 64, 32 and 16 (for heights whose [H + H/2] is a [size_t]), and the
    two scenarios of the specification. *)
Theorem block_height_mip0_table (H : N) :
  H + H / 2 < 2 ^ 64 ->
  block_height_mip0 H =
    (if 128 <=? H + H / 2 then 16
     else if 64 <=? H + H / 2 then 8
     else if 32 <=? H + H / 2 then 4
     else if 16 <=? H + H / 2 then 2
     else 1)
  /\ block_height_mip0 300 = 16 /\ block_height_mip0 8 = 1.
Proof.
  intros HH. split; [|done].
  unfold block_height_mip0. by rewrite add_small.
Qed.

Lemma block_height_mip0_table_witness :
  block_height_mip0 300 =
    (if 128 <=? 300 + 300 / 2 then 16
     else if 64 <=? 300 + 300 / 2 then 8
     else if 32 <=? 300 + 300 / 2 then 4
     else if 16 <=? 300 + 300 / 2 then 2
     else 1)
  /\ block_height_mip0 300 = 16 /\ block_height_mip0 8 = 1.
Proof. apply (block_height_mip0_table 300). reflexivity. Defined.

Lemma block_height_mip0_valid H : valid_block_height (block_height_mip0 H).
Proof.
  unfold block_height_mip0, valid_block_height.
  repeat case_match; auto 10.
Qed.

Lemma mul8_small bh : bh <= 32 -> (bh / 2) *% 8 = bh / 2 * 8.
Proof.
  intros. apply mul_small.
  pose proof (N.Div0.div_le_upper_bound bh 2 32). lia.
Qed.

Lemma halve_while_S cond fuel v :
  halve_while cond (S fuel) v =
    if cond v && (1 <? v) then halve_while cond fuel (v / 2) else v.
Proof. reflexivity. Qed.

Lemma halve_while_O cond v : halve_while cond O v = v.
Proof. reflexivity. Qed.

(** Unrolls a [halve_while] loop that starts from a numeral. *)
Ltac eval_closed t :=
  let v := eval vm_compute in t in change t with v.
Ltac unroll_halve_while :=
  repeat match goal with
    | |- context [N.to_nat (N.size (N.pos ?p))] =>
        eval_closed (N.to_nat (N.size (N.pos p)))
    | |- context [halve_while ?c (S ?f) ?v] => rewrite (halve_while_S c f v)
    | |- context [halve_while ?c O ?v] => rewrite (halve_while_O c v)
    | |- context [N.pos ?p / 2] => eval_closed (N.pos p / 2)
    | |- context [N.pos ?p *% 8] => eval_closed (N.pos p *% 8)
    | |- context [0 *% 8] => eval_closed (0 *% 8)
    | |- context [0 / 2] => eval_closed (0 / 2)
    end.
Ltac split_compares :=
  repeat (match goal with
          | |- context [?a <=? ?b] => destruct (N.leb_spec a b)
          | |- context [?a <? ?b] => destruct (N.ltb_spec a b)
          end; simpl andb; simpl orb; cbv iota; try lia).

(** The per-mip block height in closed form. *)
Lemma mip_block_height_cases mh bh :
  valid_block_height bh ->
  mip_block_height mh bh =
    if (bh =? 1) || (bh * 4 <? mh) then bh
    else if 64 <? mh then 16
    else if 32 <? mh then 8
    else if 16 <? mh then 4
    else if 8 <? mh then 2
    else 1.
Proof.
  intros Hv. unfold mip_block_height.
  destruct Hv as [-> | [-> | [-> | [-> | [-> | ->]]]]];
    unfold BlockHeight.One, BlockHeight.Two, BlockHeight.Four,
      BlockHeight.Eight, BlockHeight.Sixteen, BlockHeight.ThirtyTwo;
    unroll_halve_while; split_compares; try reflexivity.
Qed.

(** C9: the per-mip block height never exceeds the mip-0 block height, and
    it is one as soon as the mip is at most one GOB tall. *)
Theorem mip_block_height_stable (mip_height : N) (bh_mip0 : BlockHeight) :
  valid_block_height bh_mip0 ->
  mip_block_height mip_height bh_mip0 <= bh_mip0 /\
  (mip_height <= 8 -> mip_block_height mip_height bh_mip0 = 1).
Proof.
  intros Hv. split.
  - apply halve_while_le.
  - intros Hm. rewrite mip_block_height_cases by done.
    destruct Hv as [-> | [-> | [-> | [-> | [-> | ->]]]]];
      unfold BlockHeight.One, BlockHeight.Two, BlockHeight.Four,
        BlockHeight.Eight, BlockHeight.Sixteen, BlockHeight.ThirtyTwo;
      split_compares; reflexivity.
Qed.

Lemma mip_block_height_stable_witness :
  mip_block_height 4 BlockHeight.Sixteen <= BlockHeight.Sixteen /\
  (4 <= 8 -> mip_block_height 4 BlockHeight.Sixteen = 1).
Proof.
  apply (mip_block_height_stable 4 BlockHeight.Sixteen).
  unfold valid_block_height. auto 10.
Defined.

(** ** The byte permutation inside a GOB *)

Lemma forallb_N_range (P : N -> bool) n :
  forallb P (N_range n) = true -> forall i, i < n -> P i = true.
Proof.
  intros H i Hi. rewrite forallb_forall in H. apply H.
  apply list_elem_of_In. by apply elem_of_N_range.
Qed.

(** Exhaustive check of a property of the 64 x 8 positions of a GOB. *)
Lemma gob_positions_ind (P : N -> N -> bool) :
  forallb (fun y => forallb (fun x => P x y) (N_range 64)) (N_range 8) = true ->
  forall x y, x < 64 -> y < 8 -> P x y = true.
Proof.
  intros H x y Hx Hy.
  apply (forallb_N_range (fun x => P x y) 64); [|done].
  by apply (forallb_N_range (fun y => forallb (fun x => P x y) (N_range 64)) 8).
Qed.

Lemma gob_offset_exhaustive x y :
  x < 64 -> y < 8 ->
  (gob_offset x y =?
     (x mod 64) / 32 * 256 + (y mod 8) / 2 * 64 + (x mod 32) / 16 * 32
     + (y mod 2) * 16 + x mod 16)
  && (gob_offset x y =? gob_offset_bits x y)
  && (gob_offset x y
      =? GOB_ROW_OFFSETS !!! N.to_nat y + gob_run_offset x + x mod 16)
  = true.
Proof.
  revert x y.
  apply (gob_positions_ind (fun x y =>
    (gob_offset x y =?
       (x mod 64) / 32 * 256 + (y mod 8) / 2 * 64 + (x mod 32) / 16 * 32
       + (y mod 2) * 16 + x mod 16)
    && (gob_offset x y =? gob_offset_bits x y)
    && (gob_offset x y
        =? GOB_ROW_OFFSETS !!! N.to_nat y + gob_run_offset x + x mod 16))).
  vm_compute. reflexivity.
Qed.

Lemma gob_offset_eq x y :
  x < 64 -> y < 8 ->
  gob_offset x y
  = GOB_ROW_OFFSETS !!! N.to_nat y + gob_run_offset x + x mod 16.
Proof.
  intros Hx Hy. pose proof (gob_offset_exhaustive x y Hx Hy) as H.
  apply andb_prop in H as [_ H]. by apply N.eqb_eq.
Qed.

Lemma gob_offset_lt x y : x < 64 -> y < 8 -> gob_offset x y < 512.
Proof.
  revert x y. intros x y Hx Hy. apply N.ltb_lt. revert x y Hx Hy.
  apply (gob_positions_ind (fun x y => gob_offset x y <? 512)).
  vm_compute. reflexivity.
Qed.

(** C6: inside a GOB the offset of byte [(x, y)] is the nested-stride
    formula, which is also the bit-sliced form; row [y] starts at
    [GOB_ROW_OFFSETS[y]], one of 0, 16, 64, 80, 128, 144, 192, 208, and its
    four 16-byte runs start at the row offset plus 0, 32, 256 and 288. *)
Theorem gob_offset_layout (x y : N) :
  x < 64 -> y < 8 ->
  gob_offset x y =
    (x mod 64) / 32 * 256 + (y mod 8) / 2 * 64 + (x mod 32) / 16 * 32
    + (y mod 2) * 16 + x mod 16
  /\ gob_offset x y =
       N.lor (N.shiftl (N.land x 0x20) 3)
         (N.lor (N.shiftl (N.land y 0x6) 5)
            (N.lor (N.shiftl (N.land x 0x10) 1)
               (N.lor (N.shiftl (N.land y 1) 4) (N.land x 0xF))))
  /\ GOB_ROW_OFFSETS = [0; 16; 64; 80; 128; 144; 192; 208]
  /\ exists row,
       GOB_ROW_OFFSETS !! N.to_nat y = Some row /\
       (x < 16 -> gob_offset x y = row + x) /\
       (16 <= x < 32 -> gob_offset x y = row + 32 + (x - 16)) /\
       (32 <= x < 48 -> gob_offset x y = row + 256 + (x - 32)) /\
       (48 <= x -> gob_offset x y = row + 288 + (x - 48)).
Proof.
  intros Hx Hy. pose proof (gob_offset_exhaustive x y Hx Hy) as H.
  apply andb_prop in H as [H H3]. apply andb_prop in H as [H1 H2].
  apply N.eqb_eq in H1, H2, H3.
  split; [done|]. split; [done|]. split; [done|].
  exists (GOB_ROW_OFFSETS !!! N.to_nat y). split.
  { apply list_lookup_lookup_total_lt. simpl. lia. }
  rewrite H3. unfold gob_run_offset.
  repeat split; intros; split_compares; lia.
Qed.

Lemma gob_offset_layout_witness :
  gob_offset 50 3 =
    (50 mod 64) / 32 * 256 + (3 mod 8) / 2 * 64 + (50 mod 32) / 16 * 32
    + (3 mod 2) * 16 + 50 mod 16
  /\ gob_offset 50 3 =
       N.lor (N.shiftl (N.land 50 0x20) 3)
         (N.lor (N.shiftl (N.land 3 0x6) 5)
            (N.lor (N.shiftl (N.land 50 0x10) 1)
               (N.lor (N.shiftl (N.land 3 1) 4) (N.land 50 0xF))))
  /\ GOB_ROW_OFFSETS = [0; 16; 64; 80; 128; 144; 192; 208]
  /\ exists row,
       GOB_ROW_OFFSETS !! N.to_nat 3 = Some row /\
       (50 < 16 -> gob_offset 50 3 = row + 50) /\
       (16 <= 50 < 32 -> gob_offset 50 3 = row + 32 + (50 - 16)) /\
       (32 <= 50 < 48 -> gob_offset 50 3 = row + 256 + (50 - 32)) /\
       (48 <= 50 -> gob_offset 50 3 = row + 288 + (50 - 48)).
Proof. apply (gob_offset_layout 50 3); reflexivity. Defined.

(** ** Bounding [size_t] expressions *)

Lemma ub_add a b A B : a <= A -> b <= B -> a + b <= A + B.
Proof. lia. Qed.
Lemma ub_mul a b A B : a <= A -> b <= B -> a * b <= A * B.
Proof. intros. by apply N.mul_le_mono. Qed.
Lemma ub_div a b A : a <= A -> a / b <= A.
Proof.
  intros. etrans; [|done]. destruct b as [|b]; [by destruct a|].
  apply N.Div0.div_le_upper_bound. nia.
Qed.
Lemma ub_sub a b A : a <= A -> a - b <= A.
Proof. lia. Qed.
Lemma ub_max a b A B : a <= A -> b <= B -> N.max a b <= N.max A B.
Proof. lia. Qed.
Lemma ub_lt a A : a < A -> a <= A.
Proof. lia. Qed.
Lemma ub_lt_trans a b B : a < b -> b <= B -> a <= B.
Proof. lia. Qed.
Lemma ub_le_trans a b B : a <= b -> b <= B -> a <= B.
Proof. lia. Qed.

Ltac closed_pos p :=
  lazymatch p with
  | xH => idtac
  | xO ?q => closed_pos q
  | xI ?q => closed_pos q
  end.
Ltac closed_N n :=
  lazymatch n with
  | N0 => idtac
  | N.pos ?p => closed_pos p
  | ?a ^ ?b => closed_N a; closed_N b
  end.

(** Proves [e <= ?B] for a closed numeral [?B] read off the hypotheses;
    the alternatives are tried in turn when the bound found is too weak. *)
Ltac ub :=
  lazymatch goal with
  | |- ?a <= _ =>
      (closed_N a; apply N.le_refl)
      + (match goal with
         | H : a <= ?A |- _ => closed_N A; exact H
         | H : a < ?A |- _ => closed_N A; exact (ub_lt _ _ H)
         | H : _ <= a <= ?A |- _ => closed_N A; exact (proj2 H)
         | H : _ <= a < ?A |- _ => closed_N A; exact (ub_lt _ _ (proj2 H))
         end)
      + (lazymatch a with
         | ?x + ?y => eapply ub_add; [ub | ub]
         | ?x * ?y => eapply ub_mul; [ub | ub]
         | ?x / ?y => eapply ub_div; ub
         | ?x - ?y => eapply ub_sub; ub
         | N.max ?x ?y => eapply ub_max; [ub | ub]
         end)
      + (match goal with
         | H : a < ?b |- _ => eapply (ub_lt_trans _ _ _ H); ub
         | H : a <= ?b |- _ => eapply (ub_le_trans _ _ _ H); ub
         end)
  end.

Ltac nbound :=
  lazymatch goal with
  | |- _ < _ => (eapply N.le_lt_trans; [ub|]); vm_compute; reflexivity
  | |- _ <= _ =>
      (eapply N.le_trans; [ub|]);
      let H := fresh in vm_compute; intros H; discriminate H
  end.

(** Removes the wrap-around of the operations whose exact result is seen
    to fit [size_t]. *)
Ltac unwrap :=
  repeat match goal with
    | |- context [?a +% ?b] => rewrite (add_small a b) by nbound
    | |- context [?a *% ?b] => rewrite (mul_small a b) by nbound
    | |- context [?a -% ?b] => rewrite (sub_small a b) by (lia || nbound)
    end.

Lemma GOB_SIZE_IN_BYTES_eq : GOB_SIZE_IN_BYTES = 512.
Proof. reflexivity. Qed.

Lemma div_round_up_eq x d :
  1 <= d -> x + d < 2 ^ 64 -> div_round_up x d = cdiv x d.
Proof.
  intros Hd Hx. unfold div_round_up, cdiv.
  rewrite add_small by done. rewrite sub_small by lia. done.
Qed.

Lemma cdiv_mul_ge x d : 1 <= d -> x <= cdiv x d * d.
Proof.
  intros Hd. unfold cdiv.
  pose proof (N.div_mod (x + d - 1) d ltac:(lia)).
  pose proof (N.mod_upper_bound (x + d - 1) d ltac:(lia)). nia.
Qed.

Lemma cdiv_mul_lt x d : 1 <= d -> cdiv x d * d < x + d.
Proof.
  intros Hd. unfold cdiv.
  pose proof (N.Div0.mul_div_le (x + d - 1) d). nia.
Qed.

Lemma cdiv_le x d : 1 <= d -> cdiv x d <= x.
Proof.
  intros Hd. pose proof (cdiv_mul_lt x d Hd).
  destruct (decide (x = 0)) as [->|]; [unfold cdiv; simpl;
    rewrite N.div_small; lia|]. nia.
Qed.

Lemma cdiv_pos x d : 1 <= d -> 1 <= x -> 1 <= cdiv x d.
Proof. intros Hd Hx. pose proof (cdiv_mul_ge x d Hd). nia. Qed.

Lemma round_up_eq x n :
  1 <= n -> x + n < 2 ^ 64 -> round_up x n = cdiv x n * n.
Proof.
  intros Hn Hx. unfold round_up. fold (div_round_up x n).
  rewrite div_round_up_eq by done. apply mul_small.
  pose proof (cdiv_mul_lt x n Hn). lia.
Qed.

(** ** Sizes of one mip level *)

Lemma valid_block_height_bounds bh : valid_block_height bh -> 1 <= bh <= 32.
Proof.
  unfold valid_block_height, BlockHeight.One, BlockHeight.Two,
    BlockHeight.Four, BlockHeight.Eight, BlockHeight.Sixteen,
    BlockHeight.ThirtyTwo. lia.
Qed.

Lemma valid_block_depth_bounds bd : valid_block_depth bd -> 1 <= bd <= 16.
Proof. unfold valid_block_depth. lia. Qed.

Lemma block_depth_valid d : valid_block_depth (block_depth d).
Proof. unfold block_depth, valid_block_depth. repeat case_match; auto 10. Qed.

Lemma block_depth_eq d :
  d <= 16384 ->
  block_depth d =
    if 11 <=? d then 16 else if 6 <=? d then 8 else if 3 <=? d then 4
    else if 2 <=? d then 2 else 1.
Proof.
  intros Hd. unfold block_depth. unwrap.
  pose proof (N.div_mod d 2 ltac:(lia)).
  pose proof (N.mod_upper_bound d 2 ltac:(lia)).
  split_compares; reflexivity.
Qed.

Lemma cdiv_mono x y d : x <= y -> cdiv x d <= cdiv y d.
Proof. intros. unfold cdiv. apply N.Div0.div_le_mono. lia. Qed.

Lemma width_in_gobs_eq w bpp :
  w <= 16384 -> bpp <= 16 ->
  width_in_gobs w bpp = cdiv (w * bpp) 64 /\ cdiv (w * bpp) 64 <= 4096.
Proof.
  intros Hw Hb. unfold width_in_gobs, GOB_WIDTH_IN_BYTES. split.
  - unwrap. apply div_round_up_eq; [lia|nbound].
  - etrans; [apply (cdiv_mono _ (16384 * 16))|by vm_compute]. nia.
Qed.

Lemma height_in_gobs_le h bh :
  h <= 16384 -> 1 <= bh <= 32 -> cdiv h (bh * 8) * bh <= 2079.
Proof.
  intros Hh Hb. pose proof (cdiv_mul_lt h (bh * 8) ltac:(lia)). nia.
Qed.

Lemma depth_in_gobs_le d bd :
  d <= 16384 -> 1 <= bd <= 16 -> cdiv d bd * bd <= 16399.
Proof. intros Hd Hb. pose proof (cdiv_mul_lt d bd ltac:(lia)). lia. Qed.

Lemma height_in_blocks_eq h bh :
  h <= 16384 -> 1 <= bh <= 32 -> height_in_blocks h bh = cdiv h (bh * 8).
Proof.
  intros Hh Hb. unfold height_in_blocks, GOB_HEIGHT_IN_BYTES. unwrap.
  apply div_round_up_eq; [lia|nbound].
Qed.

Lemma swizzled_mip_size_exact_le w h d bh bpp :
  w <= 16384 -> h <= 16384 -> d <= 16384 -> bpp <= 16 -> 1 <= bh <= 32 ->
  swizzled_mip_size_exact w h d bh bpp <= 2 ^ 47.
Proof.
  intros Hw Hh Hd Hb Hbh. unfold swizzled_mip_size_exact.
  pose proof (proj2 (width_in_gobs_eq w bpp Hw Hb)).
  pose proof (height_in_gobs_le h bh Hh Hbh).
  pose proof (depth_in_gobs_le d _ Hd
                (valid_block_depth_bounds _ (block_depth_valid d))).
  nbound.
Qed.

Lemma swizzled_mip_size_eq w h d bh bpp :
  w <= 16384 -> h <= 16384 -> d <= 16384 -> bpp <= 16 -> 1 <= bh <= 32 ->
  swizzled_mip_size w h d bh bpp = swizzled_mip_size_exact w h d bh bpp.
Proof.
  intros Hw Hh Hd Hb Hbh.
  unfold swizzled_mip_size, swizzled_mip_size_exact.
  pose proof (valid_block_depth_bounds _ (block_depth_valid d)) as HB.
  rewrite (proj1 (width_in_gobs_eq w bpp Hw Hb)).
  rewrite height_in_blocks_eq by done.
  rewrite round_up_eq by (lia || nbound).
  rewrite GOB_SIZE_IN_BYTES_eq.
  pose proof (proj2 (width_in_gobs_eq w bpp Hw Hb)).
  pose proof (height_in_gobs_le h bh Hh Hbh).
  pose proof (depth_in_gobs_le d _ Hd HB).
  assert (cdiv h (bh * 8) <= 2079) by nia.
  unwrap. done.
Qed.

Lemma deswizzled_mip_size_eq w h d bpp :
  w <= 16384 -> h <= 16384 -> d <= 16384 -> bpp <= 16 ->
  deswizzled_mip_size w h d bpp = deswizzled_mip_size_exact w h d bpp.
Proof.
  intros. unfold deswizzled_mip_size, deswizzled_mip_size_exact.
  unwrap. done.
Qed.

Lemma mip_size_exact_le w h d bh bpp :
  1 <= bh ->
  deswizzled_mip_size_exact w h d bpp <= swizzled_mip_size_exact w h d bh bpp.
Proof.
  intros Hbh. unfold deswizzled_mip_size_exact, swizzled_mip_size_exact.
  pose proof (valid_block_depth_bounds _ (block_depth_valid d)) as HB.
  pose proof (cdiv_mul_ge (w * bpp) 64 ltac:(lia)) as Hx.
  pose proof (cdiv_mul_ge h (bh * 8) ltac:(lia)) as Hy.
  pose proof (cdiv_mul_ge d (block_depth d) ltac:(lia)) as Hz.
  set (X := cdiv (w * bpp) 64) in *. set (Y := cdiv h (bh * 8)) in *.
  set (Z := cdiv d (block_depth d) * block_depth d) in *.
  replace (w * h * d * bpp) with ((w * bpp) * h * d) by lia.
  replace (X * (Y * bh) * Z * 512) with ((X * 64) * (Y * (bh * 8)) * Z) by lia.
  apply N.mul_le_mono; [apply N.mul_le_mono|]; assumption.
Qed.

(** ** Sizes of a surface *)

Lemma mip_dimension_bounds dim mip block :
  dim <= 16384 -> 1 <= block <= 16384 ->
  mip_dimension dim mip block = N.max (cdiv (N.shiftr dim mip) block) 1 /\
  1 <= mip_dimension dim mip block <= N.max dim 1.
Proof.
  intros Hd Hb. unfold mip_dimension.
  assert (N.shiftr dim mip <= dim) as Hs.
  { rewrite N.shiftr_div_pow2. apply N.Div0.div_le_upper_bound.
    assert (0 < 2 ^ mip) by (apply N.neq_0_lt_0, N.pow_nonzero; lia). nia. }
  rewrite div_round_up_eq by (lia || nbound).
  split; [done|]. pose proof (cdiv_le (N.shiftr dim mip) block ltac:(lia)).
  lia.
Qed.

Lemma mip_dimension_le dim mip block :
  1 <= dim <= 16384 -> 1 <= block <= 16384 ->
  1 <= mip_dimension dim mip block <= 16384.
Proof.
  intros Hd Hb.
  pose proof (proj2 (mip_dimension_bounds dim mip block ltac:(lia) Hb)). lia.
Qed.

Lemma mip_block_height_valid mh bh :
  valid_block_height bh -> valid_block_height (mip_block_height mh bh).
Proof.
  intros Hv. rewrite mip_block_height_cases by done.
  unfold valid_block_height, BlockHeight.One, BlockHeight.Two,
    BlockHeight.Four, BlockHeight.Eight, BlockHeight.Sixteen,
    BlockHeight.ThirtyTwo in *.
  repeat case_match; auto 10.
Qed.

Lemma resolved_block_height_mip0_valid w h d bd bh bpp m l :
  valid_descriptor w h d bd bh bpp m l ->
  valid_block_height (resolved_block_height_mip0 h d bd bh).
Proof.
  intros Hv. unfold resolved_block_height_mip0.
  destruct (d =? 1); [|by left].
  destruct bh as [b|]; simpl; [by apply Hv|apply block_height_mip0_valid].
Qed.

Lemma sumN_le {A} (f g : A -> N) l :
  (forall i, i ∈ l -> f i <= g i) -> sumN f l <= sumN g l.
Proof.
  induction l as [|a l IH]; intros H; simpl; [done|].
  pose proof (H a ltac:(left)). pose proof (IH ltac:(intros; apply H; by right)).
  lia.
Qed.

Lemma sumN_bound {A} (f : A -> N) l T :
  (forall i, i ∈ l -> f i <= T) -> sumN f l <= N.of_nat (length l) * T.
Proof.
  induction l as [|a l IH]; intros H; simpl length; simpl sumN; [lia|].
  pose proof (H a ltac:(left)). pose proof (IH ltac:(intros; apply H; by right)).
  lia.
Qed.

Lemma sumN_app {A} (f : A -> N) l1 l2 :
  sumN f (l1 ++ l2) = sumN f l1 + sumN f l2.
Proof. induction l1 as [|a l1 IH]; simpl; [done|]. rewrite IH. lia. Qed.

Lemma fold_left_add_small {A} (f : A -> N) l a :
  a + sumN f l < 2 ^ 64 ->
  fold_left (fun acc i => acc +% f i) l a = a + sumN f l.
Proof.
  revert a. induction l as [|i l IH]; intros a Ha; simpl in *; [lia|].
  rewrite add_small by lia. rewrite IH; lia.
Qed.

Lemma length_N_range n : length (N_range n) = N.to_nat n.
Proof. unfold N_range. by rewrite length_fmap, length_seq. Qed.

Lemma align_layer_size_eq size h d bh :
  valid_block_height bh -> size <= 2 ^ 62 ->
  align_layer_size size h d bh 1
  = cdiv size (layer_alignment h bh) * layer_alignment h bh.
Proof.
  intros Hv Hs. unfold align_layer_size, layer_alignment.
  change (gob_blocks_in_tile_x <? 2) with true. cbv iota.
  change (N.to_nat (N.size 1)) with 1%nat. rewrite halve_while_S.
  rewrite andb_false_r. fold (mip_block_height h bh).
  pose proof (valid_block_height_bounds _ (mip_block_height_valid h bh Hv)).
  rewrite GOB_SIZE_IN_BYTES_eq.
  set (g := mip_block_height h bh) in *. unwrap.
  rewrite N.mul_1_r. set (B := g * 512).
  assert (1 <= B <= 16384) by (unfold B; lia).
  assert (size / B * B <= size) by (rewrite N.mul_comm; apply N.Div0.mul_div_le).
  unwrap. unfold cdiv.
  pose proof (N.div_mod size B ltac:(lia)) as Hdm.
  pose proof (N.mod_upper_bound size B ltac:(lia)) as Hmu.
  set (q := size / B) in *. set (r := size mod B) in *.
  destruct (N.eqb_spec size (q * B)) as [He|He]; simpl.
  - replace ((size + B - 1) / B) with q; [done|].
    apply (N.div_unique _ _ _ (B - 1)); lia.
  - assert (q + 1 <= 2 ^ 62 + 1) by lia.
    assert ((q + 1) * B <= 2 ^ 63) by lia. unwrap. f_equal.
    apply (N.div_unique _ _ _ (r - 1)); lia.
Qed.

Lemma cdiv_mul_exact q B : 1 <= B -> cdiv (q * B) B = q.
Proof.
  intros. unfold cdiv. symmetry.
  apply (N.div_unique _ _ _ (B - 1)); lia.
Qed.

Section surface_sizes.
Context (width height depth : N) (block_dim : BlockDim)
  (block_height_mip0 : option BlockHeight)
  (bytes_per_pixel mipmap_count layer_count : N).
Context
  (Hvalid : valid_descriptor width height depth block_dim block_height_mip0
              bytes_per_pixel mipmap_count layer_count)
  (Hrep : representable width height depth block_dim
            mipmap_count layer_count).

Let bh0 := resolved_block_height_mip0 height depth block_dim block_height_mip0.
Let swz := mip_swizzled_size width height depth block_dim bh0 bytes_per_pixel.
Let lin := mip_deswizzled_size width height depth block_dim bytes_per_pixel.

Lemma mip_swizzled_size_eq mip :
  swz mip =
    swizzled_mip_size_exact
      (mip_dimension width mip (bd_width block_dim))
      (mip_dimension height mip (bd_height block_dim))
      (mip_dimension depth mip (bd_depth block_dim))
      (mip_block_height (mip_dimension height mip (bd_height block_dim)) bh0)
      bytes_per_pixel
  /\ swz mip <= 2 ^ 47.
Proof.
  destruct Hvalid, Hrep.
  pose proof (mip_dimension_le width mip (bd_width block_dim)
                ltac:(lia) ltac:(lia)).
  pose proof (mip_dimension_le height mip (bd_height block_dim)
                ltac:(lia) ltac:(lia)).
  pose proof (mip_dimension_le depth mip (bd_depth block_dim)
                ltac:(lia) ltac:(lia)).
  pose proof (valid_block_height_bounds _
                (mip_block_height_valid
                   (mip_dimension height mip (bd_height block_dim)) bh0
                   (resolved_block_height_mip0_valid _ _ _ _ _ _ _ _ Hvalid))).
  unfold swz, mip_swizzled_size.
  rewrite swizzled_mip_size_eq by lia. split; [done|].
  apply swizzled_mip_size_exact_le; lia.
Qed.

Lemma mip_deswizzled_size_eq mip :
  lin mip =
    deswizzled_mip_size_exact
      (mip_dimension width mip (bd_width block_dim))
      (mip_dimension height mip (bd_height block_dim))
      (mip_dimension depth mip (bd_depth block_dim))
      bytes_per_pixel.
Proof.
  destruct Hvalid, Hrep.
  pose proof (mip_dimension_le width mip (bd_width block_dim)
                ltac:(lia) ltac:(lia)).
  pose proof (mip_dimension_le height mip (bd_height block_dim)
                ltac:(lia) ltac:(lia)).
  pose proof (mip_dimension_le depth mip (bd_depth block_dim)
                ltac:(lia) ltac:(lia)).
  unfold lin, mip_deswizzled_size.
  rewrite deswizzled_mip_size_eq by lia. done.
Qed.

Lemma mip_sizes_le mip : lin mip <= swz mip.
Proof.
  rewrite mip_deswizzled_size_eq, (proj1 (mip_swizzled_size_eq mip)).
  apply mip_size_exact_le.
  apply valid_block_height_bounds, mip_block_height_valid.
  by eapply resolved_block_height_mip0_valid.
Qed.

Let mip_sum := sumN swz (N_range mipmap_count).
Let align := layer_alignment height bh0.

Lemma mip_sum_le : mip_sum <= 2 ^ 53.
Proof.
  etrans; [apply (sumN_bound _ _ (2 ^ 47))|].
  - intros i _. apply mip_swizzled_size_eq.
  - rewrite length_N_range, N2Nat.id. destruct Hrep.
    change (2 ^ 53) with (64 * 2 ^ 47). by apply N.mul_le_mono_r.
Qed.

Lemma lin_sum_le : sumN lin (N_range mipmap_count) <= mip_sum.
Proof. apply sumN_le. intros i _. apply mip_sizes_le. Qed.

Lemma align_bounds : 1 <= align <= 16384.
Proof.
  unfold align, layer_alignment.
  pose proof (valid_block_height_bounds _
                (mip_block_height_valid height bh0
                   (resolved_block_height_mip0_valid _ _ _ _ _ _ _ _ Hvalid))).
  lia.
Qed.

Lemma aligned_layer_le : cdiv mip_sum align * align <= 2 ^ 54.
Proof.
  pose proof mip_sum_le. pose proof align_bounds.
  pose proof (cdiv_mul_lt mip_sum align ltac:(lia)).
  change (2 ^ 54) with (2 ^ 53 + 2 ^ 53).
  assert (16384 <= 2 ^ 53) by (by vm_compute). lia.
Qed.

Lemma swizzled_surface_size_eq :
  swizzled_surface_size width height depth block_dim block_height_mip0
    bytes_per_pixel mipmap_count layer_count
  = if 1 <? layer_count then cdiv mip_sum align * align * layer_count
    else mip_sum.
Proof.
  unfold swizzled_surface_size.
  fold (resolved_block_height_mip0 height depth block_dim block_height_mip0).
  fold bh0.
  change (fold_left _ (N_range mipmap_count) 0)
    with (fold_left (fun acc i => acc +% swz i) (N_range mipmap_count) 0).
  pose proof mip_sum_le as Hs. change (2 ^ 53) with 9007199254740992 in Hs.
  rewrite fold_left_add_small by (fold mip_sum; lia).
  rewrite N.add_0_l. fold mip_sum.
  destruct (1 <? layer_count); [|done].
  rewrite align_layer_size_eq;
    [|by eapply resolved_block_height_mip0_valid
     |change (2 ^ 62) with 4611686018427387904; lia].
  fold align. pose proof aligned_layer_le as Ha.
  change (2 ^ 54) with 18014398509481984 in Ha. destruct Hrep.
  unwrap. done.
Qed.

Lemma deswizzled_surface_size_eq :
  deswizzled_surface_size width height depth block_dim bytes_per_pixel
    mipmap_count layer_count
  = sumN lin (N_range mipmap_count) * layer_count.
Proof.
  unfold deswizzled_surface_size.
  change (fold_left _ (N_range mipmap_count) 0)
    with (fold_left (fun acc i => acc +% lin i) (N_range mipmap_count) 0).
  pose proof mip_sum_le as Hs. change (2 ^ 53) with 9007199254740992 in Hs.
  pose proof lin_sum_le as Hl.
  rewrite fold_left_add_small by lia. rewrite N.add_0_l.
  destruct Hrep. unwrap. done.
Qed.

Lemma surface_sizes_le :
  deswizzled_surface_size width height depth block_dim bytes_per_pixel
    mipmap_count layer_count
  <= swizzled_surface_size width height depth block_dim block_height_mip0
       bytes_per_pixel mipmap_count layer_count.
Proof.
  rewrite swizzled_surface_size_eq, deswizzled_surface_size_eq.
  pose proof lin_sum_le. pose proof align_bounds.
  pose proof (cdiv_mul_ge mip_sum align ltac:(lia)).
  destruct (N.ltb_spec 1 layer_count).
  - apply N.mul_le_mono_r. lia.
  - destruct Hvalid. assert (layer_count = 1) as -> by lia. lia.
Qed.
End surface_sizes.

(** C5: the swizzled size of a surface is at least its deswizzled size. *)
Theorem swizzled_surface_size_ge
  (width height depth : N) (block_dim : BlockDim)
  (block_height_mip0 : option BlockHeight)
  (bytes_per_pixel mipmap_count layer_count : N) :
  valid_descriptor width height depth block_dim block_height_mip0
    bytes_per_pixel mipmap_count layer_count ->
  representable width height depth block_dim mipmap_count layer_count ->
  swizzled_surface_size width height depth block_dim block_height_mip0
    bytes_per_pixel mipmap_count layer_count
  >= deswizzled_surface_size width height depth block_dim bytes_per_pixel
       mipmap_count layer_count.
Proof. intros Hv Hr. apply N.le_ge. by apply surface_sizes_le. Qed.

(** ** Loops as sequences of byte moves *)

Lemma for_each_app {I S} (l1 l2 : list I) (body : S -> I -> outcome S) st :
  for_each (l1 ++ l2) body st = st' ← for_each l1 body st; for_each l2 body st'.
Proof.
  revert st. induction l1 as [|i l1 IH]; intros st; simpl; [done|].
  destruct (body st i); simpl; auto.
Qed.

Lemma for_each_ext {I S} (l : list I) (f g : S -> I -> outcome S) st :
  (forall i st, i ∈ l -> f st i = g st i) ->
  for_each l f st = for_each l g st.
Proof.
  revert st. induction l as [|i l IH]; intros st H; simpl; [done|].
  rewrite H by left. destruct (g st i); simpl; auto.
  apply IH. intros. apply H. by right.
Qed.

Lemma outcome_bind_ext {A B} (m m' : outcome A) (f g : A -> outcome B) :
  m = m' -> (forall a, f a = g a) -> m ≫= f = m' ≫= g.
Proof. intros -> H. destruct m'; simpl; auto. Qed.

Lemma apply_moves_nil src dst : apply_moves src [] dst = Ok dst.
Proof. done. Qed.

Lemma apply_moves_cons src m ms dst :
  apply_moves src (m :: ms) dst
  = dst' ← copy_byte dst m.1 src m.2; apply_moves src ms dst'.
Proof. done. Qed.

Lemma apply_moves_app src ms1 ms2 dst :
  apply_moves src (ms1 ++ ms2) dst
  = dst' ← apply_moves src ms1 dst; apply_moves src ms2 dst'.
Proof. apply for_each_app. Qed.

(** A loop whose body is a sequence of moves is the sequence of all of
    them. *)
Lemma for_each_moves {I} (l : list I) (g : I -> list move) src
  (body : buffer -> I -> outcome buffer) dst :
  (forall i dst, i ∈ l -> body dst i = apply_moves src (g i) dst) ->
  for_each l body dst = apply_moves src (i ← l; g i) dst.
Proof.
  revert dst. induction l as [|i l IH]; intros dst H; simpl; [done|].
  rewrite apply_moves_app, H by left.
  destruct (apply_moves src (g i) dst); simpl; auto.
  apply IH. intros. apply H. by right.
Qed.

Lemma std_copy_moves_ok src first last dst d_first :
  std_copy src first last dst d_first
  = apply_moves src (std_copy_moves first last d_first) dst.
Proof.
  unfold std_copy, std_copy_moves.
  rewrite (for_each_moves _ (fun k => [(d_first + k, first + k)]) src).
  - f_equal.
  - intros i dst' _. rewrite apply_moves_cons. simpl.
    by destruct (copy_byte _ _ _ _).
Qed.

Lemma deswizzle_gob_row_moves_ok dst dst_ptr dst_offset src src_ptr src_offset :
  deswizzle_gob_row dst dst_ptr dst_offset src src_ptr src_offset
  = apply_moves src
      (deswizzle_gob_row_moves dst_ptr dst_offset src_ptr src_offset) dst.
Proof.
  unfold deswizzle_gob_row, deswizzle_gob_row_moves.
  repeat (rewrite apply_moves_app;
          apply outcome_bind_ext; [apply std_copy_moves_ok|intros ?]).
  apply std_copy_moves_ok.
Qed.

Lemma swizzle_gob_row_moves_ok dst dst_ptr dst_offset src src_ptr src_offset :
  swizzle_gob_row dst dst_ptr dst_offset src src_ptr src_offset
  = apply_moves src
      (swizzle_gob_row_moves dst_ptr dst_offset src_ptr src_offset) dst.
Proof.
  unfold swizzle_gob_row, swizzle_gob_row_moves.
  repeat (rewrite apply_moves_app;
          apply outcome_bind_ext; [apply std_copy_moves_ok|intros ?]).
  apply std_copy_moves_ok.
Qed.

Lemma complete_gob_moves_ok (DESWIZZLE : bool) dst dst_ptr src src_ptr row_size :
  (if DESWIZZLE
   then deswizzle_complete_gob dst dst_ptr src src_ptr row_size
   else swizzle_complete_gob dst dst_ptr src src_ptr row_size)
  = apply_moves src (complete_gob_moves DESWIZZLE dst_ptr src_ptr row_size) dst.
Proof.
  unfold complete_gob_moves, deswizzle_complete_gob, swizzle_complete_gob.
  destruct DESWIZZLE; apply for_each_moves; intros i dst' _.
  - apply deswizzle_gob_row_moves_ok.
  - apply swizzle_gob_row_moves_ok.
Qed.

Lemma gob_moves_ok DESWIZZLE dst src x0 y0 z0 w h bpp gob_address :
  swizzle_deswizzle_gob DESWIZZLE dst src x0 y0 z0 w h bpp gob_address
  = apply_moves src (gob_moves DESWIZZLE x0 y0 z0 w h bpp gob_address) dst.
Proof.
  unfold swizzle_deswizzle_gob, gob_moves.
  apply for_each_moves. intros y dst1 _.
  apply for_each_moves. intros x dst2 _.
  destruct (_ && _); [|done].
  unfold gob_byte_move. rewrite apply_moves_cons.
  destruct DESWIZZLE; simpl; by destruct (copy_byte _ _ _ _).
Qed.

(** ** Reordering moves *)

Lemma size_insert (v : buffer) i b : size (<[i := b]> v) = size v.
Proof. unfold size. by rewrite length_insert. Qed.

Lemma copy_byte_comm src dst d1 s1 d2 s2 :
  d1 <> d2 ->
  (dst' ← copy_byte dst d1 src s1; copy_byte dst' d2 src s2)
  = (dst' ← copy_byte dst d2 src s2; copy_byte dst' d1 src s1).
Proof.
  intros Hd. unfold copy_byte, load, store.
  destruct (src !! N.to_nat s1) as [b1|], (src !! N.to_nat s2) as [b2|];
    simpl; try done.
  - destruct (d1 <? size dst) eqn:H1, (d2 <? size dst) eqn:H2; simpl;
      rewrite ?size_insert, ?H1, ?H2; try done.
    f_equal. apply list_insert_insert_ne. lia.
  - by destruct (d1 <? size dst).
  - by destruct (d2 <? size dst).
Qed.

Lemma apply_moves_two src m1 m2 dst :
  apply_moves src [m1; m2] dst
  = dst' ← copy_byte dst m1.1 src m1.2; copy_byte dst' m2.1 src m2.2.
Proof.
  rewrite apply_moves_cons. apply outcome_bind_ext; [done|]. intros dst'.
  rewrite apply_moves_cons. by destruct (copy_byte _ _ _ _).
Qed.

(** Moves to pairwise distinct destinations can be made in any order. *)
Lemma apply_moves_perm src ms1 ms2 :
  ms1 ≡ₚ ms2 -> NoDup ms1.*1 ->
  forall dst, apply_moves src ms1 dst = apply_moves src ms2 dst.
Proof.
  induction 1 as [|m l l' Hp IH|m1 m2 l|l1 l2 l3 H1 IH1 H2 IH2];
    intros Hnd dst.
  - done.
  - rewrite !apply_moves_cons. apply outcome_bind_ext; [done|].
    intros dst'. apply IH. by inversion Hnd.
  - change (m1 :: m2 :: l) with ([m1; m2] ++ l).
    change (m2 :: m1 :: l) with ([m2; m1] ++ l).
    rewrite !apply_moves_app, !apply_moves_two. f_equal.
    apply copy_byte_comm. simpl in Hnd.
    inversion Hnd as [|? ? Hin _]. subst.
    intros Heq. apply Hin. rewrite Heq. left.
  - rewrite IH1 by done. apply IH2. by rewrite <-H1.
Qed.

(** ** The positions of a GOB *)

Lemma list_bind_singleton {A B} (f : A -> B) (l : list A) :
  (x ← l; [f x]) = f <$> l.
Proof. induction l as [|a l IH]; simpl; [done|]. by f_equal. Qed.

Lemma list_bind_perm {A B} (f g : A -> list B) (l : list A) :
  (forall a, f a ≡ₚ g a) -> l ≫= f ≡ₚ l ≫= g.
Proof.
  intros H. induction l as [|a l IH]; simpl; [done|].
  by apply Permutation_app.
Qed.

Lemma gob_positions_fast_perm : gob_positions_fast ≡ₚ gob_positions.
Proof.
  unfold gob_positions_fast, gob_positions.
  apply list_bind_perm. intros y.
  rewrite (list_bind_singleton (fun x => (x, y))).
  transitivity
    ((fun x => (x, y)) <$>
       (((fun k => 48 + k) <$> N_range 16) ++ ((fun k => 32 + k) <$> N_range 16)
        ++ ((fun k => 16 + k) <$> N_range 16)
        ++ ((fun k => 0 + k) <$> N_range 16))).
  { vm_compute. reflexivity. }
  apply fmap_Permutation.
  replace (N_range 64) with
    (((fun k => 0 + k) <$> N_range 16) ++ ((fun k => 16 + k) <$> N_range 16)
     ++ ((fun k => 32 + k) <$> N_range 16)
     ++ ((fun k => 48 + k) <$> N_range 16)) by (by vm_compute).
  set (l0 := (fun k => 0 + k) <$> N_range 16).
  set (l1 := (fun k => 16 + k) <$> N_range 16).
  set (l2 := (fun k => 32 + k) <$> N_range 16).
  set (l3 := (fun k => 48 + k) <$> N_range 16).
  rewrite (Permutation_app_comm l3 (l2 ++ l1 ++ l0)).
  rewrite (app_assoc l1 l2 l3), (app_assoc l0 (l1 ++ l2) l3).
  apply Permutation_app_tail.
  rewrite (Permutation_app_comm l2 (l1 ++ l0)), (app_assoc l0 l1 l2).
  apply Permutation_app_tail, Permutation_app_comm.
Qed.

Lemma elem_of_gob_positions x y : (x, y) ∈ gob_positions <-> x < 64 /\ y < 8.
Proof.
  unfold gob_positions. rewrite list_elem_of_bind. split.
  - intros (y' & Hx & Hy). apply list_elem_of_bind in Hx as (x' & Hx & Hx').
    apply list_elem_of_singleton in Hx. injection Hx as -> ->.
    apply elem_of_N_range in Hy, Hx'. done.
  - intros [Hx Hy]. exists y. split; [|by apply elem_of_N_range].
    apply list_elem_of_bind. exists x. split; [by left|].
    by apply elem_of_N_range.
Qed.

Lemma gob_offset_inv_ok x y :
  x < 64 -> y < 8 -> gob_offset_inv (gob_offset x y) = (x, y).
Proof.
  intros Hx Hy.
  assert ((let p := gob_offset_inv (gob_offset x y) in
           (p.1 =? x) && (p.2 =? y)) = true) as H.
  { revert x y Hx Hy.
    apply (gob_positions_ind (fun x y =>
      let p := gob_offset_inv (gob_offset x y) in (p.1 =? x) && (p.2 =? y))).
    by vm_compute. }
  cbv zeta in H. apply andb_prop in H as [H1 H2].
  apply N.eqb_eq in H1, H2.
  destruct (gob_offset_inv (gob_offset x y)) as [a b]; simpl in *.
  congruence.
Qed.

Lemma gob_offset_inj x y x' y' :
  x < 64 -> y < 8 -> x' < 64 -> y' < 8 ->
  gob_offset x y = gob_offset x' y' -> x = x' /\ y = y'.
Proof.
  intros Hx Hy Hx' Hy' H.
  pose proof (gob_offset_inv_ok x y Hx Hy) as H1.
  rewrite H, gob_offset_inv_ok in H1 by done. by injection H1.
Qed.

Lemma NoDup_gob_positions : NoDup gob_positions.
Proof.
  replace gob_positions with ((fun n => (n mod 64, n / 64)) <$> N_range 512)
    by (by vm_compute).
  apply NoDup_fmap_2_strong; [|apply NoDup_N_range].
  intros a b _ _ H. injection H as H1 H2. lia.
Qed.

Lemma elem_of_gob_positions_fast p :
  p ∈ gob_positions_fast -> p.1 < 64 /\ p.2 < 8.
Proof.
  rewrite gob_positions_fast_perm. destruct p as [x y].
  apply elem_of_gob_positions.
Qed.

Ltac in_list := repeat first [left | right].

Lemma list_bind_nil {A B} (f : A -> list B) : [] ≫= f = [].
Proof. done. Qed.

Lemma list_bind_ext_in {A B} (f g : A -> list B) (l : list A) :
  (forall a, a ∈ l -> f a = g a) -> l ≫= f = l ≫= g.
Proof.
  intros H. induction l as [|a l IH]; simpl; [done|].
  rewrite H by left. f_equal. apply IH. intros. apply H. by right.
Qed.

Lemma list_fmap_bind_comm {A B C} (f : B -> C) (g : A -> list B) (l : list A) :
  f <$> (l ≫= g) = l ≫= (fun a => f <$> g a).
Proof.
  induction l as [|a l IH]; [done|]. by rewrite !bind_cons, fmap_app, IH.
Qed.

(** ** One GOB: the per-byte loop and the fast copy *)

Section one_gob.
Context (x0 y0 z0 w h bpp G : N).
Context (Hw : w <= 16384) (Hh : h <= 16384) (Hz : z0 <= 16384)
  (Hb : bpp <= 16) (Hx0 : x0 < w * bpp) (Hy0 : y0 < h)
  (HG : G <= 2 ^ 63).

Lemma gob_byte_move_eq (DESWIZZLE : bool) x y :
  x < 64 -> y < 8 ->
  gob_byte_move DESWIZZLE x0 y0 z0 w h bpp G x y
  = exact_gob_move DESWIZZLE x0 y0 z0 w h bpp G (x, y).
Proof.
  intros Hx Hy. pose proof (gob_offset_lt x y Hx Hy).
  unfold gob_byte_move, exact_gob_move. simpl.
  set (o := gob_offset x y) in *. unwrap. done.
Qed.

Lemma gob_test_eq x y :
  x < 64 -> y < 8 ->
  (y0 +% y <? h) && (x0 +% x <? w *% bpp)
  = (y0 + y <? h) && (x0 + x <? w * bpp).
Proof. intros Hx Hy. unwrap. done. Qed.

(** Inside an interior GOB the per-byte loop moves every position. *)
Lemma gob_moves_interior (DESWIZZLE : bool) :
  x0 + 64 < w * bpp -> y0 + 8 < h ->
  gob_moves DESWIZZLE x0 y0 z0 w h bpp G
  = exact_gob_move DESWIZZLE x0 y0 z0 w h bpp G <$> gob_positions.
Proof.
  intros Hx Hy. unfold gob_moves, gob_positions.
  rewrite list_fmap_bind_comm. apply list_bind_ext_in.
  intros y Hy'%elem_of_N_range.
  rewrite list_fmap_bind_comm. apply list_bind_ext_in.
  intros x Hx'%elem_of_N_range.
  change GOB_HEIGHT_IN_BYTES with 8 in Hy'.
  change GOB_WIDTH_IN_BYTES with 64 in Hx'.
  rewrite gob_test_eq, gob_byte_move_eq by done.
  destruct (N.ltb_spec (y0 + y) h); [|lia].
  destruct (N.ltb_spec (x0 + x) (w * bpp)); [|lia]. done.
Qed.

Let L := z0 * w * h * bpp + y0 * w * bpp + x0.

Lemma run_facts c o k :
  (c, o) ∈ [(48, 288); (32, 256); (16, 32); (0, 0)] -> k < 16 ->
  c + k < 64 /\ gob_run_offset (c + k) = o /\ (c + k) mod 16 = k.
Proof.
  intros Hc Hk. unfold gob_run_offset.
  repeat (apply elem_of_cons in Hc as [Hc|Hc];
          [injection Hc as -> ->; split_compares; lia|]).
  by apply elem_of_nil in Hc.
Qed.

Lemma std_copy_moves_run (DESWIZZLE : bool) first last d_first c o i :
  i < 8 -> (c, o) ∈ [(48, 288); (32, 256); (16, 32); (0, 0)] ->
  last = first + 16 ->
  (if DESWIZZLE
   then first = G + GOB_ROW_OFFSETS !!! N.to_nat i + o /\
        d_first = L + w * bpp * i + c
   else first = L + w * bpp * i + c /\
        d_first = G + GOB_ROW_OFFSETS !!! N.to_nat i + o) ->
  std_copy_moves first last d_first
  = k ← N_range 16;
    [exact_gob_move DESWIZZLE x0 y0 z0 w h bpp G (c + k, i)].
Proof.
  intros Hi Hc -> Hfd. unfold std_copy_moves.
  replace (first + 16 - first) with 16 by lia.
  rewrite list_bind_singleton. apply list_fmap_ext.
  intros _ k Hk%list_elem_of_lookup_2%elem_of_N_range.
  destruct (run_facts c o k Hc Hk) as (Hlt & Hrun & Hmod).
  unfold exact_gob_move. simpl.
  rewrite gob_offset_eq, Hrun, Hmod by done.
  unfold L in Hfd. destruct DESWIZZLE, Hfd as [-> ->]; f_equal; lia.
Qed.

Lemma complete_gob_moves_eq (DESWIZZLE : bool) :
  complete_gob_moves DESWIZZLE
    (if DESWIZZLE then L else G) (if DESWIZZLE then G else L) (w * bpp)
  = exact_gob_move DESWIZZLE x0 y0 z0 w h bpp G <$> gob_positions_fast.
Proof.
  unfold complete_gob_moves, gob_positions_fast.
  change (N.of_nat (length GOB_ROW_OFFSETS)) with 8.
  rewrite list_fmap_bind_comm. apply list_bind_ext_in.
  intros i Hi%elem_of_N_range.
  rewrite list_fmap_bind_comm.
  rewrite !bind_cons, list_bind_nil, app_nil_r.
  rewrite !list_fmap_bind_comm. simpl fmap.
  assert (w * bpp *% i = w * bpp * i) as -> by (unwrap; done).
  destruct DESWIZZLE; unfold deswizzle_gob_row_moves, swizzle_gob_row_moves.
  - repeat f_equal.
    + apply (std_copy_moves_run _ _ _ _ 48 288 i); [done|in_list|lia|lia].
    + apply (std_copy_moves_run _ _ _ _ 32 256 i); [done|in_list|lia|lia].
    + apply (std_copy_moves_run _ _ _ _ 16 32 i); [done|in_list|lia|lia].
    + apply (std_copy_moves_run _ _ _ _ 0 0 i); [done|in_list|lia|lia].
  - repeat f_equal.
    + apply (std_copy_moves_run _ _ _ _ 48 288 i); [done|in_list|lia|lia].
    + apply (std_copy_moves_run _ _ _ _ 32 256 i); [done|in_list|lia|lia].
    + apply (std_copy_moves_run _ _ _ _ 16 32 i); [done|in_list|lia|lia].
    + apply (std_copy_moves_run _ _ _ _ 0 0 i); [done|in_list|lia|lia].
Qed.

Lemma NoDup_exact_gob_moves (DESWIZZLE : bool) l :
  l ≡ₚ gob_positions -> 64 < w * bpp ->
  NoDup (exact_gob_move DESWIZZLE x0 y0 z0 w h bpp G <$> l).*1.
Proof.
  intros Hl Hrs. rewrite <-list_fmap_compose.
  apply NoDup_fmap_2_strong; [|rewrite Hl; apply NoDup_gob_positions].
  intros [x y] [x' y']. rewrite !Hl, !elem_of_gob_positions.
  intros [Hx Hy] [Hx' Hy']. unfold exact_gob_move.
  destruct DESWIZZLE; simpl; intros Heq.
  - assert (y = y') as -> by nia. f_equal. lia.
  - destruct (gob_offset_inj x y x' y') as [-> ->]; [done..|lia|done].
Qed.

(** On an interior GOB the fast copy and the per-byte loop are the same
    function of the destination. *)
Lemma interior_gob_equiv (DESWIZZLE : bool) src dst :
  x0 + 64 < w * bpp -> y0 + 8 < h ->
  apply_moves src
    (complete_gob_moves DESWIZZLE
       (if DESWIZZLE then L else G) (if DESWIZZLE then G else L) (w * bpp))
    dst
  = apply_moves src (gob_moves DESWIZZLE x0 y0 z0 w h bpp G) dst.
Proof.
  intros Hx Hy. rewrite complete_gob_moves_eq, gob_moves_interior by done.
  apply apply_moves_perm.
  - apply fmap_Permutation, gob_positions_fast_perm.
  - apply NoDup_exact_gob_moves; [apply gob_positions_fast_perm|lia].
Qed.
End one_gob.

(** ** GOB addresses in exact arithmetic *)

Lemma land_mask z bd : valid_block_depth bd -> N.land z (bd - 1) = z mod bd.
Proof.
  intros [-> | [-> | [-> | [-> | ->]]]].
  - change (1 - 1) with (N.ones 0). by rewrite N.land_ones.
  - change (2 - 1) with (N.ones 1). by rewrite N.land_ones.
  - change (4 - 1) with (N.ones 2). by rewrite N.land_ones.
  - change (8 - 1) with (N.ones 3). by rewrite N.land_ones.
  - change (16 - 1) with (N.ones 4). by rewrite N.land_ones.
Qed.

Section gob_address.
Context (w h d bh bd bpp : N).
Context (Hw : w <= 16384) (Hh : h <= 16384) (Hd : d <= 16384)
  (Hb : bpp <= 16) (Hbh : valid_block_height bh)
  (Hbd : valid_block_depth bd).

Lemma slice_size_eq :
  slice_size bh bd (width_in_gobs w bpp) h
  = cdiv h (bh * 8) * (512 * bh * bd * cdiv (w * bpp) 64)
  /\ cdiv h (bh * 8) * (512 * bh * bd * cdiv (w * bpp) 64) <= 2 ^ 45.
Proof.
  pose proof (valid_block_height_bounds bh Hbh).
  pose proof (valid_block_depth_bounds bd Hbd).
  destruct (width_in_gobs_eq w bpp Hw Hb) as [-> Hwg].
  assert (cdiv h (bh * 8) <= 2048) as Hhb.
  { pose proof (cdiv_mul_lt h (bh * 8) ltac:(lia)). nia. }
  unfold slice_size. fold (height_in_blocks h bh).
  rewrite height_in_blocks_eq, GOB_SIZE_IN_BYTES_eq by done.
  set (wg := cdiv (w * bpp) 64) in *. set (hb := cdiv h (bh * 8)) in *.
  split; [unwrap; done|nbound].
Qed.

Lemma gob_address_eq x y z :
  x < w * bpp -> y < h -> z < d ->
  gob_address_z z bh bd (slice_size bh bd (width_in_gobs w bpp) h)
  +% gob_address_y y (GOB_HEIGHT_IN_BYTES *% bh)
       (GOB_SIZE_IN_BYTES *% 1 *% bh *% bd) (width_in_gobs w bpp)
  +% gob_address_x x (GOB_SIZE_IN_BYTES *% 1 *% bh *% bd)
  = gob_address_exact w h bh bd bpp x y z
  /\ gob_address_exact w h bh bd bpp x y z <= 2 ^ 60.
Proof.
  intros Hx Hy Hz.
  pose proof (valid_block_height_bounds bh Hbh).
  pose proof (valid_block_depth_bounds bd Hbd).
  destruct slice_size_eq as [-> Hss].
  destruct (width_in_gobs_eq w bpp Hw Hb) as [-> Hwg].
  unfold gob_address_z, gob_address_y, gob_address_x, gob_address_exact.
  rewrite GOB_SIZE_IN_BYTES_eq.
  unfold GOB_HEIGHT_IN_BYTES, GOB_WIDTH_IN_BYTES.
  rewrite sub_small by lia. rewrite land_mask by done.
  set (wg := cdiv (w * bpp) 64) in *.
  set (ss := cdiv h (bh * 8) * (512 * bh * bd * wg)) in *.
  assert (z mod bd <= 16) by (pose proof (N.mod_upper_bound z bd); lia).
  assert (y mod (8 * bh) <= 256)
    by (pose proof (N.mod_upper_bound y (8 * bh)); lia).
  cbv zeta. split; [unwrap|nbound].
  rewrite !(N.mul_1_r 512), !N.add_assoc. done.
Qed.
End gob_address.

(** ** The fast path against the per-byte path *)

Section fast_slow.
Context (w h d bh bd bpp : N).
Context (Hw : w <= 16384) (Hh : h <= 16384) (Hd : d <= 16384)
  (Hb : bpp <= 16) (Hbh : valid_block_height bh)
  (Hbd : valid_block_depth bd).

Lemma row_size_eq : w *% bpp = w * bpp.
Proof. unwrap. done. Qed.

Lemma linear_offset_eq x0 y0 z0 :
  x0 < w * bpp -> y0 < h -> z0 < d ->
  (z0 *% w *% h *% bpp) +% (y0 *% w *% bpp) +% x0
  = z0 * w * h * bpp + y0 * w * bpp + x0.
Proof. intros. unwrap. done. Qed.

Lemma interior_test_eq x0 y0 :
  x0 < w * bpp -> y0 < h ->
  (x0 +% GOB_WIDTH_IN_BYTES <? w *% bpp) && (y0 +% GOB_HEIGHT_IN_BYTES <? h)
  = (x0 + 64 <? w * bpp) && (y0 + 8 <? h).
Proof.
  intros. unfold GOB_WIDTH_IN_BYTES, GOB_HEIGHT_IN_BYTES. unwrap. done.
Qed.

(** What [swizzle_inner] does at the GOB at [(x0, y0, z0)] is what the
    per-byte primitive does there. *)
Lemma swizzle_inner_gob (DESWIZZLE : bool) src dst x0 y0 z0 G :
  x0 < w * bpp -> y0 < h -> z0 < d -> G <= 2 ^ 63 ->
  (if (x0 +% GOB_WIDTH_IN_BYTES <? w *% bpp)
      && (y0 +% GOB_HEIGHT_IN_BYTES <? h)
   then
     let linear_offset :=
       (z0 *% w *% h *% bpp) +% (y0 *% w *% bpp) +% x0 in
     if DESWIZZLE
     then deswizzle_complete_gob dst linear_offset src G (w *% bpp)
     else swizzle_complete_gob dst G src linear_offset (w *% bpp)
   else swizzle_deswizzle_gob DESWIZZLE dst src x0 y0 z0 w h bpp G)
  = swizzle_deswizzle_gob DESWIZZLE dst src x0 y0 z0 w h bpp G.
Proof.
  intros Hx Hy Hz HG. rewrite interior_test_eq by done.
  destruct (N.ltb_spec (x0 + 64) (w * bpp)); [|done].
  destruct (N.ltb_spec (y0 + 8) h); [|done].
  cbv zeta. simpl andb. cbv iota.
  rewrite linear_offset_eq, row_size_eq, gob_moves_ok by done.
  rewrite <-(interior_gob_equiv x0 y0 z0 w h bpp G) by (done || lia).
  destruct DESWIZZLE.
  - apply (complete_gob_moves_ok true).
  - apply (complete_gob_moves_ok false).
Qed.

Lemma swizzle_inner_slow_eq (DESWIZZLE : bool) src dst :
  swizzle_inner DESWIZZLE w h d src dst bh bd bpp
  = swizzle_inner_slow DESWIZZLE w h d src dst bh bd bpp.
Proof.
  unfold swizzle_inner, swizzle_inner_slow. cbv zeta.
  apply for_each_ext. intros z0 dst1 Hz%elem_of_N_range.
  apply for_each_ext. intros y0 dst2 [Hy _]%elem_of_N_range_step; [|done].
  apply for_each_ext. intros x0 dst3 [Hx _]%elem_of_N_range_step; [|done].
  rewrite row_size_eq in Hx.
  apply swizzle_inner_gob; [done..|].
  destruct (gob_address_eq w h d bh bd bpp Hw Hh Hd Hb Hbh Hbd x0 y0 z0)
    as [-> Hle]; [done..|].
  etrans; [apply Hle|]. by vm_compute.
Qed.
End fast_slow.

(** C3: on every mip level, sending every GOB to the per-byte primitive
    gives the same destination as [swizzle_inner] with its fast path; and
    on each interior GOB the fast copy makes exactly the moves of the
    per-byte loop, in another order. *)
Theorem fast_path_equivalence
  (DESWIZZLE : bool) (width height depth : N) (source destination : buffer)
  (block_height : BlockHeight) (block_depth bytes_per_pixel : N) :
  width <= 16384 -> height <= 16384 -> depth <= 16384 ->
  bytes_per_pixel <= 16 ->
  valid_block_height block_height -> valid_block_depth block_depth ->
  swizzle_inner DESWIZZLE width height depth source destination
    block_height block_depth bytes_per_pixel
  = swizzle_inner_slow DESWIZZLE width height depth source destination
      block_height block_depth bytes_per_pixel
  /\ forall x0 y0 z0 gob_address,
       z0 < depth -> gob_address <= 2 ^ 63 ->
       x0 + 64 < width * bytes_per_pixel -> y0 + 8 < height ->
       let linear_offset :=
         (z0 *% width *% height *% bytes_per_pixel)
         +% (y0 *% width *% bytes_per_pixel) +% x0 in
       complete_gob_moves DESWIZZLE
         (if DESWIZZLE then linear_offset else gob_address)
         (if DESWIZZLE then gob_address else linear_offset)
         (width *% bytes_per_pixel)
       ≡ₚ gob_moves DESWIZZLE x0 y0 z0 width height bytes_per_pixel
            gob_address.
Proof.
  intros Hw Hh Hd Hb Hbh Hbd. split.
  - by apply swizzle_inner_slow_eq.
  - intros x0 y0 z0 G Hz HG Hx Hy. cbv zeta.
    rewrite (linear_offset_eq width height depth bytes_per_pixel)
      by (done || lia).
    rewrite row_size_eq by done.
    rewrite complete_gob_moves_eq, gob_moves_interior by (done || lia).
    apply fmap_Permutation, gob_positions_fast_perm.
Qed.

Lemma fast_path_equivalence_witness :
  swizzle_inner false 40 10 1 (replicate 400 Byte.x01) (zeroed 2048)
    BlockHeight.Two 1 4
  = swizzle_inner_slow false 40 10 1 (replicate 400 Byte.x01) (zeroed 2048)
      BlockHeight.Two 1 4
  /\ forall x0 y0 z0 gob_address,
       z0 < 1 -> gob_address <= 2 ^ 63 ->
       x0 + 64 < 40 * 4 -> y0 + 8 < 10 ->
       let linear_offset := (z0 *% 40 *% 10 *% 4) +% (y0 *% 40 *% 4) +% x0 in
       complete_gob_moves false
         (if false then linear_offset else gob_address)
         (if false then gob_address else linear_offset)
         (40 *% 4)
       ≡ₚ gob_moves false x0 y0 z0 40 10 4 gob_address.
Proof.
  apply (fast_path_equivalence false 40 10 1); try (by vm_compute).
  - right. by left.
  - by left.
Defined.

Lemma swizzled_surface_size_ge_witness :
  swizzled_surface_size 40 10 1 block_dim_uncompressed None 4 2 3
  >= deswizzled_surface_size 40 10 1 block_dim_uncompressed 4 2 3.
Proof.
  apply swizzled_surface_size_ge.
  - constructor; simpl; try lia. discriminate.
  - constructor; simpl; lia.
Defined.

(** ** The mip-0 block height of a surface *)

Lemma swizzle_surface_inner_resolved
  (DESWIZZLE : bool) w h d src res bd supplied bpp m l :
  swizzle_surface_inner DESWIZZLE w h d src res bd supplied bpp m l
  = c ← swizzle_layers DESWIZZLE w h d src res bd
          (resolved_block_height_mip0 h d bd supplied) bpp m l;
    Ok (cur_dst c).
Proof. reflexivity. Qed.

(** C2 as stated fails on a surface of depth two: the supplied block
    height [Two] is replaced by [One], and the swizzled bytes differ from
    those laid out with block height [Two]. *)
Lemma supplied_block_height_ignored_3d :
  let source :=
    [x01; x02; x03; x04; x05; x06; x07; x08; x09;
     x0a; x0b; x0c; x0d; x0e; x0f; x10; x11; x12]%byte in
  resolved_block_height_mip0 9 2 block_dim_uncompressed (Some BlockHeight.Two)
  = BlockHeight.One
  /\ swizzle_surface_inner false 1 9 2 source (zeroed 2048)
       block_dim_uncompressed (Some BlockHeight.Two) 1 1 1
     = (c ← swizzle_layers false 1 9 2 source (zeroed 2048)
              block_dim_uncompressed BlockHeight.One 1 1 1;
        Ok (cur_dst c))
  /\ swizzle_surface_inner false 1 9 2 source (zeroed 2048)
       block_dim_uncompressed (Some BlockHeight.Two) 1 1 1
     <> (c ← swizzle_layers false 1 9 2 source (zeroed 2048)
               block_dim_uncompressed BlockHeight.Two 1 1 1;
         Ok (cur_dst c)).
Proof.
  intros source. split; [reflexivity|]. split; [reflexivity|].
  intros H.
  apply (f_equal (fun o => match o with
                           | Ok v => v !! 512%nat
                           | _ => None
                           end)) in H.
  vm_compute in H. discriminate H.
Qed.

(** ** What a sequence of moves leaves in the destination *)

Lemma copy_byte_Ok dst d src s dst' :
  copy_byte dst d src s = Ok dst' <->
  d < size dst /\
  exists b, src !! N.to_nat s = Some b /\ dst' = <[N.to_nat d := b]> dst.
Proof.
  unfold copy_byte, load, store.
  destruct (src !! N.to_nat s) as [b|]; simpl.
  - destruct (N.ltb_spec d (size dst)); split.
    + intros [= <-]. eauto.
    + intros (_ & b' & [= <-] & ->). done.
    + done.
    + intros [? _]. lia.
  - split; [done|]. by intros (_ & b & ? & _).
Qed.

Lemma copy_byte_sound dst d src s :
  copy_byte dst d src s <> NotEnoughData.
Proof.
  unfold copy_byte, load, store.
  destruct (src !! N.to_nat s); simpl; [|done]. by destruct (d <? size dst).
Qed.

Lemma apply_moves_sound src ms dst : apply_moves src ms dst <> NotEnoughData.
Proof.
  revert dst. induction ms as [|m ms IH]; intros dst; [done|].
  rewrite apply_moves_cons.
  pose proof (copy_byte_sound dst m.1 src m.2).
  destruct (copy_byte dst m.1 src m.2); simpl; [apply IH|done..].
Qed.

Lemma apply_moves_length src ms dst dst' :
  apply_moves src ms dst = Ok dst' -> length dst' = length dst.
Proof.
  revert dst. induction ms as [|m ms IH]; intros dst.
  - by intros [= <-].
  - rewrite apply_moves_cons.
    destruct (copy_byte dst m.1 src m.2) as [d1| |] eqn:Hc; simpl; [|done..].
    apply copy_byte_Ok in Hc as (_ & b & _ & ->).
    intros ->%IH. apply length_insert.
Qed.

Lemma apply_moves_total src ms dst :
  (forall m, m ∈ ms -> m.1 < size dst /\ m.2 < size src) ->
  exists dst', apply_moves src ms dst = Ok dst'.
Proof.
  revert dst. induction ms as [|m ms IH]; intros dst H; [by eexists|].
  rewrite apply_moves_cons.
  destruct (H m ltac:(left)) as [Hd Hs].
  destruct (lookup_lt_is_Some_2 src (N.to_nat m.2)) as [b Hb];
    [unfold size in Hs; lia|].
  assert (copy_byte dst m.1 src m.2 = Ok (<[N.to_nat m.1 := b]> dst)) as ->
    by (apply copy_byte_Ok; eauto).
  simpl. apply IH. intros m' Hm'. rewrite size_insert. apply H. by right.
Qed.

Lemma apply_moves_in_bounds src ms dst dst' :
  apply_moves src ms dst = Ok dst' ->
  forall m, m ∈ ms -> m.1 < size dst /\ m.2 < size src.
Proof.
  revert dst. induction ms as [|m ms IH]; intros dst H m' Hm'.
  - by apply elem_of_nil in Hm'.
  - rewrite apply_moves_cons in H.
    destruct (copy_byte dst m.1 src m.2) as [d1| |] eqn:Hc; simpl in H;
      [|done..].
    apply copy_byte_Ok in Hc as (Hd & b & Hb & ->).
    apply elem_of_cons in Hm' as [->|Hm'].
    + split; [done|]. apply lookup_lt_Some in Hb. unfold size. lia.
    + rewrite <-(size_insert dst (N.to_nat m.1) b). by eapply IH.
Qed.

Lemma apply_moves_other src ms dst dst' i :
  apply_moves src ms dst = Ok dst' -> i ∉ ms.*1 ->
  dst' !! N.to_nat i = dst !! N.to_nat i.
Proof.
  revert dst. induction ms as [|m ms IH]; intros dst.
  - by intros [= <-].
  - rewrite apply_moves_cons, fmap_cons, not_elem_of_cons.
    destruct (copy_byte dst m.1 src m.2) as [d1| |] eqn:Hc; simpl; [|done..].
    apply copy_byte_Ok in Hc as (_ & b & _ & ->).
    intros H [Hne Hin]. rewrite (IH _ H Hin).
    apply list_lookup_insert_ne. lia.
Qed.

(** When the destination of a move determines its source, every move's
    destination ends up holding the byte of its source. *)
Lemma apply_moves_lookup src ms dst dst' m :
  apply_moves src ms dst = Ok dst' ->
  (forall m1 m2, m1 ∈ ms -> m2 ∈ ms -> m1.1 = m2.1 -> m1.2 = m2.2) ->
  m ∈ ms ->
  dst' !! N.to_nat m.1 = src !! N.to_nat m.2.
Proof.
  revert dst m. induction ms as [|m0 ms IH]; intros dst m H Hf Hm.
  - by apply elem_of_nil in Hm.
  - rewrite apply_moves_cons in H.
    destruct (copy_byte dst m0.1 src m0.2) as [d1| |] eqn:Hc; simpl in H;
      [|done..].
    apply copy_byte_Ok in Hc as (Hd & b & Hb & ->).
    destruct (decide (m.1 ∈ ms.*1)) as [Hin|Hnin].
    + apply list_elem_of_fmap in Hin as (m' & Heq & Hm').
      rewrite Heq, (Hf m m' Hm ltac:(by right) Heq).
      apply (IH _ m' H); [|done].
      intros m1 m2 H1 H2. apply Hf; by right.
    + rewrite (apply_moves_other _ _ _ _ _ H Hnin).
      apply elem_of_cons in Hm as [->|Hm].
      * rewrite Hb. apply list_lookup_insert_eq. unfold size in Hd. lia.
      * exfalso. apply Hnin. apply list_elem_of_fmap. eauto.
Qed.

Lemma apply_moves_src_ext src src' ms dst :
  (forall m, m ∈ ms -> src !! N.to_nat m.2 = src' !! N.to_nat m.2) ->
  apply_moves src ms dst = apply_moves src' ms dst.
Proof.
  revert dst. induction ms as [|m ms IH]; intros dst H; [done|].
  rewrite !apply_moves_cons. apply outcome_bind_ext.
  - unfold copy_byte, load. by rewrite (H m ltac:(left)).
  - intros dst1. apply IH. intros. apply H. by right.
Qed.

(** ** The moves of one mip level *)

Lemma swizzle_inner_slow_moves (DESWIZZLE : bool) w h d src dst bh bd bpp :
  swizzle_inner_slow DESWIZZLE w h d src dst bh bd bpp
  = apply_moves src (inner_moves DESWIZZLE w h d bh bd bpp) dst.
Proof.
  unfold swizzle_inner_slow, inner_moves. cbv zeta.
  apply for_each_moves. intros z0 dst1 _.
  apply for_each_moves. intros y0 dst2 _.
  apply for_each_moves. intros x0 dst3 _.
  apply gob_moves_ok.
Qed.

Lemma elem_of_gob_moves (DESWIZZLE : bool) x0 y0 z0 w h bpp G m :
  w <= 16384 -> h <= 16384 -> z0 <= 16384 -> bpp <= 16 ->
  x0 < w * bpp -> y0 < h -> G <= 2 ^ 63 ->
  m ∈ gob_moves DESWIZZLE x0 y0 z0 w h bpp G <->
  exists x y, x < 64 /\ y < 8 /\ y0 + y < h /\ x0 + x < w * bpp /\
    m = exact_gob_move DESWIZZLE x0 y0 z0 w h bpp G (x, y).
Proof.
  intros Hw Hh Hz Hb Hx0 Hy0 HG. unfold gob_moves.
  rewrite list_elem_of_bind. split.
  - intros (y & Hm & Hy%elem_of_N_range).
    apply list_elem_of_bind in Hm as (x & Hm & Hx%elem_of_N_range).
    change GOB_HEIGHT_IN_BYTES with 8 in Hy.
    change GOB_WIDTH_IN_BYTES with 64 in Hx.
    rewrite (gob_test_eq x0 y0 w h bpp) in Hm by done.
    destruct (N.ltb_spec (y0 + y) h); [|by apply elem_of_nil in Hm].
    destruct (N.ltb_spec (x0 + x) (w * bpp)); [|by apply elem_of_nil in Hm].
    apply list_elem_of_singleton in Hm.
    rewrite gob_byte_move_eq in Hm by done. eauto 10.
  - intros (x & y & Hx & Hy & Hyh & Hxw & ->).
    exists y. split; [|by apply elem_of_N_range].
    apply list_elem_of_bind. exists x. split; [|by apply elem_of_N_range].
    rewrite (gob_test_eq x0 y0 w h bpp) by done.
    destruct (N.ltb_spec (y0 + y) h); [|lia].
    destruct (N.ltb_spec (x0 + x) (w * bpp)); [|lia].
    simpl. rewrite gob_byte_move_eq by done. left.
Qed.

Lemma mod_div_8 y bh : y mod (8 * bh) / 8 = (y / 8) mod bh.
Proof.
  rewrite N.Div0.mod_mul_r.
  rewrite (N.mul_comm 8), N.div_add by lia.
  rewrite (N.div_small (y mod 8)); [done|]. apply N.mod_lt. lia.
Qed.

Lemma gob_address_exact_gob w h bh bd bpp x y z x' y' :
  x / 64 = x' / 64 -> y / 8 = y' / 8 ->
  gob_address_exact w h bh bd bpp x y z
  = gob_address_exact w h bh bd bpp x' y' z.
Proof.
  intros Hx Hy. unfold gob_address_exact.
  rewrite !mod_div_8, <-!N.Div0.div_div, Hx, Hy. done.
Qed.

Section mip_moves.
Context (w h d bh bd bpp : N).
Context (Hw : w <= 16384) (Hh : h <= 16384) (Hd : d <= 16384)
  (Hb : bpp <= 16) (Hbh : valid_block_height bh)
  (Hbd : valid_block_depth bd).

Lemma swizzle_inner_moves (DESWIZZLE : bool) src dst :
  swizzle_inner DESWIZZLE w h d src dst bh bd bpp
  = apply_moves src (inner_moves DESWIZZLE w h d bh bd bpp) dst.
Proof.
  rewrite swizzle_inner_slow_eq by done. apply swizzle_inner_slow_moves.
Qed.

Lemma exact_gob_move_eq (DESWIZZLE : bool) x0 y0 z0 x y :
  x0 mod 64 = 0 -> y0 mod 8 = 0 -> x < 64 -> y < 8 ->
  exact_gob_move DESWIZZLE x0 y0 z0 w h bpp
    (gob_address_exact w h bh bd bpp x0 y0 z0) (x, y)
  = mip_move DESWIZZLE w h bh bd bpp (x0 + x) (y0 + y) z0.
Proof.
  intros Hx0 Hy0 Hx Hy.
  unfold exact_gob_move, mip_move, mip_address, mip_linear. simpl.
  rewrite (gob_address_exact_gob w h bh bd bpp (x0 + x) (y0 + y) z0 x0 y0)
    by lia.
  replace ((x0 + x) mod 64) with x by lia.
  replace ((y0 + y) mod 8) with y by lia.
  destruct DESWIZZLE; f_equal; lia.
Qed.

Lemma elem_of_inner_moves (DESWIZZLE : bool) m :
  m ∈ inner_moves DESWIZZLE w h d bh bd bpp <->
  exists x y z, x < w * bpp /\ y < h /\ z < d /\
    m = mip_move DESWIZZLE w h bh bd bpp x y z.
Proof.
  unfold inner_moves. rewrite list_elem_of_bind. split.
  - intros (z0 & Hm & Hz%elem_of_N_range).
    apply list_elem_of_bind in Hm as (y0 & Hm & Hy).
    apply list_elem_of_bind in Hm as (x0 & Hm & Hx).
    apply elem_of_N_range_step in Hy as [Hy Hy8]; [|done].
    apply elem_of_N_range_step in Hx as [Hx Hx64]; [|done].
    rewrite row_size_eq in Hx by done.
    change GOB_HEIGHT_IN_BYTES with 8 in Hy8.
    change GOB_WIDTH_IN_BYTES with 64 in Hx64.
    unfold mip_gob_address in Hm.
    destruct (gob_address_eq w h d bh bd bpp Hw Hh Hd Hb Hbh Hbd x0 y0 z0)
      as [HG Hle]; [done..|].
    rewrite HG in Hm.
    apply elem_of_gob_moves in Hm
        as (x & y & Hx' & Hy' & Hyh & Hxw & ->); try (done || lia).
    exists (x0 + x), (y0 + y), z0. by rewrite exact_gob_move_eq.
  - intros (x & y & z & Hx & Hy & Hz & ->).
    exists z. split; [|by apply elem_of_N_range].
    apply list_elem_of_bind. exists (8 * (y / 8)). split.
    2: { apply elem_of_N_range_step; [done|].
         change GOB_HEIGHT_IN_BYTES with 8. lia. }
    apply list_elem_of_bind. exists (64 * (x / 64)). split.
    2: { apply elem_of_N_range_step; [done|]. rewrite row_size_eq by done.
         change GOB_WIDTH_IN_BYTES with 64. lia. }
    unfold mip_gob_address.
    destruct (gob_address_eq w h d bh bd bpp Hw Hh Hd Hb Hbh Hbd
                (64 * (x / 64)) (8 * (y / 8)) z) as [HG Hle]; [lia..|].
    rewrite HG.
    apply elem_of_gob_moves; try (done || lia).
    exists (x mod 64), (y mod 8).
    split; [lia|]. split; [lia|]. split; [lia|]. split; [lia|].
    rewrite exact_gob_move_eq by lia. f_equal; lia.
Qed.
End mip_moves.

(** ** The address mapping of one mip level is injective and bounded *)

Lemma radix_inj a q a' q' m :
  a < m -> a' < m -> a + m * q = a' + m * q' -> a = a' /\ q = q'.
Proof.
  intros Ha Ha' H.
  assert (q = q') as ->; [|lia].
  destruct (N.lt_trichotomy q q') as [Hlt|[Heq|Hgt]]; [|done|]; nia.
Qed.

Lemma radix_lt a q m n : a < m -> q < n -> a + m * q < m * n.
Proof. nia. Qed.

Lemma div_lt_cdiv x n d : x < n -> 1 <= d -> x / d < cdiv n d.
Proof.
  intros Hx Hd. apply N.Div0.div_lt_upper_bound.
  pose proof (cdiv_mul_ge n d Hd). lia.
Qed.

Lemma mip_address_radix w h bh bd bpp x y z :
  mip_address w h bh bd bpp x y z
  = gob_offset (x mod 64) (y mod 8)
    + 512 * ((y / 8) mod bh
             + bh * (z mod bd
                     + bd * (x / 64
                             + cdiv (w * bpp) 64
                               * ((y / 8) / bh
                                  + cdiv h (bh * 8) * (z / bd))))).
Proof.
  unfold mip_address, gob_address_exact.
  rewrite mod_div_8, <-N.Div0.div_div. cbv zeta. ring.
Qed.

Lemma eq_refl_le_1_64 : 1 <= 64.
Proof. done. Qed.

Section mip_address.
Context (w h d bh bd bpp : N).
Context (Hbh : 1 <= bh) (Hbd : 1 <= bd).

Lemma mip_address_lt x y z :
  x < w * bpp -> y < h -> z < d ->
  mip_address w h bh bd bpp x y z
  < cdiv (w * bpp) 64 * (cdiv h (bh * 8) * bh) * (cdiv d bd * bd) * 512.
Proof.
  intros Hx Hy Hz. rewrite mip_address_radix.
  assert (x mod 64 < 64) as Hxm1 by (apply N.mod_lt; lia).
  assert (y mod 8 < 8) as Hym1 by (apply N.mod_lt; lia).
  assert (bh <> 0) as Hbh0 by lia. assert (bd <> 0) as Hbd0 by lia.
  pose proof (gob_offset_lt _ _ Hxm1 Hym1) as Ho.
  pose proof (N.mod_lt (y / 8) bh Hbh0) as Ha.
  pose proof (N.mod_lt z bd Hbd0) as Hb.
  pose proof (div_lt_cdiv x (w * bpp) 64 Hx eq_refl_le_1_64) as Hc.
  assert (y / 8 / bh < cdiv h (bh * 8)) as He.
  { rewrite N.Div0.div_div, (N.mul_comm 8).
    apply div_lt_cdiv; [done|]. clear - Hbh. lia. }
  pose proof (div_lt_cdiv z d bd Hz Hbd) as Hf.
  set (o := gob_offset _ _) in *. set (a := (y / 8) mod bh) in *.
  set (b := z mod bd) in *. set (c := x / 64) in *.
  set (e := y / 8 / bh) in *. set (f := z / bd) in *.
  set (wg := cdiv (w * bpp) 64) in *. set (hb := cdiv h (bh * 8)) in *.
  set (fd := cdiv d bd) in *.
  replace (wg * (hb * bh) * (fd * bd) * 512)
    with (512 * (bh * (bd * (wg * (hb * fd))))) by ring.
  repeat apply radix_lt; done.
Qed.

Lemma div8_lt_cdiv y : y < h -> y / 8 / bh < cdiv h (bh * 8).
Proof.
  intros Hy. rewrite N.Div0.div_div, (N.mul_comm 8).
  apply div_lt_cdiv; [done|]. clear Hy. lia.
Qed.

Lemma mip_address_inj x y z x' y' z' :
  x < w * bpp -> y < h -> z < d -> x' < w * bpp -> y' < h -> z' < d ->
  mip_address w h bh bd bpp x y z = mip_address w h bh bd bpp x' y' z' ->
  x = x' /\ y = y' /\ z = z'.
Proof.
  intros Hx Hy Hz Hx' Hy' Hz'. rewrite !mip_address_radix.
  assert (x mod 64 < 64) as Hxm1 by (apply N.mod_lt; lia).
  assert (x' mod 64 < 64) as Hxm2 by (apply N.mod_lt; lia).
  assert (y mod 8 < 8) as Hym1 by (apply N.mod_lt; lia).
  assert (y' mod 8 < 8) as Hym2 by (apply N.mod_lt; lia).
  assert (bh <> 0) as Hbh0 by lia. assert (bd <> 0) as Hbd0 by lia.
  pose proof (gob_offset_lt _ _ Hxm1 Hym1).
  pose proof (gob_offset_lt _ _ Hxm2 Hym2).
  pose proof (N.mod_lt (y / 8) bh Hbh0).
  pose proof (N.mod_lt (y' / 8) bh Hbh0).
  pose proof (N.mod_lt z bd Hbd0).
  pose proof (N.mod_lt z' bd Hbd0).
  pose proof (div_lt_cdiv x (w * bpp) 64 Hx eq_refl_le_1_64).
  pose proof (div_lt_cdiv x' (w * bpp) 64 Hx' eq_refl_le_1_64).
  pose proof (div8_lt_cdiv y Hy). pose proof (div8_lt_cdiv y' Hy').
  intros Heq.
  apply radix_inj in Heq as [Ho Heq]; [|done..].
  apply radix_inj in Heq as [Ha Heq]; [|done..].
  apply radix_inj in Heq as [Hb Heq]; [|done..].
  apply radix_inj in Heq as [Hc Heq]; [|done..].
  apply radix_inj in Heq as [He Hf]; [|done..].
  apply gob_offset_inj in Ho as [Hxm Hym]; [|done..].
  pose proof (N.div_mod (y / 8) bh Hbh0) as Hy8.
  pose proof (N.div_mod (y' / 8) bh Hbh0) as Hy8'.
  pose proof (N.div_mod z bd Hbd0) as Hzd.
  pose proof (N.div_mod z' bd Hbd0) as Hzd'.
  rewrite Ha, He in Hy8. rewrite Hb, Hf in Hzd.
  assert (y / 8 = y' / 8) as Hyy by congruence.
  assert (z = z') as Hzz by congruence.
  clear - Hxm Hym Hc Hyy Hzz.
  split; [lia|]. split; [lia|done].
Qed.
End mip_address.

Section mip_linear.
Context (w h d bpp : N).

Lemma mip_linear_radix x y z :
  mip_linear w h bpp x y z = x + w * bpp * (y + h * z).
Proof. unfold mip_linear. ring. Qed.

Lemma mip_linear_lt x y z :
  x < w * bpp -> y < h -> z < d ->
  mip_linear w h bpp x y z < w * h * d * bpp.
Proof.
  intros Hx Hy Hz. rewrite mip_linear_radix.
  replace (w * h * d * bpp) with (w * bpp * (h * d)) by ring.
  repeat apply radix_lt; done.
Qed.

Lemma mip_linear_inj x y z x' y' z' :
  x < w * bpp -> y < h -> x' < w * bpp -> y' < h ->
  mip_linear w h bpp x y z = mip_linear w h bpp x' y' z' ->
  x = x' /\ y = y' /\ z = z'.
Proof.
  intros Hx Hy Hx' Hy'. rewrite !mip_linear_radix. intros Heq.
  apply radix_inj in Heq as [-> Heq]; [|done..].
  apply radix_inj in Heq as [-> ->]; done.
Qed.

Lemma mip_linear_surj i :
  i < w * h * d * bpp ->
  exists x y z, x < w * bpp /\ y < h /\ z < d /\ mip_linear w h bpp x y z = i.
Proof.
  intros Hi.
  assert (1 <= w * bpp) by nia. assert (1 <= h) by nia.
  exists (i mod (w * bpp)), (i / (w * bpp) mod h), (i / (w * bpp) / h).
  split; [apply N.mod_lt; lia|]. split; [apply N.mod_lt; lia|]. split.
  - rewrite N.Div0.div_div. apply N.Div0.div_lt_upper_bound.
    replace (w * bpp * h * d) with (w * h * d * bpp) by ring. done.
  - rewrite mip_linear_radix.
    assert (i / (w * bpp) mod h + h * (i / (w * bpp) / h) = i / (w * bpp))
      as -> by (rewrite N.add_comm; symmetry; apply N.div_mod; lia).
    rewrite N.add_comm. symmetry. apply N.div_mod. lia.
Qed.
End mip_linear.

(** ** Windows into the source and the destination *)

Lemma size_drop (v : buffer) n :
  n <= size v -> size (drop (N.to_nat n) v) = size v - n.
Proof. unfold size. rewrite length_drop. lia. Qed.

Lemma copy_byte_window src dst dst_offset src_offset d s :
  dst_offset <= size dst -> src_offset <= size src ->
  copy_byte dst (d + dst_offset) src (s + src_offset)
  = r ← copy_byte (drop (N.to_nat dst_offset) dst) d
          (drop (N.to_nat src_offset) src) s;
    Ok (take (N.to_nat dst_offset) dst ++ r).
Proof.
  intros Hd Hs. unfold copy_byte, load, store.
  rewrite lookup_drop.
  replace (N.to_nat (s + src_offset)) with (N.to_nat src_offset + N.to_nat s)%nat
    by lia.
  destruct (src !! _) as [b|]; simpl; [|done].
  rewrite size_drop by done.
  destruct (N.ltb_spec (d + dst_offset) (size dst)),
    (N.ltb_spec d (size dst - dst_offset)); try lia; simpl; [|done].
  f_equal. rewrite <-(take_drop (N.to_nat dst_offset) dst) at 1.
  rewrite insert_app_r_alt by (rewrite length_take; unfold size in *; lia).
  f_equal. f_equal. rewrite length_take. unfold size in *. lia.
Qed.

Lemma apply_moves_window src ms dst dst_offset src_offset :
  dst_offset <= size dst -> src_offset <= size src ->
  apply_moves src (shift_move dst_offset src_offset <$> ms) dst
  = r ← apply_moves (drop (N.to_nat src_offset) src) ms
          (drop (N.to_nat dst_offset) dst);
    Ok (take (N.to_nat dst_offset) dst ++ r).
Proof.
  intros Hd Hs. revert dst Hd. induction ms as [|m ms IH]; intros dst Hd.
  - simpl. by rewrite take_drop.
  - rewrite fmap_cons, !apply_moves_cons. simpl.
    rewrite copy_byte_window by done.
    destruct (copy_byte (drop _ dst) m.1 (drop _ src) m.2) as [r1| |] eqn:Hc;
      simpl; [|done..].
    assert (length r1 = length (drop (N.to_nat dst_offset) dst)) as Hlen.
    { apply copy_byte_Ok in Hc as (_ & b & _ & ->). apply length_insert. }
    assert (length (take (N.to_nat dst_offset) dst) = N.to_nat dst_offset)
      as Htake by (rewrite length_take; unfold size in Hd; lia).
    rewrite IH.
    + rewrite drop_app_length', take_app_length' by done. done.
    + unfold size. rewrite length_app. lia.
Qed.

Lemma for_each_copy_back (dst r : buffer) dst_offset :
  dst_offset <= size dst -> size dst < 2 ^ 64 ->
  length r = length (drop (N.to_nat dst_offset) dst) ->
  for_each (N_range (size r))
    (fun dst i => copy_byte dst (i +% dst_offset) r i) dst
  = Ok (take (N.to_nat dst_offset) dst ++ r).
Proof.
  intros Hd Hsz Hlen.
  assert (size r = size dst - dst_offset) as Hr
    by (unfold size in *; rewrite length_drop in Hlen; lia).
  rewrite (for_each_moves _ (fun i => [(i + dst_offset, i)]) r).
  2: { intros i dst1 Hi%elem_of_N_range. rewrite add_small by lia.
       rewrite apply_moves_cons. simpl. by destruct (copy_byte _ _ _ _). }
  rewrite (list_bind_singleton (fun i => (i + dst_offset, i))).
  destruct (apply_moves_total r ((fun i => (i + dst_offset, i)) <$>
                                   N_range (size r)) dst) as [dst' Hok].
  { intros m (i & -> & Hi%elem_of_N_range)%list_elem_of_fmap. simpl. lia. }
  rewrite Hok. f_equal. apply list_eq. intros j.
  pose proof (apply_moves_length _ _ _ _ Hok) as Hlen'.
  destruct (decide (j < N.to_nat dst_offset)%nat) as [Hj|Hj].
  - rewrite lookup_app_l by (rewrite length_take; unfold size in *; lia).
    rewrite lookup_take_lt by done.
    rewrite <-(Nat2N.id j). apply (apply_moves_other _ _ _ _ _ Hok).
    intros (m & Hm & (i & -> & Hi)%list_elem_of_fmap)%list_elem_of_fmap.
    simpl in Hm. lia.
  - rewrite lookup_app_r by (rewrite length_take; unfold size in *; lia).
    rewrite length_take.
    replace (j - N.to_nat dst_offset `min` length dst)%nat
      with (j - N.to_nat dst_offset)%nat by (unfold size in *; lia).
    destruct (decide (j < length dst)%nat) as [Hjl|Hjl].
    + pose proof (apply_moves_lookup r _ dst dst'
                    (N.of_nat j, N.of_nat j - dst_offset) Hok) as Hl.
      simpl in Hl. rewrite Nat2N.id in Hl. rewrite Hl.
      * f_equal. lia.
      * intros m1 m2 (i1 & -> & _)%list_elem_of_fmap
          (i2 & -> & _)%list_elem_of_fmap. simpl. lia.
      * apply list_elem_of_fmap. exists (N.of_nat j - dst_offset).
        split; [f_equal; lia|]. apply elem_of_N_range. unfold size in *. lia.
    + rewrite !lookup_ge_None_2; [done|unfold size in *; lia|lia].
Qed.

Lemma vector_from_Ok (v : buffer) off :
  off <= size v -> vector_from v off = Ok (drop (N.to_nat off) v).
Proof.
  intros H. unfold vector_from. by destruct (N.leb_spec off (size v)); [|lia].
Qed.

(** One step of the mip loop, as moves on the whole vectors. *)
Lemma swizzle_mipmap_moves (DESWIZZLE : bool) w h d bh bd bpp src c :
  w <= 16384 -> h <= 16384 -> d <= 16384 -> bpp <= 16 ->
  valid_block_height bh -> valid_block_depth bd ->
  let src_size :=
    if DESWIZZLE then swizzled_mip_size w h d bh bpp
    else deswizzled_mip_size w h d bpp in
  let dst_size :=
    if DESWIZZLE then deswizzled_mip_size w h d bpp
    else swizzled_mip_size w h d bh bpp in
  cur_src_offset c + src_size <= size src ->
  cur_src_offset c <= 2 ^ 62 -> cur_dst_offset c <= 2 ^ 62 ->
  cur_dst_offset c <= size (cur_dst c) -> size (cur_dst c) < 2 ^ 64 ->
  swizzle_mipmap DESWIZZLE w h d bh bd bpp src c
  = r ← apply_moves src
          (shift_move (cur_dst_offset c) (cur_src_offset c)
             <$> inner_moves DESWIZZLE w h d bh bd bpp)
          (cur_dst c);
    Ok (mkCursor r (cur_src_offset c + src_size) (cur_dst_offset c + dst_size)).
Proof.
  intros Hw Hh Hd Hb Hbh Hbd src_size dst_size Hsrc Hso Hdo Hdst Hsz.
  destruct c as [dst so do]. simpl in *.
  pose proof (valid_block_height_bounds bh Hbh) as Hbh'.
  pose proof (swizzled_mip_size_exact_le w h d bh bpp Hw Hh Hd Hb Hbh') as Hs1.
  pose proof (mip_size_exact_le w h d bh bpp (proj1 Hbh')) as Hs2.
  rewrite <-swizzled_mip_size_eq in Hs1, Hs2 by done.
  rewrite <-deswizzled_mip_size_eq in Hs2 by done.
  set (S := swizzled_mip_size w h d bh bpp) in *.
  set (L := deswizzled_mip_size w h d bpp) in *.
  change (2 ^ 47) with 140737488355328 in Hs1.
  change (2 ^ 62) with 4611686018427387904 in Hso, Hdo.
  unfold swizzle_mipmap. simpl. fold S L.
  rewrite !add_small by lia.
  assert (DESWIZZLE && (size src <? so + S) = false) as ->.
  { destruct DESWIZZLE; [|done]. simpl. apply N.ltb_ge. unfold src_size in *.
    lia. }
  assert (negb DESWIZZLE && (size src <? so + L) = false) as ->.
  { destruct DESWIZZLE; [done|]. simpl. apply N.ltb_ge. unfold src_size in *.
    lia. }
  assert (so <= size src) as Hso' by lia.
  rewrite !vector_from_Ok by done. simpl.
  rewrite swizzle_inner_moves by done.
  rewrite apply_moves_window by done.
  destruct (apply_moves (drop _ src) _ (drop _ dst)) as [r| |] eqn:Hr;
    simpl; [|done..].
  rewrite for_each_copy_back;
    [|done..|by apply apply_moves_length in Hr].
  simpl. unfold src_size, dst_size. by destruct DESWIZZLE.
Qed.

(** ** The layer and mip loops as moves *)

Lemma sumN_singleton {A} (f : A -> N) a : sumN f [a] = f a.
Proof. simpl. lia. Qed.

Lemma sumN_N_range_S (f : N -> N) k :
  sumN f (N_range (N.succ k)) = sumN f (N_range k) + f k.
Proof. rewrite N_range_S, sumN_app. simpl. lia. Qed.

Lemma sumN_N_range_mono (f : N -> N) k m :
  k <= m -> sumN f (N_range k) <= sumN f (N_range m).
Proof.
  intros Hk. replace m with (k + (m - k)) by lia.
  generalize (m - k). clear. intros n.
  induction n as [|n IH] using N.peano_ind; [by rewrite N.add_0_r|].
  rewrite N.add_succ_r, sumN_N_range_S. lia.
Qed.

Lemma cdiv_add_mul q s B : 1 <= B -> cdiv (q * B + s) B = q + cdiv s B.
Proof.
  intros HB. unfold cdiv.
  replace (q * B + s + B - 1) with ((s + B - 1) + q * B) by lia.
  rewrite N.div_add by lia. lia.
Qed.

Lemma mip_block_depth_valid md bd :
  valid_block_depth bd -> valid_block_depth (mip_block_depth md bd).
Proof.
  intros Hv. unfold mip_block_depth, valid_block_depth in *.
  destruct Hv as [-> | [-> | [-> | [-> | ->]]]];
    unroll_halve_while; split_compares; auto 10.
Qed.

Lemma block_depth_mono a b :
  a <= b -> b <= 16384 -> block_depth a <= block_depth b.
Proof.
  intros Hab Hb. rewrite !block_depth_eq by lia. split_compares; lia.
Qed.

(** The depth in GOBs that [swizzled_mip_size] reserves is the one the
    per-mip block depth of the transfer needs. *)
Lemma mip_block_depth_round md bd :
  valid_block_depth bd -> block_depth md <= bd -> 1 <= md <= 16384 ->
  cdiv md (mip_block_depth md bd) * mip_block_depth md bd
  = cdiv md (block_depth md) * block_depth md.
Proof.
  intros Hv Hle Hmd. rewrite block_depth_eq in * by lia.
  unfold mip_block_depth, cdiv.
  destruct Hv as [-> | [-> | [-> | [-> | ->]]]];
    unroll_halve_while; split_compares; try reflexivity; try lia.
Qed.

Lemma size_zeroed n : size (zeroed n) = n.
Proof. unfold size, zeroed. rewrite length_replicate. lia. Qed.

Section surface_loops.
Context (width height depth : N) (block_dim : BlockDim)
  (block_height_mip0 : option BlockHeight)
  (bytes_per_pixel mipmap_count layer_count : N).
Context
  (Hvalid : valid_descriptor width height depth block_dim block_height_mip0
              bytes_per_pixel mipmap_count layer_count)
  (Hrep : representable width height depth block_dim
            mipmap_count layer_count).

Let bh0 := resolved_block_height_mip0 height depth block_dim block_height_mip0.
Let swz := mip_swizzled_size width height depth block_dim bh0 bytes_per_pixel.
Let lin := mip_deswizzled_size width height depth block_dim bytes_per_pixel.
Let LS := layer_swizzled_size width height depth block_dim bh0
            bytes_per_pixel mipmap_count layer_count.
Let LL := layer_deswizzled_size width height depth block_dim
            bytes_per_pixel mipmap_count.
Let src_mip (D : bool) := if D then swz else lin.
Let dst_mip (D : bool) := if D then lin else swz.
Let src_layer (D : bool) := if D then LS else LL.
Let dst_layer (D : bool) := if D then LL else LS.

Ltac norm :=
  cbv beta iota delta [src_mip dst_mip src_layer dst_layer swz lin
                       mip_swizzled_size mip_deswizzled_size] in *.

Lemma bh0_valid : valid_block_height bh0.
Proof. by eapply resolved_block_height_mip0_valid. Qed.

Lemma swz_le mip : swz mip <= 2 ^ 47.
Proof. by apply (mip_swizzled_size_eq _ _ _ _ _ _ _ _ Hvalid Hrep). Qed.

Lemma lin_le_swz mip : lin mip <= swz mip.
Proof. by apply (mip_sizes_le _ _ _ _ _ _ _ _ Hvalid Hrep). Qed.

Lemma swz_sum_le k : k <= mipmap_count -> sumN swz (N_range k) <= 2 ^ 53.
Proof.
  intros Hk. etrans; [by apply sumN_N_range_mono|].
  by apply (mip_sum_le _ _ _ _ _ _ _ _ Hvalid Hrep).
Qed.

Lemma lin_sum_le_swz k : sumN lin (N_range k) <= sumN swz (N_range k).
Proof. apply sumN_le. intros i _. apply lin_le_swz. Qed.

Lemma LS_bounds : sumN swz (N_range mipmap_count) <= LS /\ LS <= 2 ^ 54.
Proof.
  unfold LS, layer_swizzled_size. fold swz.
  pose proof (swz_sum_le mipmap_count ltac:(lia)) as Hs.
  pose proof (align_bounds _ _ _ _ _ _ _ _ Hvalid) as Hb. fold bh0 in Hb.
  pose proof (aligned_layer_le _ _ _ _ _ _ _ _ Hvalid Hrep) as Ha.
  fold bh0 swz in Ha.
  destruct (1 <? layer_count).
  - split; [|done]. apply cdiv_mul_ge. lia.
  - split; [done|]. etrans; [done|]. by vm_compute.
Qed.

Lemma LL_le_LS : LL <= LS.
Proof.
  etrans; [|apply LS_bounds]. apply lin_sum_le_swz.
Qed.

Lemma src_sum_le (D : bool) k :
  k <= mipmap_count ->
  sumN (src_mip D) (N_range k) <= src_layer D /\ src_layer D <= 2 ^ 54.
Proof.
  intros Hk. pose proof LS_bounds as [H1 H2]. pose proof LL_le_LS.
  pose proof (sumN_N_range_mono swz k mipmap_count Hk).
  pose proof (sumN_N_range_mono lin k mipmap_count Hk).
  destruct D; simpl; fold LL; split; try lia.
  - unfold LL, layer_deswizzled_size. fold lin. done.
Qed.

Lemma dst_sum_le (D : bool) k :
  k <= mipmap_count ->
  sumN (dst_mip D) (N_range k) <= dst_layer D /\ dst_layer D <= 2 ^ 54.
Proof.
  intros Hk. destruct D.
  - apply (src_sum_le false k Hk).
  - apply (src_sum_le true k Hk).
Qed.

Lemma mip_params mip :
  let w := mip_dimension width mip (bd_width block_dim) in
  let h := mip_dimension height mip (bd_height block_dim) in
  let d := mip_dimension depth mip (bd_depth block_dim) in
  1 <= w <= 16384 /\ 1 <= h <= 16384 /\ 1 <= d <= 16384 /\
  valid_block_height (mip_block_height h bh0).
Proof.
  destruct Hvalid, Hrep. cbv zeta.
  split; [apply mip_dimension_le; lia|].
  split; [apply mip_dimension_le; lia|].
  split; [apply mip_dimension_le; lia|].
  apply mip_block_height_valid, bh0_valid.
Qed.

Lemma mip_depth_params mip :
  let d := mip_dimension depth mip (bd_depth block_dim) in
  valid_block_depth (mip_block_depth d (block_depth depth)) /\
  cdiv d (mip_block_depth d (block_depth depth))
  * mip_block_depth d (block_depth depth)
  = cdiv d (block_depth d) * block_depth d.
Proof.
  destruct Hvalid, Hrep. cbv zeta.
  pose proof (mip_dimension_bounds depth mip (bd_depth block_dim)
                ltac:(lia) ltac:(lia)) as [_ Hd].
  split; [apply mip_block_depth_valid, block_depth_valid|].
  apply mip_block_depth_round; [apply block_depth_valid| |lia].
  apply block_depth_mono; lia.
Qed.

(** The mip loop of one layer, started at offsets [so] and [do]. *)
Lemma mip_loop (D : bool) src dst so do k :
  k <= mipmap_count ->
  so + src_layer D <= size src -> do + dst_layer D <= size dst ->
  so + src_layer D <= 2 ^ 62 -> size dst <= 2 ^ 62 ->
  for_each (N_range k)
    (fun c mip =>
       swizzle_mipmap D
         (mip_dimension width mip (bd_width block_dim))
         (mip_dimension height mip (bd_height block_dim))
         (mip_dimension depth mip (bd_depth block_dim))
         (mip_block_height (mip_dimension height mip (bd_height block_dim))
            bh0)
         (mip_block_depth (mip_dimension depth mip (bd_depth block_dim))
            (block_depth depth))
         bytes_per_pixel src c)
    (mkCursor dst so do)
  = r ← apply_moves src
          (mip ← N_range k;
           shift_move (do + sumN (dst_mip D) (N_range mip))
             (so + sumN (src_mip D) (N_range mip))
             <$> mip_moves width height depth block_dim bh0 bytes_per_pixel
                   D mip)
          dst;
    Ok (mkCursor r (so + sumN (src_mip D) (N_range k))
          (do + sumN (dst_mip D) (N_range k))).
Proof.
  intros Hk Hsrc Hdst Hso Hsz. revert Hk.
  induction k as [|k IH] using N.peano_ind; intros Hk.
  - simpl. by rewrite !N.add_0_r.
  - rewrite N_range_S, for_each_app, IH by lia.
    rewrite bind_app, apply_moves_app.
    destruct (apply_moves src _ dst) as [r| |] eqn:Hr; simpl; [|done..].
    pose proof (apply_moves_length _ _ _ _ Hr) as Hlen.
    pose proof (mip_params k) as (Hw & Hh & Hd & Hbh).
    pose proof (mip_depth_params k) as [Hbd _].
    pose proof (src_sum_le D (N.succ k) Hk) as [Hs1 Hs2].
    pose proof (dst_sum_le D (N.succ k) Hk) as [Hd1 Hd2].
    rewrite sumN_N_range_S in Hs1, Hd1.
    change (2 ^ 54) with 18014398509481984 in Hs2, Hd2.
    change (2 ^ 62) with 4611686018427387904 in Hso.
    change (2 ^ 62) with 4611686018427387904 in Hsz |- *.
    change (2 ^ 64) with 18446744073709551616.
    assert (size r = size dst) as Hsr by (unfold size; by rewrite Hlen).
    destruct Hvalid.
    rewrite swizzle_mipmap_moves; simpl; rewrite ?Hsr;
      try (done || lia).
    + rewrite app_nil_r.
      destruct (apply_moves src _ r) as [r'| |]; simpl; [|done..].
      rewrite !sumN_app, !sumN_singleton. do 2 f_equal; destruct D; norm; lia.
    + destruct D; norm; lia.
Qed.

(** The moves of layer [layer]. *)
Lemma layer_moves_eq (D : bool) layer :
  (mip ← N_range mipmap_count;
   shift_move (layer * dst_layer D + sumN (dst_mip D) (N_range mip))
     (layer * src_layer D + sumN (src_mip D) (N_range mip))
     <$> mip_moves width height depth block_dim bh0 bytes_per_pixel D mip)
  = (mip ← N_range mipmap_count;
     (if D
      then shift_move
             (mip_deswizzled_offset width height depth block_dim
                bytes_per_pixel mipmap_count layer mip)
             (mip_swizzled_offset width height depth block_dim bh0
                bytes_per_pixel mipmap_count layer_count layer mip)
      else shift_move
             (mip_swizzled_offset width height depth block_dim bh0
                bytes_per_pixel mipmap_count layer_count layer mip)
             (mip_deswizzled_offset width height depth block_dim
                bytes_per_pixel mipmap_count layer mip))
       <$> mip_moves width height depth block_dim bh0 bytes_per_pixel D mip).
Proof. by destruct D. Qed.

Lemma aligned_next_layer i :
  (1 <? layer_count) = true -> i * LS + sumN swz (N_range mipmap_count) <= 2 ^ 62 ->
  align_layer_size (i * LS + sumN swz (N_range mipmap_count)) height depth bh0 1
  = (i + 1) * LS.
Proof.
  intros Hl Hle. rewrite align_layer_size_eq
    by (done || by eapply resolved_block_height_mip0_valid).
  pose proof (align_bounds _ _ _ _ _ _ _ _ Hvalid) as Hb. fold bh0 in Hb.
  clear Hle. unfold LS, layer_swizzled_size. fold swz. rewrite Hl.
  set (B := layer_alignment height bh0) in *.
  set (S := sumN swz (N_range mipmap_count)).
  rewrite N.mul_assoc, cdiv_add_mul by lia. ring.
Qed.

Lemma layer_loop (D : bool) src result k :
  k <= layer_count ->
  layer_count * src_layer D <= size src ->
  size result = layer_count * dst_layer D ->
  for_each (N_range k)
    (fun c i =>
       c ← for_each (N_range mipmap_count)
             (fun c mip =>
                swizzle_mipmap D
                  (mip_dimension width mip (bd_width block_dim))
                  (mip_dimension height mip (bd_height block_dim))
                  (mip_dimension depth mip (bd_depth block_dim))
                  (mip_block_height
                     (mip_dimension height mip (bd_height block_dim)) bh0)
                  (mip_block_depth
                     (mip_dimension depth mip (bd_depth block_dim))
                     (block_depth depth))
                  bytes_per_pixel src c)
             c;
       if 1 <? layer_count then
         if D
         then Ok (mkCursor (cur_dst c)
                    (align_layer_size (cur_src_offset c) height depth bh0 1)
                    (cur_dst_offset c))
         else Ok (mkCursor (cur_dst c) (cur_src_offset c)
                    (align_layer_size (cur_dst_offset c) height depth bh0 1))
       else Ok c)
    (mkCursor result 0 0)
  = r ← apply_moves src
          (layer ← N_range k;
           mip ← N_range mipmap_count;
           shift_move (layer * dst_layer D + sumN (dst_mip D) (N_range mip))
             (layer * src_layer D + sumN (src_mip D) (N_range mip))
             <$> mip_moves width height depth block_dim bh0 bytes_per_pixel
                   D mip)
          result;
    Ok (mkCursor r (k * src_layer D) (k * dst_layer D)).
Proof.
  intros Hk Hsrc Hres. revert Hk.
  pose proof (src_sum_le D mipmap_count
                ltac:(lia)) as [Hs1 Hs2].
  pose proof (dst_sum_le D mipmap_count
                ltac:(lia)) as [Hd1 Hd2].
  fold bh0 in Hs1, Hs2, Hd1, Hd2. fold swz lin in Hs1, Hd1.
  fold LS LL in Hs1, Hs2, Hd1, Hd2.
  fold (src_mip D) in Hs1. fold (dst_mip D) in Hd1.
  fold (src_layer D) in Hs1, Hs2. fold (dst_layer D) in Hd1, Hd2.
  change (2 ^ 54) with 18014398509481984 in Hs2, Hd2.
  assert (layer_count <= 256) as Hl by apply Hrep.
  induction k as [|k IH] using N.peano_ind; intros Hk.
  - done.
  - rewrite N_range_S, for_each_app, IH by lia.
    rewrite bind_app, apply_moves_app.
    destruct (apply_moves src _ result) as [r| |] eqn:Hr; simpl; [|done..].
    pose proof (apply_moves_length _ _ _ _ Hr) as Hlen.
    assert (size r = size result) as Hsr by (unfold size; by rewrite Hlen).
    assert (k * src_layer D + src_layer D <= layer_count * src_layer D)
      as Hks by nia.
    assert (k * dst_layer D + dst_layer D <= layer_count * dst_layer D)
      as Hkd by nia.
    assert (layer_count * src_layer D <= 4611686018427387904) as Hls by nia.
    assert (layer_count * dst_layer D <= 4611686018427387904) as Hld by nia.
    rewrite (mip_loop D src r);
      fold bh0 swz lin LS LL; fold (src_mip D) (dst_mip D);
      fold (src_layer D) (dst_layer D);
      [|lia|lia|rewrite Hsr, Hres; lia
       |change (2 ^ 62) with 4611686018427387904; lia
       |change (2 ^ 62) with 4611686018427387904; rewrite Hsr, Hres; lia].
    rewrite app_nil_r.
    destruct (apply_moves src _ r) as [r'| |]; simpl; [|done..].
    destruct (1 <? layer_count) eqn:Hlc.
    + unfold src_layer, dst_layer, src_mip, dst_mip in *.
      assert (LL = sumN lin (N_range mipmap_count)) as HLL by done.
      destruct D; cbn [cur_dst cur_src_offset cur_dst_offset mbind
                         outcome_bind]; do 2 f_equal; try lia.
      all: etrans; [apply aligned_next_layer|lia]; [done|].
      all: change (2 ^ 62) with 4611686018427387904; lia.
    + assert (src_layer D = sumN (src_mip D) (N_range mipmap_count)) as Hse.
      { unfold src_layer, LS, LL, layer_swizzled_size, layer_deswizzled_size.
        rewrite Hlc. by destruct D. }
      assert (dst_layer D = sumN (dst_mip D) (N_range mipmap_count)) as Hde.
      { unfold dst_layer, LS, LL, layer_swizzled_size, layer_deswizzled_size.
        rewrite Hlc. by destruct D. }
      cbn [mbind outcome_bind]. do 2 f_equal; lia.
Qed.

Lemma swizzle_layers_moves (D : bool) src result :
  layer_count * src_layer D <= size src ->
  size result = layer_count * dst_layer D ->
  swizzle_layers D width height depth src result block_dim bh0
    bytes_per_pixel mipmap_count layer_count
  = r ← apply_moves src
          (surface_moves width height depth block_dim bh0 bytes_per_pixel
             mipmap_count layer_count D)
          result;
    Ok (mkCursor r (layer_count * src_layer D) (layer_count * dst_layer D)).
Proof.
  intros Hsrc Hres. unfold swizzle_layers. cbv zeta.
  etrans; [by apply layer_loop|].
  unfold surface_moves.
  rewrite (list_bind_ext_in _ _ _ (fun layer _ => layer_moves_eq D layer)).
  done.
Qed.

Lemma surface_sizes_layers :
  swizzled_surface_size width height depth block_dim block_height_mip0
    bytes_per_pixel mipmap_count layer_count = layer_count * LS
  /\ deswizzled_surface_size width height depth block_dim bytes_per_pixel
       mipmap_count layer_count = layer_count * LL.
Proof.
  rewrite (swizzled_surface_size_eq _ _ _ _ _ _ _ _ Hvalid Hrep).
  rewrite (deswizzled_surface_size_eq _ _ _ _ _ _ _ _ Hvalid Hrep).
  unfold LS, LL, layer_swizzled_size, layer_deswizzled_size.
  fold bh0 swz lin. split; [|lia].
  destruct (N.ltb_spec 1 layer_count); [lia|].
  destruct Hvalid. assert (layer_count = 1) as -> by lia. lia.
Qed.

(** The two surface transfers as moves into a zeroed vector. *)
Lemma surface_transfer_moves (D : bool) src :
  (if D
   then deswizzle_surface width height depth src block_dim block_height_mip0
          bytes_per_pixel mipmap_count layer_count
   else swizzle_surface width height depth src block_dim block_height_mip0
          bytes_per_pixel mipmap_count layer_count)
  = if size src <? layer_count * src_layer D then NotEnoughData
    else apply_moves src
           (surface_moves width height depth block_dim bh0 bytes_per_pixel
              mipmap_count layer_count D)
           (zeroed (layer_count * dst_layer D)).
Proof.
  destruct surface_sizes_layers as [HS HL].
  assert ((if D
           then deswizzle_surface width height depth src block_dim
                  block_height_mip0 bytes_per_pixel mipmap_count layer_count
           else swizzle_surface width height depth src block_dim
                  block_height_mip0 bytes_per_pixel mipmap_count layer_count)
          = (result ← surface_destination D width height depth block_dim
                         block_height_mip0 bytes_per_pixel mipmap_count
                         layer_count src;
             swizzle_surface_inner D width height depth src result block_dim
               block_height_mip0 bytes_per_pixel mipmap_count layer_count))
    as -> by (by destruct D).
  unfold surface_destination. rewrite HS, HL.
  replace (if D then layer_count * LS else layer_count * LL)
    with (layer_count * src_layer D) by (by destruct D).
  replace (if D then layer_count * LL else layer_count * LS)
    with (layer_count * dst_layer D) by (by destruct D).
  destruct (N.ltb_spec (size src) (layer_count * src_layer D)); [done|].
  cbn [mbind outcome_bind]. rewrite swizzle_surface_inner_resolved.
  fold bh0. rewrite swizzle_layers_moves by (done || apply size_zeroed).
  by destruct (apply_moves _ _ _).
Qed.
End surface_loops.

(** ** The address mapping of a surface is injective and bounded *)

Lemma prefix_unique (f : N -> N) a a' k k' :
  a < f k -> a' < f k' ->
  sumN f (N_range k) + a = sumN f (N_range k') + a' -> k = k'.
Proof.
  intros Ha Ha' Heq.
  destruct (N.lt_trichotomy k k') as [Hlt|[Heq'|Hgt]]; [|done|].
  - pose proof (sumN_N_range_mono f (N.succ k) k' ltac:(lia)) as Hm.
    rewrite sumN_N_range_S in Hm. lia.
  - pose proof (sumN_N_range_mono f (N.succ k') k ltac:(lia)) as Hm.
    rewrite sumN_N_range_S in Hm. lia.
Qed.

Lemma prefix_find (f : N -> N) n r :
  r < sumN f (N_range n) ->
  exists k, k < n /\ sumN f (N_range k) <= r < sumN f (N_range k) + f k.
Proof.
  induction n as [|n IH] using N.peano_ind; intros Hr.
  - simpl in Hr. lia.
  - rewrite sumN_N_range_S in Hr.
    destruct (decide (r < sumN f (N_range n))) as [Hlt|Hge].
    + destruct (IH Hlt) as (k & Hk & Hkr). exists k. split; [lia|done].
    + exists n. split; [lia|]. lia.
Qed.

Section surface_mapping_facts.
Context (width height depth : N) (block_dim : BlockDim)
  (block_height_mip0 : option BlockHeight)
  (bytes_per_pixel mipmap_count layer_count : N).
Context
  (Hvalid : valid_descriptor width height depth block_dim block_height_mip0
              bytes_per_pixel mipmap_count layer_count)
  (Hrep : representable width height depth block_dim
            mipmap_count layer_count).

Let bh0 := resolved_block_height_mip0 height depth block_dim block_height_mip0.
Let swz := mip_swizzled_size width height depth block_dim bh0 bytes_per_pixel.
Let lin := mip_deswizzled_size width height depth block_dim bytes_per_pixel.
Let LS := layer_swizzled_size width height depth block_dim bh0
            bytes_per_pixel mipmap_count layer_count.
Let LL := layer_deswizzled_size width height depth block_dim
            bytes_per_pixel mipmap_count.
Let mw mip := mip_dimension width mip (bd_width block_dim).
Let mh mip := mip_dimension height mip (bd_height block_dim).
Let md mip := mip_dimension depth mip (bd_depth block_dim).
Let mbh mip := mip_block_height (mh mip) bh0.
Let mbd mip := mip_block_depth (md mip) (block_depth depth).
Let inside := in_surface width height depth block_dim bytes_per_pixel
                mipmap_count layer_count.
Let address := surface_address width height depth block_dim bh0
                 bytes_per_pixel mipmap_count layer_count.
Let linear := surface_linear width height depth block_dim bytes_per_pixel
                mipmap_count.
Let moves := surface_moves width height depth block_dim bh0 bytes_per_pixel
               mipmap_count layer_count.

Lemma mip_facts mip :
  1 <= mw mip <= 16384 /\ 1 <= mh mip <= 16384 /\ 1 <= md mip <= 16384 /\
  valid_block_height (mbh mip) /\ valid_block_depth (mbd mip) /\
  1 <= bytes_per_pixel <= 16 /\
  swz mip = cdiv (mw mip * bytes_per_pixel) 64
            * (cdiv (mh mip) (mbh mip * 8) * mbh mip)
            * (cdiv (md mip) (mbd mip) * mbd mip) * 512 /\
  lin mip = mw mip * mh mip * md mip * bytes_per_pixel.
Proof.
  pose proof (mip_params _ _ _ _ _ _ _ _ Hvalid Hrep mip) as (Hw & Hh & Hd & Hbh).
  pose proof (mip_depth_params _ _ _ _ _ _ _ _ Hvalid Hrep mip) as [Hbd Hround].
  cbv zeta in *. fold bh0 in Hbh.
  repeat (split; [done || apply Hvalid|]).
  split.
  - unfold swz, bh0. rewrite (proj1 (mip_swizzled_size_eq _ _ _ _ _ _ _ _
                                       Hvalid Hrep mip)).
    unfold swizzled_mip_size_exact, mbd, mbh, md, mh, mw, bh0.
    by rewrite Hround.
  - unfold lin. by rewrite (mip_deswizzled_size_eq _ _ _ _ _ _ _ _
                              Hvalid Hrep mip).
Qed.

Lemma elem_of_surface_moves (D : bool) m :
  m ∈ moves D <->
  exists layer mip x y z,
    inside layer mip x y z /\
    m = surface_move width height depth block_dim bh0 bytes_per_pixel
          mipmap_count layer_count D layer mip x y z.
Proof.
  unfold moves, surface_moves. rewrite list_elem_of_bind. split.
  - intros (layer & Hm & Hl%elem_of_N_range).
    apply list_elem_of_bind in Hm as (mip & Hm & Hmip%elem_of_N_range).
    apply list_elem_of_fmap in Hm as (m0 & -> & Hm0).
    destruct (mip_facts mip) as (Hw & Hh & Hd & Hbh & Hbd & Hb & _).
    apply (elem_of_inner_moves (mw mip) (mh mip) (md mip) (mbh mip) (mbd mip)
             bytes_per_pixel (proj2 Hw) (proj2 Hh) (proj2 Hd) (proj2 Hb)
             Hbh Hbd D m0) in Hm0 as (x & y & z & Hx & Hy & Hz & ->).
    exists layer, mip, x, y, z. split; [done|].
    unfold surface_move, surface_address, surface_linear, mip_move.
    destruct D; unfold shift_move; cbn [fst snd]; f_equal; apply N.add_comm.
  - intros (layer & mip & x & y & z & (Hl & Hmip & Hx & Hy & Hz) & ->).
    exists layer. split; [|by apply elem_of_N_range].
    apply list_elem_of_bind. exists mip. split; [|by apply elem_of_N_range].
    destruct (mip_facts mip) as (Hw & Hh & Hd & Hbh & Hbd & Hb & _).
    apply list_elem_of_fmap.
    exists (mip_move D (mw mip) (mh mip) (mbh mip) (mbd mip) bytes_per_pixel
              x y z).
    split.
    + unfold surface_move, surface_address, surface_linear, mip_move.
      destruct D; unfold shift_move; cbn [fst snd]; f_equal; apply N.add_comm.
    + apply (elem_of_inner_moves (mw mip) (mh mip) (md mip) (mbh mip)
               (mbd mip) bytes_per_pixel (proj2 Hw) (proj2 Hh) (proj2 Hd)
               (proj2 Hb) Hbh Hbd D).
      eauto 10.
Qed.

Lemma swizzled_rest_lt mip x y z :
  mip < mipmap_count ->
  x < mw mip * bytes_per_pixel -> y < mh mip -> z < md mip ->
  mip_address (mw mip) (mh mip) (mbh mip) (mbd mip) bytes_per_pixel x y z
  < swz mip
  /\ sumN swz (N_range mip) + swz mip <= LS.
Proof.
  intros Hmip Hx Hy Hz.
  destruct (mip_facts mip) as (Hw & Hh & Hd & Hbh & Hbd & Hb & Hswz & _).
  pose proof (valid_block_height_bounds _ Hbh).
  pose proof (valid_block_depth_bounds _ Hbd).
  split.
  - rewrite Hswz. apply mip_address_lt; lia.
  - rewrite <-sumN_N_range_S.
    etrans; [apply (sumN_N_range_mono swz (N.succ mip) mipmap_count); lia|].
    apply (LS_bounds _ _ _ _ _ _ _ _ Hvalid Hrep).
Qed.

Lemma linear_rest_lt mip x y z :
  mip < mipmap_count ->
  x < mw mip * bytes_per_pixel -> y < mh mip -> z < md mip ->
  mip_linear (mw mip) (mh mip) bytes_per_pixel x y z < lin mip
  /\ sumN lin (N_range mip) + lin mip <= LL.
Proof.
  intros Hmip Hx Hy Hz.
  destruct (mip_facts mip) as (_ & _ & _ & _ & _ & _ & _ & Hlin).
  split.
  - rewrite Hlin. by apply mip_linear_lt.
  - rewrite <-sumN_N_range_S.
    apply (sumN_N_range_mono lin (N.succ mip) mipmap_count). lia.
Qed.

Lemma surface_address_lt layer mip x y z :
  inside layer mip x y z -> address layer mip x y z < layer_count * LS.
Proof.
  intros (Hl & Hmip & Hx & Hy & Hz).
  destruct (swizzled_rest_lt mip x y z Hmip Hx Hy Hz) as [H1 H2].
  unfold address, surface_address, mip_swizzled_offset.
  fold swz LS (mw mip) (mh mip) (md mip). fold (mbh mip) (mbd mip).
  set (a := mip_address _ _ _ _ _ _ _ _) in *.
  set (p := sumN swz (N_range mip)) in *.
  assert (layer * LS + LS <= layer_count * LS) by nia. lia.
Qed.

Lemma surface_linear_lt layer mip x y z :
  inside layer mip x y z -> linear layer mip x y z < layer_count * LL.
Proof.
  intros (Hl & Hmip & Hx & Hy & Hz).
  destruct (linear_rest_lt mip x y z Hmip Hx Hy Hz) as [H1 H2].
  unfold linear, surface_linear, mip_deswizzled_offset.
  fold lin LL (mw mip) (mh mip).
  set (a := mip_linear _ _ _ _ _ _) in *.
  set (p := sumN lin (N_range mip)) in *.
  assert (layer * LL + LL <= layer_count * LL) by nia. lia.
Qed.

Lemma surface_address_inj layer mip x y z layer' mip' x' y' z' :
  inside layer mip x y z -> inside layer' mip' x' y' z' ->
  address layer mip x y z = address layer' mip' x' y' z' ->
  layer = layer' /\ mip = mip' /\ x = x' /\ y = y' /\ z = z'.
Proof.
  intros (Hl & Hmip & Hx & Hy & Hz) (Hl' & Hmip' & Hx' & Hy' & Hz').
  destruct (swizzled_rest_lt mip x y z Hmip Hx Hy Hz) as [H1 H2].
  destruct (swizzled_rest_lt mip' x' y' z' Hmip' Hx' Hy' Hz') as [H1' H2'].
  unfold address, surface_address, mip_swizzled_offset.
  fold swz LS (mw mip) (mh mip) (md mip) (mw mip') (mh mip') (md mip').
  fold (mbh mip) (mbd mip) (mbh mip') (mbd mip').
  intros Heq.
  assert (sumN swz (N_range mip)
          + mip_address (mw mip) (mh mip) (mbh mip) (mbd mip)
              bytes_per_pixel x y z
          = sumN swz (N_range mip')
            + mip_address (mw mip') (mh mip') (mbh mip') (mbd mip')
                bytes_per_pixel x' y' z' /\ layer = layer') as [Hrest ->].
  { apply (radix_inj _ _ _ _ LS); [lia|lia|].
    rewrite !(N.mul_comm LS). lia. }
  split; [done|].
  pose proof (prefix_unique swz _ _ _ _ H1 H1' Hrest) as <-.
  split; [done|].
  destruct (mip_facts mip) as (_ & _ & _ & Hbh & Hbd & _).
  eapply (mip_address_inj (mw mip) (mh mip) (md mip) (mbh mip) (mbd mip)
            bytes_per_pixel); try done.
  - by apply valid_block_height_bounds.
  - by apply valid_block_depth_bounds.
  - lia.
Qed.

Lemma surface_linear_inj layer mip x y z layer' mip' x' y' z' :
  inside layer mip x y z -> inside layer' mip' x' y' z' ->
  linear layer mip x y z = linear layer' mip' x' y' z' ->
  layer = layer' /\ mip = mip' /\ x = x' /\ y = y' /\ z = z'.
Proof.
  intros (Hl & Hmip & Hx & Hy & Hz) (Hl' & Hmip' & Hx' & Hy' & Hz').
  destruct (linear_rest_lt mip x y z Hmip Hx Hy Hz) as [H1 H2].
  destruct (linear_rest_lt mip' x' y' z' Hmip' Hx' Hy' Hz') as [H1' H2'].
  unfold linear, surface_linear, mip_deswizzled_offset.
  fold lin LL (mw mip) (mh mip) (mw mip') (mh mip').
  intros Heq.
  assert (sumN lin (N_range mip)
          + mip_linear (mw mip) (mh mip) bytes_per_pixel x y z
          = sumN lin (N_range mip')
            + mip_linear (mw mip') (mh mip') bytes_per_pixel x' y' z'
          /\ layer = layer') as [Hrest ->].
  { apply (radix_inj _ _ _ _ LL); [lia|lia|].
    rewrite !(N.mul_comm LL). lia. }
  split; [done|].
  pose proof (prefix_unique lin _ _ _ _ H1 H1' Hrest) as <-.
  split; [done|].
  eapply (mip_linear_inj (mw mip) (mh mip) bytes_per_pixel); try done. lia.
Qed.

Lemma surface_linear_surj i :
  i < layer_count * LL ->
  exists layer mip x y z, inside layer mip x y z /\ linear layer mip x y z = i.
Proof.
  intros Hi. assert (1 <= LL) as HLL by nia.
  assert (i mod LL < sumN lin (N_range mipmap_count)) as Hrest
    by (change (sumN lin (N_range mipmap_count)) with LL; apply N.mod_lt; lia).
  destruct (prefix_find lin mipmap_count _ Hrest) as (mip & Hmip & Hlo & Hhi).
  destruct (mip_facts mip) as (_ & _ & _ & _ & _ & _ & _ & Hlin).
  destruct (mip_linear_surj (mw mip) (mh mip) (md mip) bytes_per_pixel
              (i mod LL - sumN lin (N_range mip)))
    as (x & y & z & Hx & Hy & Hz & Heq); [rewrite <-Hlin; lia|].
  exists (i / LL), mip, x, y, z. split.
  - split; [|done]. apply N.Div0.div_lt_upper_bound. lia.
  - unfold linear, surface_linear, mip_deswizzled_offset.
    fold lin LL (mw mip) (mh mip). rewrite Heq.
    pose proof (N.div_mod i LL ltac:(lia)). lia.
Qed.
End surface_mapping_facts.

(** ** Surface transfers *)

Section surface_transfers.
Context (width height depth : N) (block_dim : BlockDim)
  (block_height_mip0 : option BlockHeight)
  (bytes_per_pixel mipmap_count layer_count : N).
Context
  (Hvalid : valid_descriptor width height depth block_dim block_height_mip0
              bytes_per_pixel mipmap_count layer_count)
  (Hrep : representable width height depth block_dim
            mipmap_count layer_count).

Let bh0 := resolved_block_height_mip0 height depth block_dim block_height_mip0.
Let SWZ := swizzled_surface_size width height depth block_dim
             block_height_mip0 bytes_per_pixel mipmap_count layer_count.
Let LIN := deswizzled_surface_size width height depth block_dim
             bytes_per_pixel mipmap_count layer_count.
Let inside := in_surface width height depth block_dim bytes_per_pixel
                mipmap_count layer_count.
Let address := surface_address width height depth block_dim bh0
                 bytes_per_pixel mipmap_count layer_count.
Let linear := surface_linear width height depth block_dim bytes_per_pixel
                mipmap_count.
Let moves := surface_moves width height depth block_dim bh0 bytes_per_pixel
               mipmap_count layer_count.
Let transfer (D : bool) src :=
  if D
  then deswizzle_surface width height depth src block_dim block_height_mip0
         bytes_per_pixel mipmap_count layer_count
  else swizzle_surface width height depth src block_dim block_height_mip0
         bytes_per_pixel mipmap_count layer_count.
Let src_total (D : bool) := if D then SWZ else LIN.
Let dst_total (D : bool) := if D then LIN else SWZ.

Lemma transfer_moves (D : bool) src :
  transfer D src
  = if size src <? src_total D then NotEnoughData
    else apply_moves src (moves D) (zeroed (dst_total D)).
Proof.
  unfold transfer.
  rewrite (surface_transfer_moves _ _ _ _ _ _ _ _ Hvalid Hrep D src).
  destruct (surface_sizes_layers _ _ _ _ _ _ _ _ Hvalid Hrep) as [HS HL].
  unfold src_total, dst_total, SWZ, LIN. rewrite HS, HL. by destruct D.
Qed.

Lemma elem_of_moves (D : bool) m :
  m ∈ moves D <->
  exists layer mip x y z,
    inside layer mip x y z /\
    m = if D then (linear layer mip x y z, address layer mip x y z)
        else (address layer mip x y z, linear layer mip x y z).
Proof. apply (elem_of_surface_moves _ _ _ _ _ _ _ _ Hvalid Hrep). Qed.

Lemma address_lt layer mip x y z :
  inside layer mip x y z -> address layer mip x y z < SWZ.
Proof.
  intros Hin. unfold SWZ.
  rewrite (proj1 (surface_sizes_layers _ _ _ _ _ _ _ _ Hvalid Hrep)).
  by apply (surface_address_lt _ _ _ _ _ _ _ _ Hvalid Hrep).
Qed.

Lemma linear_lt layer mip x y z :
  inside layer mip x y z -> linear layer mip x y z < LIN.
Proof.
  intros Hin. unfold LIN.
  rewrite (proj2 (surface_sizes_layers _ _ _ _ _ _ _ _ Hvalid Hrep)).
  by apply (surface_linear_lt _ _ _ _ _ _ _ _ Hvalid Hrep).
Qed.

Lemma moves_in_bounds (D : bool) m :
  m ∈ moves D -> m.1 < dst_total D /\ m.2 < src_total D.
Proof.
  intros (layer & mip & x & y & z & Hin & ->)%elem_of_moves.
  pose proof (address_lt _ _ _ _ _ Hin). pose proof (linear_lt _ _ _ _ _ Hin).
  by destruct D.
Qed.

Lemma moves_functional (D : bool) m1 m2 :
  m1 ∈ moves D -> m2 ∈ moves D -> m1.1 = m2.1 -> m1.2 = m2.2.
Proof.
  intros (l1 & k1 & x1 & y1 & z1 & Hin1 & ->)%elem_of_moves
    (l2 & k2 & x2 & y2 & z2 & Hin2 & ->)%elem_of_moves.
  destruct D; simpl; intros Heq.
  - apply (surface_linear_inj _ _ _ _ _ _ _ _ Hvalid Hrep) in Heq
        as (-> & -> & -> & -> & ->); done.
  - apply (surface_address_inj _ _ _ _ _ _ _ _ Hvalid Hrep) in Heq
        as (-> & -> & -> & -> & ->); done.
Qed.

(** A transfer from a long enough source succeeds, and its result is
    described move by move. *)
Lemma transfer_ok (D : bool) src :
  src_total D <= size src ->
  exists r,
    transfer D src = Ok r /\ size r = dst_total D /\
    (forall i, i ∉ (moves D).*1 ->
               r !! N.to_nat i = zeroed (dst_total D) !! N.to_nat i) /\
    (forall m, m ∈ moves D -> r !! N.to_nat m.1 = src !! N.to_nat m.2).
Proof.
  intros Hsrc. rewrite transfer_moves.
  destruct (N.ltb_spec (size src) (src_total D)); [lia|].
  assert (forall m, m ∈ moves D ->
            m.1 < size (zeroed (dst_total D)) /\ m.2 < size src) as Hb.
  { intros m Hm%moves_in_bounds. rewrite size_zeroed.
    destruct Hm. split; [done|lia]. }
  destruct (apply_moves_total src (moves D) (zeroed (dst_total D)) Hb)
    as [r Hr].
  exists r. split; [done|]. split.
  - unfold size. rewrite (apply_moves_length _ _ _ _ Hr).
    apply size_zeroed.
  - split.
    + intros i Hi. by apply (apply_moves_other _ _ _ _ _ Hr).
    + intros m Hm. apply (apply_moves_lookup _ _ _ _ _ Hr); [|done].
      apply moves_functional.
Qed.

Lemma transfer_not_enough_data (D : bool) src :
  transfer D src = NotEnoughData <-> size src < src_total D.
Proof.
  rewrite transfer_moves.
  destruct (N.ltb_spec (size src) (src_total D)); split; try done.
  - intros H'. by apply apply_moves_sound in H'.
  - lia.
Qed.

Lemma transfer_prefix (D : bool) src :
  src_total D <= size src ->
  transfer D src = transfer D (take (N.to_nat (src_total D)) src).
Proof.
  intros Hsrc. rewrite !transfer_moves.
  assert (size (take (N.to_nat (src_total D)) src) = src_total D) as Hsz
    by (unfold size in *; rewrite length_take; lia).
  rewrite Hsz, N.ltb_irrefl.
  destruct (N.ltb_spec (size src) (src_total D)); [lia|].
  apply apply_moves_src_ext. intros m [_ Hm]%moves_in_bounds.
  rewrite lookup_take_lt; [done|lia].
Qed.

Lemma round_trip b :
  size b = LIN ->
  exists s r, transfer false b = Ok s /\ transfer true s = Ok r /\ r = b.
Proof.
  intros Hb.
  destruct (transfer_ok false b) as (s & Hs & Hss & _ & Hsm);
    [simpl; lia|].
  destruct (transfer_ok true s) as (r & Hr & Hrs & _ & Hrm);
    [simpl in *; lia|].
  exists s, r. split; [done|]. split; [done|].
  apply list_eq. intros j. simpl in Hrs.
  destruct (decide (N.of_nat j < LIN)) as [Hj|Hj].
  - destruct (surface_linear_surj _ _ _ _ _ _ _ _ Hvalid Hrep (N.of_nat j))
      as (layer & mip & x & y & z & Hin & Hlin).
    { rewrite <-(proj2 (surface_sizes_layers _ _ _ _ _ _ _ _ Hvalid Hrep)).
      done. }
    fold inside in Hin. fold linear in Hlin.
    assert ((linear layer mip x y z, address layer mip x y z) ∈ moves true)
      as H1%Hrm by (apply elem_of_moves; eauto 10).
    assert ((address layer mip x y z, linear layer mip x y z) ∈ moves false)
      as H2%Hsm by (apply elem_of_moves; eauto 10).
    cbn [fst snd] in H1, H2. rewrite Hlin, Nat2N.id in H1, H2.
    by rewrite H1, H2.
  - rewrite !lookup_ge_None_2; [done|unfold size in *; lia..].
Qed.

End surface_transfers.



Lemma surface_transfers_resolved
  (width height depth : N) (source : buffer) (block_dim : BlockDim)
  (supplied : option BlockHeight)
  (bytes_per_pixel mipmap_count layer_count : N) :
  let resolved :=
    resolved_block_height_mip0 height depth block_dim supplied in
  swizzled_surface_size width height depth block_dim supplied
    bytes_per_pixel mipmap_count layer_count
  = swizzled_surface_size width height depth block_dim (Some resolved)
      bytes_per_pixel mipmap_count layer_count
  /\ swizzle_surface width height depth source block_dim supplied
       bytes_per_pixel mipmap_count layer_count
     = swizzle_surface width height depth source block_dim (Some resolved)
         bytes_per_pixel mipmap_count layer_count
  /\ deswizzle_surface width height depth source block_dim supplied
       bytes_per_pixel mipmap_count layer_count
     = deswizzle_surface width height depth source block_dim (Some resolved)
         bytes_per_pixel mipmap_count layer_count.
Proof.
  intros resolved.
  assert (swizzled_surface_size width height depth block_dim supplied
            bytes_per_pixel mipmap_count layer_count
          = swizzled_surface_size width height depth block_dim
              (Some resolved) bytes_per_pixel mipmap_count layer_count)
    as Hsize.
  { unfold swizzled_surface_size, resolved, resolved_block_height_mip0.
    destruct (depth =? 1), supplied; reflexivity. }
  assert (forall D result,
            swizzle_surface_inner D width height depth source result
              block_dim supplied bytes_per_pixel mipmap_count layer_count
            = swizzle_surface_inner D width height depth source result
                block_dim (Some resolved) bytes_per_pixel mipmap_count
                layer_count) as Hinner.
  { intros D result. rewrite !swizzle_surface_inner_resolved.
    assert (resolved_block_height_mip0 height depth block_dim (Some resolved)
            = resolved) as ->; [|reflexivity].
    unfold resolved, resolved_block_height_mip0.
    destruct (depth =? 1), supplied; reflexivity. }
  assert (forall D,
            surface_destination D width height depth block_dim supplied
              bytes_per_pixel mipmap_count layer_count source
            = surface_destination D width height depth block_dim
                (Some resolved) bytes_per_pixel mipmap_count layer_count
                source) as Hdest.
  { intros D. unfold surface_destination. rewrite <-Hsize. reflexivity. }
  split; [exact Hsize|]. split.
  - unfold swizzle_surface. apply outcome_bind_ext; [apply Hdest|].
    intros result. apply Hinner.
  - unfold deswizzle_surface. apply outcome_bind_ext; [apply Hdest|].
    intros result. apply Hinner.
Qed.

(** C2, as the code has it: both surface transfers and
    [swizzled_surface_size] resolve the mip-0 block height to the supplied
    value only on a surface of depth one; without a supplied value such a
    surface gets [block_height_mip0] of its height in blocks, and a
    surface of any other depth gets block height one whatever was
    supplied.  Supplying a value is the same as supplying the resolved
    one.  Every mip level, mip 0 included, is then laid out with
    [mip_block_height] of its height in blocks and the resolved value:
    that is the block height of the addresses at which the transfers
    store and read each byte. *)
Theorem block_height_mip0_resolution
  (width height depth : N) (source : buffer) (block_dim : BlockDim)
  (supplied : option BlockHeight)
  (bytes_per_pixel mipmap_count layer_count : N) :
  valid_descriptor width height depth block_dim supplied bytes_per_pixel
    mipmap_count layer_count ->
  representable width height depth block_dim mipmap_count layer_count ->
  let resolved :=
    if depth =? 1
    then match supplied with
         | Some bh => bh
         | None => block_height_mip0 (div_round_up height (bd_height block_dim))
         end
    else BlockHeight.One in
  let mip_width := mip_dimension width 0 (bd_width block_dim) in
  let mip_height := mip_dimension height 0 (bd_height block_dim) in
  let mip_depth := mip_dimension depth 0 (bd_depth block_dim) in
  let inside :=
    in_surface width height depth block_dim bytes_per_pixel mipmap_count
      layer_count in
  let address :=
    surface_address width height depth block_dim resolved bytes_per_pixel
      mipmap_count layer_count in
  let linear :=
    surface_linear width height depth block_dim bytes_per_pixel
      mipmap_count in
  let swizzled_size :=
    swizzled_surface_size width height depth block_dim supplied
      bytes_per_pixel mipmap_count layer_count in
  let deswizzled_size :=
    deswizzled_surface_size width height depth block_dim bytes_per_pixel
      mipmap_count layer_count in
  valid_block_height resolved
  /\ swizzled_size
     = swizzled_surface_size width height depth block_dim (Some resolved)
         bytes_per_pixel mipmap_count layer_count
  /\ (forall x y z,
        address 0 0 x y z
        = mip_address mip_width mip_height
            (mip_block_height mip_height resolved)
            (mip_block_depth mip_depth (block_depth depth))
            bytes_per_pixel x y z)
  /\ (deswizzled_size <= size source ->
      exists result,
        swizzle_surface width height depth source block_dim supplied
          bytes_per_pixel mipmap_count layer_count = Ok result
        /\ swizzle_surface width height depth source block_dim
             (Some resolved) bytes_per_pixel mipmap_count layer_count
           = Ok result
        /\ forall layer mip x y z,
             inside layer mip x y z ->
             result !! N.to_nat (address layer mip x y z)
             = source !! N.to_nat (linear layer mip x y z))
  /\ (swizzled_size <= size source ->
      exists result,
        deswizzle_surface width height depth source block_dim supplied
          bytes_per_pixel mipmap_count layer_count = Ok result
        /\ deswizzle_surface width height depth source block_dim
             (Some resolved) bytes_per_pixel mipmap_count layer_count
           = Ok result
        /\ forall layer mip x y z,
             inside layer mip x y z ->
             result !! N.to_nat (linear layer mip x y z)
             = source !! N.to_nat (address layer mip x y z)).
Proof.
  intros Hvalid Hrep resolved mip_width mip_height mip_depth inside address
    linear swizzled_size deswizzled_size.
  assert (resolved
          = resolved_block_height_mip0 height depth block_dim supplied)
    as Hres.
  { unfold resolved, resolved_block_height_mip0.
    destruct (depth =? 1), supplied; reflexivity. }
  destruct (surface_transfers_resolved width height depth source block_dim
              supplied bytes_per_pixel mipmap_count layer_count)
    as (Hsize & Hswizzle & Hdeswizzle).
  cbv zeta in Hsize, Hswizzle, Hdeswizzle.
  rewrite <-Hres in Hsize, Hswizzle, Hdeswizzle.
  split.
  { rewrite Hres.
    exact (resolved_block_height_mip0_valid _ _ _ _ _ _ _ _ Hvalid). }
  split; [exact Hsize|]. split.
  { intros x y z. unfold address, surface_address, mip_swizzled_offset.
    change (N_range 0) with (@nil N). cbn [sumN foldr].
    rewrite N.mul_0_l, !N.add_0_l. reflexivity. }
  split.
  - intros Hsrc.
    destruct (transfer_ok _ _ _ _ _ _ _ _ Hvalid Hrep false source Hsrc)
      as (r & Hr & _ & _ & Hm).
    cbv beta iota in Hr. exists r. split; [exact Hr|].
    split; [rewrite <-Hswizzle; exact Hr|].
    intros layer mip x y z Hin. unfold address. rewrite Hres.
    apply (Hm (surface_address width height depth block_dim
                 (resolved_block_height_mip0 height depth block_dim supplied)
                 bytes_per_pixel mipmap_count layer_count layer mip x y z,
               linear layer mip x y z)).
    apply (elem_of_moves _ _ _ _ _ _ _ _ Hvalid Hrep false).
    exists layer, mip, x, y, z. split; [exact Hin|reflexivity].
  - intros Hsrc.
    destruct (transfer_ok _ _ _ _ _ _ _ _ Hvalid Hrep true source Hsrc)
      as (r & Hr & _ & _ & Hm).
    cbv beta iota in Hr. exists r. split; [exact Hr|].
    split; [rewrite <-Hdeswizzle; exact Hr|].
    intros layer mip x y z Hin. unfold address. rewrite Hres.
    apply (Hm (linear layer mip x y z,
               surface_address width height depth block_dim
                 (resolved_block_height_mip0 height depth block_dim supplied)
                 bytes_per_pixel mipmap_count layer_count layer mip x y z)).
    apply (elem_of_moves _ _ _ _ _ _ _ _ Hvalid Hrep true).
    exists layer, mip, x, y, z. split; [exact Hin|reflexivity].
Qed.

Lemma block_height_mip0_resolution_witness :
  let source := replicate 585 Byte.x2a in
  let supplied := Some BlockHeight.Sixteen in
  let resolved :=
    if 1 =? 1
    then match supplied with
         | Some bh => bh
         | None =>
             block_height_mip0
               (div_round_up 9 (bd_height block_dim_uncompressed))
         end
    else BlockHeight.One in
  let mip_width := mip_dimension 65 0 (bd_width block_dim_uncompressed) in
  let mip_height := mip_dimension 9 0 (bd_height block_dim_uncompressed) in
  let mip_depth := mip_dimension 1 0 (bd_depth block_dim_uncompressed) in
  let inside := in_surface 65 9 1 block_dim_uncompressed 1 1 1 in
  let address :=
    surface_address 65 9 1 block_dim_uncompressed resolved 1 1 1 in
  let linear := surface_linear 65 9 1 block_dim_uncompressed 1 1 in
  let swizzled_size :=
    swizzled_surface_size 65 9 1 block_dim_uncompressed supplied 1 1 1 in
  let deswizzled_size :=
    deswizzled_surface_size 65 9 1 block_dim_uncompressed 1 1 1 in
  valid_block_height resolved
  /\ swizzled_size
     = swizzled_surface_size 65 9 1 block_dim_uncompressed (Some resolved)
         1 1 1
  /\ (forall x y z,
        address 0 0 x y z
        = mip_address mip_width mip_height
            (mip_block_height mip_height resolved)
            (mip_block_depth mip_depth (block_depth 1)) 1 x y z)
  /\ (deswizzled_size <= size source ->
      exists result,
        swizzle_surface 65 9 1 source block_dim_uncompressed supplied 1 1 1
        = Ok result
        /\ swizzle_surface 65 9 1 source block_dim_uncompressed
             (Some resolved) 1 1 1 = Ok result
        /\ forall layer mip x y z,
             inside layer mip x y z ->
             result !! N.to_nat (address layer mip x y z)
             = source !! N.to_nat (linear layer mip x y z))
  /\ (swizzled_size <= size source ->
      exists result,
        deswizzle_surface 65 9 1 source block_dim_uncompressed supplied
          1 1 1 = Ok result
        /\ deswizzle_surface 65 9 1 source block_dim_uncompressed
             (Some resolved) 1 1 1 = Ok result
        /\ forall layer mip x y z,
             inside layer mip x y z ->
             result !! N.to_nat (linear layer mip x y z)
             = source !! N.to_nat (address layer mip x y z)).
Proof.
  apply (block_height_mip0_resolution 65 9 1 (replicate 585 Byte.x2a)
           block_dim_uncompressed (Some BlockHeight.Sixteen) 1 1 1).
  - constructor; simpl; try lia.
    intros bh [= <-]. do 4 right. by left.
  - constructor; simpl; lia.
Defined.

(** On a 65 x 9 x 1 surface with supplied block height 16 the resolved
    value is 16, and mip 0, nine block rows high, is laid out with block
    height 2. *)
Lemma resolved_block_height_clamped_at_mip0 :
  resolved_block_height_mip0 9 1 block_dim_uncompressed
    (Some BlockHeight.Sixteen) = BlockHeight.Sixteen
  /\ mip_block_height (mip_dimension 9 0 (bd_height block_dim_uncompressed))
       BlockHeight.Sixteen = BlockHeight.Two.
Proof. split; by vm_compute. Qed.

(** C10: with a source of at least the required size, both surface
    transfers run to completion: no per-mip [NotEnoughData] is raised and
    no access leaves its vector (the outcome is [Ok], not [OutOfBounds]),
    the result has the computed size, and every offset the loops reach,
    accumulated per mip and aligned per layer, lies below the size that
    the sizing functions give. *)
Theorem surface_transfers_in_bounds
  (width height depth : N) (block_dim : BlockDim)
  (block_height_mip0 : option BlockHeight)
  (bytes_per_pixel mipmap_count layer_count : N) (source : buffer) :
  valid_descriptor width height depth block_dim block_height_mip0
    bytes_per_pixel mipmap_count layer_count ->
  representable width height depth block_dim mipmap_count layer_count ->
  let swizzled_size :=
    swizzled_surface_size width height depth block_dim block_height_mip0
      bytes_per_pixel mipmap_count layer_count in
  let deswizzled_size :=
    deswizzled_surface_size width height depth block_dim bytes_per_pixel
      mipmap_count layer_count in
  (deswizzled_size <= size source ->
   exists result,
     swizzle_surface width height depth source block_dim block_height_mip0
       bytes_per_pixel mipmap_count layer_count = Ok result
     /\ size result = swizzled_size)
  /\ (swizzled_size <= size source ->
      exists result,
        deswizzle_surface width height depth source block_dim
          block_height_mip0 bytes_per_pixel mipmap_count layer_count
        = Ok result
        /\ size result = deswizzled_size)
  /\ (forall layer mip x y z,
        in_surface width height depth block_dim bytes_per_pixel mipmap_count
          layer_count layer mip x y z ->
        surface_address width height depth block_dim
          (resolved_block_height_mip0 height depth block_dim
             block_height_mip0)
          bytes_per_pixel mipmap_count layer_count layer mip x y z
        < swizzled_size
        /\ surface_linear width height depth block_dim bytes_per_pixel
             mipmap_count layer mip x y z
           < deswizzled_size).
Proof.
  intros Hvalid Hrep swizzled_size deswizzled_size. split; [|split].
  - intros Hsrc.
    destruct (transfer_ok _ _ _ _ _ _ _ _ Hvalid Hrep false source Hsrc)
      as (r & Hr & Hsz & _). eauto.
  - intros Hsrc.
    destruct (transfer_ok _ _ _ _ _ _ _ _ Hvalid Hrep true source Hsrc)
      as (r & Hr & Hsz & _). eauto.
  - intros layer mip x y z Hin. split.
    + by apply (address_lt _ _ _ _ _ _ _ _ Hvalid Hrep).
    + by apply (linear_lt _ _ _ _ _ _ _ _ Hvalid Hrep).
Qed.

(** C4: a surface transfer fails with [NotEnoughData] exactly when the
    source is shorter than the size the descriptor requires; the failure
    comes from [surface_destination], before the result vector exists; and
    a longer source gives the result of its required prefix. *)
Theorem not_enough_data_iff
  (width height depth : N) (block_dim : BlockDim)
  (block_height_mip0 : option BlockHeight)
  (bytes_per_pixel mipmap_count layer_count : N) (source : buffer) :
  valid_descriptor width height depth block_dim block_height_mip0
    bytes_per_pixel mipmap_count layer_count ->
  representable width height depth block_dim mipmap_count layer_count ->
  let swizzled_size :=
    swizzled_surface_size width height depth block_dim block_height_mip0
      bytes_per_pixel mipmap_count layer_count in
  let deswizzled_size :=
    deswizzled_surface_size width height depth block_dim bytes_per_pixel
      mipmap_count layer_count in
  let swizzle src :=
    swizzle_surface width height depth src block_dim block_height_mip0
      bytes_per_pixel mipmap_count layer_count in
  let deswizzle src :=
    deswizzle_surface width height depth src block_dim block_height_mip0
      bytes_per_pixel mipmap_count layer_count in
  (swizzle source = NotEnoughData <-> size source < deswizzled_size)
  /\ (deswizzle source = NotEnoughData <-> size source < swizzled_size)
  /\ (size source < deswizzled_size ->
      surface_destination false width height depth block_dim
        block_height_mip0 bytes_per_pixel mipmap_count layer_count source
      = NotEnoughData)
  /\ (size source < swizzled_size ->
      surface_destination true width height depth block_dim
        block_height_mip0 bytes_per_pixel mipmap_count layer_count source
      = NotEnoughData)
  /\ (deswizzled_size <= size source ->
      (exists result, swizzle source = Ok result) /\
      swizzle source = swizzle (take (N.to_nat deswizzled_size) source))
  /\ (swizzled_size <= size source ->
      (exists result, deswizzle source = Ok result) /\
      deswizzle source = deswizzle (take (N.to_nat swizzled_size) source)).
Proof.
  intros Hvalid Hrep swizzled_size deswizzled_size swizzle deswizzle.
  split; [|split; [|split; [|split; [|split]]]].
  - apply (transfer_not_enough_data _ _ _ _ _ _ _ _ Hvalid Hrep false).
  - apply (transfer_not_enough_data _ _ _ _ _ _ _ _ Hvalid Hrep true).
  - intros Hlt. unfold surface_destination.
    fold swizzled_size deswizzled_size.
    by destruct (N.ltb_spec (size source) deswizzled_size); [|lia].
  - intros Hlt. unfold surface_destination.
    fold swizzled_size deswizzled_size.
    by destruct (N.ltb_spec (size source) swizzled_size); [|lia].
  - intros Hsrc. split.
    + destruct (transfer_ok _ _ _ _ _ _ _ _ Hvalid Hrep false source Hsrc)
        as (r & Hr & _). eauto.
    + apply (transfer_prefix _ _ _ _ _ _ _ _ Hvalid Hrep false source Hsrc).
  - intros Hsrc. split.
    + destruct (transfer_ok _ _ _ _ _ _ _ _ Hvalid Hrep true source Hsrc)
        as (r & Hr & _). eauto.
    + apply (transfer_prefix _ _ _ _ _ _ _ _ Hvalid Hrep true source Hsrc).
Qed.


(** C1: swizzling a source of exactly the deswizzled size and
    deswizzling the result gives the source back. *)
Theorem surface_round_trip
  (width height depth : N) (block_dim : BlockDim)
  (block_height_mip0 : option BlockHeight)
  (bytes_per_pixel mipmap_count layer_count : N) (b : buffer) :
  valid_descriptor width height depth block_dim block_height_mip0
    bytes_per_pixel mipmap_count layer_count ->
  representable width height depth block_dim mipmap_count layer_count ->
  size b = deswizzled_surface_size width height depth block_dim
             bytes_per_pixel mipmap_count layer_count ->
  exists swizzled deswizzled,
    swizzle_surface width height depth b block_dim block_height_mip0
      bytes_per_pixel mipmap_count layer_count = Ok swizzled
    /\ deswizzle_surface width height depth swizzled block_dim
         block_height_mip0 bytes_per_pixel mipmap_count layer_count
       = Ok deswizzled
    /\ take (length b) deswizzled = b.
Proof.
  intros Hvalid Hrep Hb.
  destruct (round_trip _ _ _ _ _ _ _ _ Hvalid Hrep b Hb)
    as (s & r & Hs & Hr & ->).
  exists s, b. split; [done|]. split; [done|]. apply firstn_all.
Qed.

Lemma surface_round_trip_witness :
  exists swizzled deswizzled,
    swizzle_surface 1 1 1 [Byte.x2a] block_dim_uncompressed None 1 1 1
    = Ok swizzled
    /\ deswizzle_surface 1 1 1 swizzled block_dim_uncompressed None 1 1 1
       = Ok deswizzled
    /\ take (length [Byte.x2a]) deswizzled = [Byte.x2a].
Proof.
  apply (surface_round_trip 1 1 1 block_dim_uncompressed None 1 1 1
           [Byte.x2a]).
  - constructor; simpl; try lia. discriminate.
  - constructor; simpl; lia.
  - reflexivity.
Defined.

Lemma surface_transfers_in_bounds_witness :
  let swizzled_size :=
    swizzled_surface_size 3 2 1 block_dim_uncompressed None 4 2 2 in
  let deswizzled_size :=
    deswizzled_surface_size 3 2 1 block_dim_uncompressed 4 2 2 in
  (deswizzled_size <= size (replicate 64 Byte.x2a) ->
   exists result,
     swizzle_surface 3 2 1 (replicate 64 Byte.x2a) block_dim_uncompressed
       None 4 2 2 = Ok result
     /\ size result = swizzled_size)
  /\ (swizzled_size <= size (replicate 64 Byte.x2a) ->
      exists result,
        deswizzle_surface 3 2 1 (replicate 64 Byte.x2a)
          block_dim_uncompressed None 4 2 2 = Ok result
        /\ size result = deswizzled_size)
  /\ (forall layer mip x y z,
        in_surface 3 2 1 block_dim_uncompressed 4 2 2 layer mip x y z ->
        surface_address 3 2 1 block_dim_uncompressed
          (resolved_block_height_mip0 2 1 block_dim_uncompressed None)
          4 2 2 layer mip x y z
        < swizzled_size
        /\ surface_linear 3 2 1 block_dim_uncompressed 4 2 layer mip x y z
           < deswizzled_size).
Proof.
  apply (surface_transfers_in_bounds 3 2 1 block_dim_uncompressed None 4 2 2).
  - constructor; simpl; try lia. discriminate.
  - constructor; simpl; lia.
Defined.

Lemma not_enough_data_iff_witness :
  let swizzled_size :=
    swizzled_surface_size 3 2 1 block_dim_uncompressed None 4 2 2 in
  let deswizzled_size :=
    deswizzled_surface_size 3 2 1 block_dim_uncompressed 4 2 2 in
  let source := replicate 20 Byte.x2a in
  let swizzle src :=
    swizzle_surface 3 2 1 src block_dim_uncompressed None 4 2 2 in
  let deswizzle src :=
    deswizzle_surface 3 2 1 src block_dim_uncompressed None 4 2 2 in
  (swizzle source = NotEnoughData <-> size source < deswizzled_size)
  /\ (deswizzle source = NotEnoughData <-> size source < swizzled_size)
  /\ (size source < deswizzled_size ->
      surface_destination false 3 2 1 block_dim_uncompressed None 4 2 2
        source = NotEnoughData)
  /\ (size source < swizzled_size ->
      surface_destination true 3 2 1 block_dim_uncompressed None 4 2 2
        source = NotEnoughData)
  /\ (deswizzled_size <= size source ->
      (exists result, swizzle source = Ok result) /\
      swizzle source = swizzle (take (N.to_nat deswizzled_size) source))
  /\ (swizzled_size <= size source ->
      (exists result, deswizzle source = Ok result) /\
      deswizzle source = deswizzle (take (N.to_nat swizzled_size) source)).
Proof.
  apply (not_enough_data_iff 3 2 1 block_dim_uncompressed None 4 2 2).
  - constructor; simpl; try lia. discriminate.
  - constructor; simpl; lia.
Defined.


(* ================================================================== *)
(** * Further properties of the library *)

(** ** lib.h *)

(** X1: [block_height_from_value] is the identity on the six tabulated
    block heights and answers [Invalid] on every other value; its result is
    a tabulated block height exactly when its argument is one. *)
Theorem block_height_from_value_spec (value : N) :
  (valid_block_height value -> block_height_from_value value = value)
  /\ (~ valid_block_height value ->
      block_height_from_value value = BlockHeight.Invalid)
  /\ (valid_block_height (block_height_from_value value)
      <-> valid_block_height value).
Proof.
  unfold valid_block_height, block_height_from_value, BlockHeight.One,
    BlockHeight.Two, BlockHeight.Four, BlockHeight.Eight,
    BlockHeight.Sixteen, BlockHeight.ThirtyTwo, BlockHeight.Invalid.
  repeat match goal with
         | |- context [?a =? ?b] => destruct (N.eqb_spec a b)
         end; subst; repeat split; intros; try done; try lia; auto 10.
Qed.

(** X2: [div_round_up x d] is the ceiling of [x / d]: the least count of
    [d]-sized blocks that hold [x], as long as [x + d] fits [size_t]; on a
    multiple of [d] it is the exact quotient. *)
Theorem div_round_up_ceiling (x d : N) :
  1 <= d -> x + d < 2 ^ 64 ->
  x <= div_round_up x d * d
  /\ div_round_up x d * d < x + d
  /\ (forall q, x <= q * d -> div_round_up x d <= q)
  /\ (x mod d = 0 -> div_round_up x d = x / d).
Proof.
  intros Hd Hx. rewrite div_round_up_eq by done.
  pose proof (cdiv_mul_ge x d Hd) as Hge.
  pose proof (cdiv_mul_lt x d Hd) as Hlt.
  split; [done|]. split; [done|]. split.
  - intros q Hq. nia.
  - intros Hm. apply N.Div0.div_exact in Hm.
    set (c := cdiv x d) in *. set (k := x / d) in *. nia.
Qed.

Lemma div_round_up_ceiling_witness :
  10 <= div_round_up 10 4 * 4
  /\ div_round_up 10 4 * 4 < 10 + 4
  /\ (forall q, 10 <= q * 4 -> div_round_up 10 4 <= q)
  /\ (10 mod 4 = 0 -> div_round_up 10 4 = 10 / 4).
Proof. apply (div_round_up_ceiling 10 4); by vm_compute. Defined.

(** X3: [round_up x n] is the least multiple of [n] that is at least [x],
    and leaves a multiple of [n] unchanged. *)
Theorem round_up_least_multiple (x n : N) :
  1 <= n -> x + n < 2 ^ 64 ->
  x <= round_up x n
  /\ round_up x n < x + n
  /\ round_up x n mod n = 0
  /\ (x mod n = 0 -> round_up x n = x).
Proof.
  intros Hn Hx. rewrite round_up_eq by done.
  pose proof (cdiv_mul_ge x n Hn) as Hge.
  pose proof (cdiv_mul_lt x n Hn) as Hlt.
  split; [done|]. split; [done|]. split.
  - apply N.Div0.mod_mul.
  - intros Hm. apply N.Div0.div_exact in Hm.
    set (c := cdiv x n) in *. set (k := x / n) in *.
    assert (c = k) as -> by nia. lia.
Qed.

Lemma round_up_least_multiple_witness :
  5 <= round_up 5 4
  /\ round_up 5 4 < 5 + 4
  /\ round_up 5 4 mod 4 = 0
  /\ (5 mod 4 = 0 -> round_up 5 4 = 5).
Proof. apply (round_up_least_multiple 5 4); by vm_compute. Defined.

(** X4: the grid of GOBs and blocks covers the image and has no spare
    column of GOBs and no spare row of blocks. *)
Theorem gob_grid_covers (width height bytes_per_pixel : N)
  (block_height : BlockHeight) :
  width <= 16384 -> height <= 16384 -> bytes_per_pixel <= 16 ->
  valid_block_height block_height ->
  width * bytes_per_pixel
  <= width_in_gobs width bytes_per_pixel * GOB_WIDTH_IN_BYTES
  /\ width_in_gobs width bytes_per_pixel * GOB_WIDTH_IN_BYTES
     < width * bytes_per_pixel + GOB_WIDTH_IN_BYTES
  /\ height
     <= height_in_blocks height block_height
        * (block_height * GOB_HEIGHT_IN_BYTES)
  /\ height_in_blocks height block_height
     * (block_height * GOB_HEIGHT_IN_BYTES)
     < height + block_height * GOB_HEIGHT_IN_BYTES.
Proof.
  intros Hw Hh Hb Hbh%valid_block_height_bounds.
  rewrite (proj1 (width_in_gobs_eq width bytes_per_pixel Hw Hb)).
  rewrite height_in_blocks_eq by done.
  unfold GOB_WIDTH_IN_BYTES, GOB_HEIGHT_IN_BYTES.
  pose proof (cdiv_mul_ge (width * bytes_per_pixel) 64 ltac:(lia)).
  pose proof (cdiv_mul_lt (width * bytes_per_pixel) 64 ltac:(lia)).
  pose proof (cdiv_mul_ge height (block_height * 8) ltac:(lia)).
  pose proof (cdiv_mul_lt height (block_height * 8) ltac:(lia)).
  done.
Qed.

Lemma gob_grid_covers_witness :
  65 * 4 <= width_in_gobs 65 4 * GOB_WIDTH_IN_BYTES
  /\ width_in_gobs 65 4 * GOB_WIDTH_IN_BYTES < 65 * 4 + GOB_WIDTH_IN_BYTES
  /\ 65 <= height_in_blocks 65 BlockHeight.Two
           * (BlockHeight.Two * GOB_HEIGHT_IN_BYTES)
  /\ height_in_blocks 65 BlockHeight.Two
     * (BlockHeight.Two * GOB_HEIGHT_IN_BYTES)
     < 65 + BlockHeight.Two * GOB_HEIGHT_IN_BYTES.
Proof.
  apply (gob_grid_covers 65 65 4 BlockHeight.Two); try (by vm_compute).
  right. by left.
Defined.

(** ** blockdepth.h and blockheight.h *)

(** X5: [block_depth] as a table on the depth itself: 16 from depth 11, 8
    from 6, 4 from 3, 2 at 2 and 1 below; it is one of 1, 2, 4, 8, 16 and
    grows with the depth. *)
Theorem block_depth_table (depth : N) :
  depth + depth / 2 < 2 ^ 64 ->
  block_depth depth =
    (if 11 <=? depth then 16 else if 6 <=? depth then 8
     else if 3 <=? depth then 4 else if 2 <=? depth then 2 else 1)
  /\ valid_block_depth (block_depth depth)
  /\ (forall smaller, smaller <= depth ->
                      block_depth smaller <= block_depth depth).
Proof.
  intros Hd.
  assert (forall d, d <= depth ->
            block_depth d =
              (if 11 <=? d then 16 else if 6 <=? d then 8
               else if 3 <=? d then 4 else if 2 <=? d then 2 else 1)) as Heq.
  { intros d Hle. unfold block_depth. rewrite add_small by lia.
    split_compares; reflexivity. }
  split; [by apply Heq|]. split; [apply block_depth_valid|].
  intros d Hle. rewrite (Heq d Hle), (Heq depth) by lia.
  split_compares; lia.
Qed.

Lemma block_depth_table_witness :
  block_depth 16 =
    (if 11 <=? 16 then 16 else if 6 <=? 16 then 8
     else if 3 <=? 16 then 4 else if 2 <=? 16 then 2 else 1)
  /\ valid_block_depth (block_depth 16)
  /\ (forall smaller, smaller <= 16 -> block_depth smaller <= block_depth 16).
Proof. apply (block_depth_table 16). reflexivity. Defined.

(** X6: [mip_block_depth] halves the block depth only while the mip fits
    half a block: the result is one of 1, 2, 4, 8, 16, at most the depth
    it started from, and either 1 or less than twice the mip depth; a mip
    deeper than half the starting block keeps it, and a mip of depth at
    most one gets 1. *)
Theorem mip_block_depth_spec (mip_depth gob_depth : N) :
  valid_block_depth gob_depth ->
  let r := mip_block_depth mip_depth gob_depth in
  valid_block_depth r
  /\ r <= gob_depth
  /\ (r = 1 \/ r / 2 < mip_depth)
  /\ (gob_depth / 2 < mip_depth -> r = gob_depth)
  /\ (mip_depth <= 1 -> r = 1).
Proof.
  intros Hv r. split; [by apply mip_block_depth_valid|].
  split; [apply halve_while_le|].
  unfold r, mip_block_depth, valid_block_depth in *.
  destruct Hv as [-> | [-> | [-> | [-> | ->]]]];
    unroll_halve_while; split_compares;
    (split; [|split]); intros; try lia; try (by left); try (right; lia).
Qed.

Lemma mip_block_depth_spec_witness :
  let r := mip_block_depth 3 16 in
  valid_block_depth r /\ r <= 16 /\ (r = 1 \/ r / 2 < 3)
  /\ (16 / 2 < 3 -> r = 16) /\ (3 <= 1 -> r = 1).
Proof. apply (mip_block_depth_spec 3 16). do 4 right. reflexivity. Defined.

(** X7: the depth in GOBs that [swizzled_mip_size] reserves for a mip,
    rounded with [block_depth] of the mip's own depth, is the depth that
    the transfer lays out with the per-mip block depth derived from the
    surface depth. *)
Theorem mip_depth_in_gobs_agree (depth mip_depth : N) :
  1 <= mip_depth -> mip_depth <= depth -> depth <= 16384 ->
  round_up mip_depth (mip_block_depth mip_depth (block_depth depth))
  = round_up mip_depth (block_depth mip_depth).
Proof.
  intros H1 Hle Hd.
  pose proof (block_depth_valid depth) as Hv.
  pose proof (mip_block_depth_valid mip_depth _ Hv) as Hv'.
  pose proof (valid_block_depth_bounds _ Hv').
  pose proof (valid_block_depth_bounds _ (block_depth_valid mip_depth)).
  rewrite !round_up_eq by (lia || nbound).
  apply mip_block_depth_round; [done| |lia].
  apply block_depth_mono; lia.
Qed.

Lemma mip_depth_in_gobs_agree_witness :
  round_up 5 (mip_block_depth 5 (block_depth 11))
  = round_up 5 (block_depth 5).
Proof. apply (mip_depth_in_gobs_agree 11 5); by vm_compute. Defined.

(** X8: [mip_block_height] keeps the result among the tabulated block
    heights and halves no further than needed: the result is 1 or the mip
    is taller than four GOB rows per GOB of block height, and a mip taller
    than half the starting block keeps the starting block height. *)
Theorem mip_block_height_spec (mip_height : N) (bh_mip0 : BlockHeight) :
  valid_block_height bh_mip0 ->
  let r := mip_block_height mip_height bh_mip0 in
  valid_block_height r
  /\ (r = 1 \/ r * 4 < mip_height)
  /\ (bh_mip0 * 4 < mip_height -> r = bh_mip0).
Proof.
  intros Hv r. split; [by apply mip_block_height_valid|].
  unfold r. rewrite mip_block_height_cases by done.
  unfold valid_block_height, BlockHeight.One, BlockHeight.Two,
    BlockHeight.Four, BlockHeight.Eight, BlockHeight.Sixteen,
    BlockHeight.ThirtyTwo in Hv.
  destruct Hv as [-> | [-> | [-> | [-> | [-> | ->]]]]];
    split_compares; split; intros; try lia; try (by left); try (right; lia).
Qed.

Lemma mip_block_height_spec_witness :
  let r := mip_block_height 40 BlockHeight.Sixteen in
  valid_block_height r /\ (r = 1 \/ r * 4 < 40)
  /\ (BlockHeight.Sixteen * 4 < 40 -> r = BlockHeight.Sixteen).
Proof.
  apply (mip_block_height_spec 40 BlockHeight.Sixteen).
  do 4 right. by left.
Defined.

(** ** arrays.h *)

(** X9: [align_layer_size] rounds a layer size up to the next multiple of
    one block of GOBs of the height derived from the surface height; a
    size that is already aligned is left as it is. *)
Theorem align_layer_size_spec
  (layer_size height depth : N) (bh_mip0 : BlockHeight) :
  valid_block_height bh_mip0 -> layer_size <= 2 ^ 61 ->
  let block := mip_block_height height bh_mip0 * GOB_SIZE_IN_BYTES in
  let aligned := align_layer_size layer_size height depth bh_mip0 1 in
  layer_size <= aligned
  /\ aligned < layer_size + block
  /\ aligned mod block = 0
  /\ align_layer_size aligned height depth bh_mip0 1 = aligned.
Proof.
  intros Hv Hs block aligned. unfold aligned, block.
  rewrite GOB_SIZE_IN_BYTES_eq. fold (layer_alignment height bh_mip0).
  assert (2 ^ 61 <= 2 ^ 62) by (by vm_compute).
  rewrite align_layer_size_eq by (done || lia).
  pose proof (valid_block_height_bounds _
                (mip_block_height_valid height bh_mip0 Hv)) as Hb.
  assert (1 <= layer_alignment height bh_mip0 <= 16384) as HB
    by (unfold layer_alignment; lia).
  set (B := layer_alignment height bh_mip0) in *.
  pose proof (cdiv_mul_ge layer_size B ltac:(lia)) as Hge.
  pose proof (cdiv_mul_lt layer_size B ltac:(lia)) as Hlt.
  split; [done|]. split; [done|]. split; [apply N.Div0.mod_mul|].
  rewrite align_layer_size_eq.
  - fold B. by rewrite cdiv_mul_exact by lia.
  - done.
  - fold B. change (2 ^ 61) with 2305843009213693952 in Hs.
    change (2 ^ 62) with 4611686018427387904. lia.
Qed.

Lemma align_layer_size_spec_witness :
  let block := mip_block_height 128 BlockHeight.Sixteen * GOB_SIZE_IN_BYTES in
  let aligned := align_layer_size 87424 128 1 BlockHeight.Sixteen 1 in
  87424 <= aligned
  /\ aligned < 87424 + block
  /\ aligned mod block = 0
  /\ align_layer_size aligned 128 1 BlockHeight.Sixteen 1 = aligned.
Proof.
  apply (align_layer_size_spec 87424 128 1 BlockHeight.Sixteen).
  - do 4 right. by left.
  - by vm_compute.
Defined.

(** ** swizzle.h: sizes and addresses of one mip level *)

(** X10: the swizzled size of a mip level is at least its deswizzled size
    and a whole number of GOBs, at least one for a level that is not
    empty. *)
Theorem swizzled_mip_size_ge
  (width height depth : N) (block_height : BlockHeight)
  (bytes_per_pixel : N) :
  width <= 16384 -> height <= 16384 -> depth <= 16384 ->
  bytes_per_pixel <= 16 -> valid_block_height block_height ->
  deswizzled_mip_size width height depth bytes_per_pixel
  <= swizzled_mip_size width height depth block_height bytes_per_pixel
  /\ swizzled_mip_size width height depth block_height bytes_per_pixel
     mod GOB_SIZE_IN_BYTES = 0
  /\ (1 <= width -> 1 <= height -> 1 <= depth -> 1 <= bytes_per_pixel ->
      GOB_SIZE_IN_BYTES
      <= swizzled_mip_size width height depth block_height bytes_per_pixel).
Proof.
  intros Hw Hh Hd Hb Hbh. pose proof (valid_block_height_bounds _ Hbh) as Hbh'.
  rewrite swizzled_mip_size_eq, deswizzled_mip_size_eq by done.
  rewrite GOB_SIZE_IN_BYTES_eq.
  split; [apply mip_size_exact_le; lia|]. unfold swizzled_mip_size_exact.
  split; [apply N.Div0.mod_mul|].
  intros H1 H2 H3 H4.
  pose proof (valid_block_depth_bounds _ (block_depth_valid depth)) as HB.
  pose proof (cdiv_mul_ge (width * bytes_per_pixel) 64 ltac:(lia)).
  pose proof (cdiv_mul_ge height (block_height * 8) ltac:(lia)).
  pose proof (cdiv_mul_ge depth (block_depth depth) ltac:(lia)).
  assert (1 <= cdiv (width * bytes_per_pixel) 64) by nia.
  assert (1 <= cdiv height (block_height * 8) * block_height) by nia.
  assert (1 <= cdiv depth (block_depth depth) * block_depth depth) by nia.
  set (a := cdiv (width * bytes_per_pixel) 64) in *.
  set (b := cdiv height (block_height * 8) * block_height) in *.
  set (c := cdiv depth (block_depth depth) * block_depth depth) in *.
  nia.
Qed.

Lemma swizzled_mip_size_ge_witness :
  deswizzled_mip_size 256 256 1 4
  <= swizzled_mip_size 256 256 1 BlockHeight.Sixteen 4
  /\ swizzled_mip_size 256 256 1 BlockHeight.Sixteen 4
     mod GOB_SIZE_IN_BYTES = 0
  /\ (1 <= 256 -> 1 <= 256 -> 1 <= 1 -> 1 <= 4 ->
      GOB_SIZE_IN_BYTES
      <= swizzled_mip_size 256 256 1 BlockHeight.Sixteen 4).
Proof.
  apply (swizzled_mip_size_ge 256 256 1 BlockHeight.Sixteen 4);
    try (by vm_compute).
  do 4 right. by left.
Defined.

(** X11: [gob_offset] is a bijection between the 64 x 8 byte positions of
    a GOB and the offsets 0 to 511, and it only looks at the position
    inside the GOB. *)
Theorem gob_offset_bijection :
  (forall x y, x < 64 -> y < 8 -> gob_offset x y < 512)
  /\ (forall x y x' y',
        x < 64 -> y < 8 -> x' < 64 -> y' < 8 ->
        gob_offset x y = gob_offset x' y' -> x = x' /\ y = y')
  /\ (forall o, o < 512 ->
                exists x y, x < 64 /\ y < 8 /\ gob_offset x y = o)
  /\ (forall x y, gob_offset x y = gob_offset (x mod 64) (y mod 8)).
Proof.
  split; [apply gob_offset_lt|]. split; [apply gob_offset_inj|]. split.
  - intros o Ho.
    exists (gob_offset_inv o).1, (gob_offset_inv o).2.
    assert (((gob_offset_inv o).1 <? 64) && ((gob_offset_inv o).2 <? 8)
            && (gob_offset (gob_offset_inv o).1 (gob_offset_inv o).2 =? o)
            = true) as H.
    { revert o Ho.
      apply (forallb_N_range (fun o =>
        ((gob_offset_inv o).1 <? 64) && ((gob_offset_inv o).2 <? 8)
        && (gob_offset (gob_offset_inv o).1 (gob_offset_inv o).2 =? o))).
      by vm_compute. }
    apply andb_prop in H as [H H3]. apply andb_prop in H as [H1 H2].
    by apply N.ltb_lt in H1, H2; apply N.eqb_eq in H3.
  - intros x y. unfold gob_offset.
    rewrite !N.Div0.mod_mod.
    replace ((x mod 64) mod 32) with (x mod 32) by lia.
    replace ((x mod 64) mod 16) with (x mod 16) by lia.
    replace ((y mod 8) mod 2) with (y mod 2) by lia.
    done.
Qed.

(** ** swizzle.h: the block-linear transfers of one mip level *)

Section block_linear.
Context (w h d : N) (bh : BlockHeight) (bpp : N).
Context (Hw : w <= 16384) (Hh : h <= 16384) (Hd : d <= 16384)
  (Hb : bpp <= 16) (Hbh : valid_block_height bh).

Let bd := block_depth d.
Let SWZ := swizzled_mip_size w h d bh bpp.
Let LIN := deswizzled_mip_size w h d bpp.
Let moves (D : bool) := inner_moves D w h d bh bd bpp.
Let transfer (D : bool) src :=
  if D then deswizzle_block_linear w h d src bh bpp
  else swizzle_block_linear w h d src bh bpp.
Let src_total (D : bool) := if D then SWZ else LIN.
Let dst_total (D : bool) := if D then LIN else SWZ.

Lemma bl_transfer_moves (D : bool) src :
  transfer D src
  = if size src <? src_total D then NotEnoughData
    else apply_moves src (moves D) (zeroed (dst_total D)).
Proof.
  unfold transfer, src_total, dst_total, moves, SWZ, LIN, bd.
  destruct D; unfold deswizzle_block_linear, swizzle_block_linear; cbv zeta.
  - destruct (size src <? _); [done|].
    apply swizzle_inner_moves; try assumption. apply block_depth_valid.
  - destruct (size src <? _); [done|].
    apply swizzle_inner_moves; try assumption. apply block_depth_valid.
Qed.

Lemma bl_elem_of_moves (D : bool) m :
  m ∈ moves D <->
  exists x y z, x < w * bpp /\ y < h /\ z < d /\
    m = mip_move D w h bh bd bpp x y z.
Proof.
  unfold moves, bd.
  exact (elem_of_inner_moves w h d bh (block_depth d) bpp Hw Hh Hd Hb Hbh
           (block_depth_valid d) D m).
Qed.

Lemma bl_address_lt x y z :
  x < w * bpp -> y < h -> z < d -> mip_address w h bh bd bpp x y z < SWZ.
Proof.
  intros Hx Hy Hz. unfold SWZ, bd.
  pose proof (valid_block_height_bounds _ Hbh) as Hbh'.
  pose proof (valid_block_depth_bounds _ (block_depth_valid d)) as Hbd'.
  rewrite (swizzled_mip_size_eq w h d bh bpp Hw Hh Hd Hb Hbh').
  apply mip_address_lt; [apply Hbh'|apply Hbd'|assumption..].
Qed.

Lemma bl_linear_lt x y z :
  x < w * bpp -> y < h -> z < d -> mip_linear w h bpp x y z < LIN.
Proof.
  intros Hx Hy Hz. unfold LIN.
  rewrite (deswizzled_mip_size_eq w h d bpp Hw Hh Hd Hb).
  apply mip_linear_lt; assumption.
Qed.

Lemma bl_moves_in_bounds (D : bool) m :
  m ∈ moves D -> m.1 < dst_total D /\ m.2 < src_total D.
Proof.
  intros (x & y & z & Hx & Hy & Hz & ->)%bl_elem_of_moves.
  pose proof (bl_address_lt _ _ _ Hx Hy Hz).
  pose proof (bl_linear_lt _ _ _ Hx Hy Hz).
  destruct D; cbn [mip_move fst snd src_total dst_total]; split; assumption.
Qed.

Lemma bl_moves_functional (D : bool) m1 m2 :
  m1 ∈ moves D -> m2 ∈ moves D -> m1.1 = m2.1 -> m1.2 = m2.2.
Proof.
  intros (x1 & y1 & z1 & Hx1 & Hy1 & Hz1 & ->)%bl_elem_of_moves
    (x2 & y2 & z2 & Hx2 & Hy2 & Hz2 & ->)%bl_elem_of_moves.
  pose proof (valid_block_height_bounds _ Hbh) as Hbh'.
  pose proof (valid_block_depth_bounds _ (block_depth_valid d)) as Hbd'.
  destruct D; cbn [mip_move fst snd]; intros Heq.
  - apply mip_linear_inj in Heq as (-> & -> & ->); [reflexivity|assumption..].
  - apply (mip_address_inj w h d bh bd bpp (proj1 Hbh') (proj1 Hbd')) in Heq
      as (-> & -> & ->); [reflexivity|assumption..].
Qed.

Lemma bl_transfer_ok (D : bool) src :
  src_total D <= size src ->
  exists r,
    transfer D src = Ok r /\ size r = dst_total D /\
    (forall i, i ∉ (moves D).*1 ->
               r !! N.to_nat i = zeroed (dst_total D) !! N.to_nat i) /\
    (forall m, m ∈ moves D -> r !! N.to_nat m.1 = src !! N.to_nat m.2).
Proof.
  intros Hsrc. rewrite bl_transfer_moves.
  destruct (N.ltb_spec (size src) (src_total D)); [lia|].
  assert (forall m, m ∈ moves D ->
            m.1 < size (zeroed (dst_total D)) /\ m.2 < size src) as Hbnd.
  { intros m Hm%bl_moves_in_bounds. rewrite size_zeroed.
    destruct Hm. split; [done|lia]. }
  destruct (apply_moves_total src (moves D) (zeroed (dst_total D)) Hbnd)
    as [r Hr].
  exists r. split; [done|]. split.
  - unfold size. rewrite (apply_moves_length _ _ _ _ Hr).
    apply size_zeroed.
  - split.
    + intros i Hi. by apply (apply_moves_other _ _ _ _ _ Hr).
    + intros m Hm. apply (apply_moves_lookup _ _ _ _ _ Hr); [|done].
      apply bl_moves_functional.
Qed.

Lemma bl_not_enough_data (D : bool) src :
  transfer D src = NotEnoughData <-> size src < src_total D.
Proof.
  rewrite bl_transfer_moves.
  destruct (N.ltb_spec (size src) (src_total D)); split; try done.
  - intros H'. by apply apply_moves_sound in H'.
  - lia.
Qed.

Lemma bl_round_trip b :
  size b = LIN ->
  exists s, transfer false b = Ok s /\ transfer true s = Ok b.
Proof.
  intros Hsz.
  destruct (bl_transfer_ok false b) as (s & Hs & Hss & _ & Hsm);
    [simpl; lia|].
  destruct (bl_transfer_ok true s) as (r & Hr & Hrs & _ & Hrm);
    [simpl in *; lia|].
  exists s. split; [done|]. rewrite Hr. f_equal.
  apply list_eq. intros j. simpl in Hrs.
  destruct (decide (N.of_nat j < LIN)) as [Hj|Hj].
  - destruct (mip_linear_surj w h d bpp (N.of_nat j))
      as (x & y & z & Hx & Hy & Hz & Hlin).
    { unfold LIN in Hj. by rewrite deswizzled_mip_size_eq in Hj. }
    assert (mip_move true w h bh bd bpp x y z ∈ moves true)
      as H1%Hrm by (apply bl_elem_of_moves; eauto 10).
    assert (mip_move false w h bh bd bpp x y z ∈ moves false)
      as H2%Hsm by (apply bl_elem_of_moves; eauto 10).
    cbn [mip_move fst snd] in H1, H2. rewrite Hlin, Nat2N.id in H1, H2.
    by rewrite H1, H2.
  - rewrite !lookup_ge_None_2; [done|unfold size in *; lia..].
Qed.

End block_linear.

(** X12: the offsets [swizzle_inner] computes for the bytes of a mip
    level, the GOB address from [gob_address_z], [gob_address_y] and
    [gob_address_x] plus [gob_offset] inside the GOB, are free of
    wrap-around, lie below [swizzled_mip_size] and differ for different
    bytes of the level. *)
Theorem block_linear_addresses
  (width height depth : N) (block_height : BlockHeight)
  (bytes_per_pixel : N) :
  width <= 16384 -> height <= 16384 -> depth <= 16384 ->
  bytes_per_pixel <= 16 -> valid_block_height block_height ->
  let inside x y z := x < width * bytes_per_pixel /\ y < height /\ z < depth in
  let address x y z :=
    mip_gob_address width height block_height (block_depth depth)
      bytes_per_pixel (x - x mod 64) (y - y mod 8) z
    +% gob_offset (x mod 64) (y mod 8) in
  (forall x y z, inside x y z ->
     address x y z
     = mip_address width height block_height (block_depth depth)
         bytes_per_pixel x y z)
  /\ (forall x y z, inside x y z ->
        address x y z
        < swizzled_mip_size width height depth block_height bytes_per_pixel)
  /\ (forall x y z x' y' z', inside x y z -> inside x' y' z' ->
        address x y z = address x' y' z' -> x = x' /\ y = y' /\ z = z').
Proof.
  intros Hw Hh Hd Hb Hbh inside address.
  assert (forall x y z, inside x y z ->
            address x y z
            = mip_address width height block_height (block_depth depth)
                bytes_per_pixel x y z) as Heq.
  { intros x y z (Hx & Hy & Hz). unfold address, mip_gob_address.
    assert (x - x mod 64 < width * bytes_per_pixel) as Hx0 by lia.
    assert (y - y mod 8 < height) as Hy0 by lia.
    destruct (gob_address_eq width height depth block_height
                (block_depth depth) bytes_per_pixel Hw Hh Hd Hb Hbh
                (block_depth_valid depth) _ _ _ Hx0 Hy0 Hz) as [-> Hle].
    assert (x mod 64 < 64) as Hxm by (apply N.mod_lt; lia).
    assert (y mod 8 < 8) as Hym by (apply N.mod_lt; lia).
    pose proof (gob_offset_lt _ _ Hxm Hym) as Ho.
    assert (2 ^ 60 + 512 < 2 ^ 64) as Hpow by (by vm_compute).
    rewrite add_small by lia. unfold mip_address. f_equal.
    apply gob_address_exact_gob.
    - clear -Hxm. lia.
    - clear -Hym. lia. }
  split; [done|]. split.
  - intros x y z Hin. rewrite (Heq _ _ _ Hin). destruct Hin as (Hx & Hy & Hz).
    by apply (bl_address_lt width height depth block_height bytes_per_pixel).
  - intros x y z x' y' z' Hin Hin'.
    rewrite (Heq _ _ _ Hin), (Heq _ _ _ Hin').
    destruct Hin as (Hx & Hy & Hz). destruct Hin' as (Hx' & Hy' & Hz').
    pose proof (valid_block_height_bounds _ Hbh) as Hbh'.
    pose proof (valid_block_depth_bounds _ (block_depth_valid depth)) as Hbd'.
    apply (mip_address_inj width height depth block_height
             (block_depth depth) bytes_per_pixel (proj1 Hbh') (proj1 Hbd'));
      assumption.
Qed.

Lemma block_linear_addresses_witness :
  let inside x y z := x < 100 * 4 /\ y < 20 /\ z < 3 in
  let address x y z :=
    mip_gob_address 100 20 BlockHeight.Two (block_depth 3) 4
      (x - x mod 64) (y - y mod 8) z
    +% gob_offset (x mod 64) (y mod 8) in
  (forall x y z, inside x y z ->
     address x y z
     = mip_address 100 20 BlockHeight.Two (block_depth 3) 4 x y z)
  /\ (forall x y z, inside x y z ->
        address x y z < swizzled_mip_size 100 20 3 BlockHeight.Two 4)
  /\ (forall x y z x' y' z', inside x y z -> inside x' y' z' ->
        address x y z = address x' y' z' -> x = x' /\ y = y' /\ z = z').
Proof.
  apply (block_linear_addresses 100 20 3 BlockHeight.Two 4);
    try (by vm_compute).
  right. by left.
Defined.

(** X13: [swizzle_block_linear] on a source of at least the deswizzled
    size succeeds with a result of the swizzled size in which each byte
    [(x, y, z)] of the image sits at its block-linear address. *)
Theorem swizzle_block_linear_placement
  (width height depth : N) (source : buffer) (block_height : BlockHeight)
  (bytes_per_pixel : N) :
  width <= 16384 -> height <= 16384 -> depth <= 16384 ->
  bytes_per_pixel <= 16 -> valid_block_height block_height ->
  deswizzled_mip_size width height depth bytes_per_pixel <= size source ->
  exists result,
    swizzle_block_linear width height depth source block_height
      bytes_per_pixel = Ok result
    /\ size result
       = swizzled_mip_size width height depth block_height bytes_per_pixel
    /\ forall x y z,
         x < width * bytes_per_pixel -> y < height -> z < depth ->
         result !! N.to_nat (mip_address width height block_height
                               (block_depth depth) bytes_per_pixel x y z)
         = source !! N.to_nat (mip_linear width height bytes_per_pixel x y z).
Proof.
  intros Hw Hh Hd Hb Hbh Hsrc.
  destruct (bl_transfer_ok width height depth block_height bytes_per_pixel
              Hw Hh Hd Hb Hbh false source Hsrc) as (r & Hr & Hsz & _ & Hm).
  exists r. split; [exact Hr|]. split; [exact Hsz|].
  intros x y z Hx Hy Hz.
  apply (Hm (mip_move false width height block_height (block_depth depth)
               bytes_per_pixel x y z)).
  apply (bl_elem_of_moves width height depth block_height bytes_per_pixel
           Hw Hh Hd Hb Hbh false).
  eauto 10.
Qed.

Lemma swizzle_block_linear_placement_witness :
  exists result,
    swizzle_block_linear 3 2 1 (replicate 24 Byte.x2a) BlockHeight.One 4
    = Ok result
    /\ size result = swizzled_mip_size 3 2 1 BlockHeight.One 4
    /\ forall x y z,
         x < 3 * 4 -> y < 2 -> z < 1 ->
         result !! N.to_nat (mip_address 3 2 BlockHeight.One (block_depth 1)
                               4 x y z)
         = replicate 24 Byte.x2a !! N.to_nat (mip_linear 3 2 4 x y z).
Proof.
  apply (swizzle_block_linear_placement 3 2 1 (replicate 24 Byte.x2a)
           BlockHeight.One 4); try (by vm_compute).
  by left.
Defined.

(** X14: [deswizzle_block_linear] on a source of at least the swizzled
    size succeeds with a result of the deswizzled size whose byte at the
    linear offset of [(x, y, z)] is the source byte at the block-linear
    address of [(x, y, z)]. *)
Theorem deswizzle_block_linear_placement
  (width height depth : N) (source : buffer) (block_height : BlockHeight)
  (bytes_per_pixel : N) :
  width <= 16384 -> height <= 16384 -> depth <= 16384 ->
  bytes_per_pixel <= 16 -> valid_block_height block_height ->
  swizzled_mip_size width height depth block_height bytes_per_pixel
  <= size source ->
  exists result,
    deswizzle_block_linear width height depth source block_height
      bytes_per_pixel = Ok result
    /\ size result = deswizzled_mip_size width height depth bytes_per_pixel
    /\ forall x y z,
         x < width * bytes_per_pixel -> y < height -> z < depth ->
         result !! N.to_nat (mip_linear width height bytes_per_pixel x y z)
         = source !! N.to_nat (mip_address width height block_height
                                 (block_depth depth) bytes_per_pixel x y z).
Proof.
  intros Hw Hh Hd Hb Hbh Hsrc.
  destruct (bl_transfer_ok width height depth block_height bytes_per_pixel
              Hw Hh Hd Hb Hbh true source Hsrc) as (r & Hr & Hsz & _ & Hm).
  exists r. split; [exact Hr|]. split; [exact Hsz|].
  intros x y z Hx Hy Hz.
  apply (Hm (mip_move true width height block_height (block_depth depth)
               bytes_per_pixel x y z)).
  apply (bl_elem_of_moves width height depth block_height bytes_per_pixel
           Hw Hh Hd Hb Hbh true).
  eauto 10.
Qed.

Lemma deswizzle_block_linear_placement_witness :
  exists result,
    deswizzle_block_linear 3 2 1 (replicate 512 Byte.x2a) BlockHeight.One 4
    = Ok result
    /\ size result = deswizzled_mip_size 3 2 1 4
    /\ forall x y z,
         x < 3 * 4 -> y < 2 -> z < 1 ->
         result !! N.to_nat (mip_linear 3 2 4 x y z)
         = replicate 512 Byte.x2a
             !! N.to_nat (mip_address 3 2 BlockHeight.One (block_depth 1)
                            4 x y z).
Proof.
  apply (deswizzle_block_linear_placement 3 2 1 (replicate 512 Byte.x2a)
           BlockHeight.One 4); try (by vm_compute).
  by left.
Defined.

(** X15: deswizzling what [swizzle_block_linear] made of a buffer of
    exactly the deswizzled size gives the buffer back. *)
Theorem block_linear_round_trip
  (width height depth : N) (bytes : buffer) (block_height : BlockHeight)
  (bytes_per_pixel : N) :
  width <= 16384 -> height <= 16384 -> depth <= 16384 ->
  bytes_per_pixel <= 16 -> valid_block_height block_height ->
  size bytes = deswizzled_mip_size width height depth bytes_per_pixel ->
  exists swizzled,
    swizzle_block_linear width height depth bytes block_height
      bytes_per_pixel = Ok swizzled
    /\ deswizzle_block_linear width height depth swizzled block_height
         bytes_per_pixel = Ok bytes.
Proof.
  intros Hw Hh Hd Hb Hbh Hsz.
  apply (bl_round_trip width height depth block_height bytes_per_pixel
           Hw Hh Hd Hb Hbh bytes Hsz).
Qed.

Lemma block_linear_round_trip_witness :
  exists swizzled,
    swizzle_block_linear 3 2 1 (replicate 24 Byte.x2a) BlockHeight.One 4
    = Ok swizzled
    /\ deswizzle_block_linear 3 2 1 swizzled BlockHeight.One 4
       = Ok (replicate 24 Byte.x2a).
Proof.
  apply (block_linear_round_trip 3 2 1 (replicate 24 Byte.x2a)
           BlockHeight.One 4); try (by vm_compute).
  by left.
Defined.

(** X16: the block-linear transfers fail with [NotEnoughData] exactly
    when the source is shorter than the size the mip level needs, and
    never with [OutOfBounds]. *)
Theorem block_linear_not_enough_data
  (width height depth : N) (source : buffer) (block_height : BlockHeight)
  (bytes_per_pixel : N) :
  width <= 16384 -> height <= 16384 -> depth <= 16384 ->
  bytes_per_pixel <= 16 -> valid_block_height block_height ->
  (swizzle_block_linear width height depth source block_height
     bytes_per_pixel = NotEnoughData
   <-> size source < deswizzled_mip_size width height depth bytes_per_pixel)
  /\ (deswizzle_block_linear width height depth source block_height
        bytes_per_pixel = NotEnoughData
      <-> size source
          < swizzled_mip_size width height depth block_height bytes_per_pixel)
  /\ swizzle_block_linear width height depth source block_height
       bytes_per_pixel <> OutOfBounds
  /\ deswizzle_block_linear width height depth source block_height
       bytes_per_pixel <> OutOfBounds.
Proof.
  intros Hw Hh Hd Hb Hbh.
  pose proof (bl_not_enough_data width height depth block_height
                bytes_per_pixel Hw Hh Hd Hb Hbh) as Hned.
  pose proof (bl_transfer_ok width height depth block_height
                bytes_per_pixel Hw Hh Hd Hb Hbh) as Hok.
  split; [apply (Hned false)|]. split; [apply (Hned true)|]. split.
  - destruct (N.le_gt_cases
                (deswizzled_mip_size width height depth bytes_per_pixel)
                (size source)) as [Hle|Hlt].
    + destruct (Hok false source Hle) as (r & Hr & _). cbv beta iota in Hr.
      rewrite Hr. discriminate.
    + apply (Hned false) in Hlt. cbv beta iota in Hlt.
      rewrite Hlt. discriminate.
  - destruct (N.le_gt_cases
                (swizzled_mip_size width height depth block_height
                   bytes_per_pixel)
                (size source)) as [Hle|Hlt].
    + destruct (Hok true source Hle) as (r & Hr & _). cbv beta iota in Hr.
      rewrite Hr. discriminate.
    + apply (Hned true) in Hlt. cbv beta iota in Hlt.
      rewrite Hlt. discriminate.
Qed.

Lemma block_linear_not_enough_data_witness :
  (swizzle_block_linear 3 2 1 (replicate 11 Byte.x2a) BlockHeight.One 4
   = NotEnoughData
   <-> size (replicate 11 Byte.x2a) < deswizzled_mip_size 3 2 1 4)
  /\ (deswizzle_block_linear 3 2 1 (replicate 11 Byte.x2a) BlockHeight.One 4
      = NotEnoughData
      <-> size (replicate 11 Byte.x2a)
          < swizzled_mip_size 3 2 1 BlockHeight.One 4)
  /\ swizzle_block_linear 3 2 1 (replicate 11 Byte.x2a) BlockHeight.One 4
     <> OutOfBounds
  /\ deswizzle_block_linear 3 2 1 (replicate 11 Byte.x2a) BlockHeight.One 4
     <> OutOfBounds.
Proof.
  apply (block_linear_not_enough_data 3 2 1 (replicate 11 Byte.x2a)
           BlockHeight.One 4); try (by vm_compute).
  by left.
Defined.

(** ** surface.h: where the surface transfers put each byte *)

(** X17: [swizzle_surface] on a source of at least the deswizzled size
    succeeds with a result of the swizzled size in which byte [(x, y, z)]
    of each mip level of each layer sits at its block-linear address. *)
Theorem swizzle_surface_placement
  (width height depth : N) (source : buffer) (block_dim : BlockDim)
  (block_height_mip0 : option BlockHeight)
  (bytes_per_pixel mipmap_count layer_count : N) :
  valid_descriptor width height depth block_dim block_height_mip0
    bytes_per_pixel mipmap_count layer_count ->
  representable width height depth block_dim mipmap_count layer_count ->
  deswizzled_surface_size width height depth block_dim bytes_per_pixel
    mipmap_count layer_count <= size source ->
  exists result,
    swizzle_surface width height depth source block_dim block_height_mip0
      bytes_per_pixel mipmap_count layer_count = Ok result
    /\ size result
       = swizzled_surface_size width height depth block_dim
           block_height_mip0 bytes_per_pixel mipmap_count layer_count
    /\ forall layer mip x y z,
         in_surface width height depth block_dim bytes_per_pixel
           mipmap_count layer_count layer mip x y z ->
         result !! N.to_nat
           (surface_address width height depth block_dim
              (resolved_block_height_mip0 height depth block_dim
                 block_height_mip0)
              bytes_per_pixel mipmap_count layer_count layer mip x y z)
         = source !! N.to_nat
             (surface_linear width height depth block_dim bytes_per_pixel
                mipmap_count layer mip x y z).
Proof.
  intros Hvalid Hrep Hsrc.
  destruct (transfer_ok _ _ _ _ _ _ _ _ Hvalid Hrep false source Hsrc)
    as (r & Hr & Hsz & _ & Hm).
  exists r. split; [exact Hr|]. split; [exact Hsz|].
  intros layer mip x y z Hin.
  apply (Hm (surface_address width height depth block_dim
               (resolved_block_height_mip0 height depth block_dim
                  block_height_mip0)
               bytes_per_pixel mipmap_count layer_count layer mip x y z,
             surface_linear width height depth block_dim bytes_per_pixel
               mipmap_count layer mip x y z)).
  apply (elem_of_moves _ _ _ _ _ _ _ _ Hvalid Hrep false).
  exists layer, mip, x, y, z. split; [exact Hin|reflexivity].
Qed.

Lemma swizzle_surface_placement_witness :
  exists result,
    swizzle_surface 3 2 1 (replicate 56 Byte.x2a) block_dim_uncompressed
      None 4 2 2 = Ok result
    /\ size result
       = swizzled_surface_size 3 2 1 block_dim_uncompressed None 4 2 2
    /\ forall layer mip x y z,
         in_surface 3 2 1 block_dim_uncompressed 4 2 2 layer mip x y z ->
         result !! N.to_nat
           (surface_address 3 2 1 block_dim_uncompressed
              (resolved_block_height_mip0 2 1 block_dim_uncompressed None)
              4 2 2 layer mip x y z)
         = replicate 56 Byte.x2a !! N.to_nat
             (surface_linear 3 2 1 block_dim_uncompressed 4 2 layer mip
                x y z).
Proof.
  apply (swizzle_surface_placement 3 2 1 (replicate 56 Byte.x2a)
           block_dim_uncompressed None 4 2 2).
  - constructor; simpl; try lia. discriminate.
  - constructor; simpl; lia.
  - by vm_compute.
Defined.

(** X18: [deswizzle_surface] on a source of at least the swizzled size
    succeeds with a result of the deswizzled size whose byte at the linear
    offset of [(x, y, z)] of a mip level of a layer is the source byte at
    the block-linear address of that position. *)
Theorem deswizzle_surface_placement
  (width height depth : N) (source : buffer) (block_dim : BlockDim)
  (block_height_mip0 : option BlockHeight)
  (bytes_per_pixel mipmap_count layer_count : N) :
  valid_descriptor width height depth block_dim block_height_mip0
    bytes_per_pixel mipmap_count layer_count ->
  representable width height depth block_dim mipmap_count layer_count ->
  swizzled_surface_size width height depth block_dim block_height_mip0
    bytes_per_pixel mipmap_count layer_count <= size source ->
  exists result,
    deswizzle_surface width height depth source block_dim block_height_mip0
      bytes_per_pixel mipmap_count layer_count = Ok result
    /\ size result
       = deswizzled_surface_size width height depth block_dim
           bytes_per_pixel mipmap_count layer_count
    /\ forall layer mip x y z,
         in_surface width height depth block_dim bytes_per_pixel
           mipmap_count layer_count layer mip x y z ->
         result !! N.to_nat
           (surface_linear width height depth block_dim bytes_per_pixel
              mipmap_count layer mip x y z)
         = source !! N.to_nat
             (surface_address width height depth block_dim
                (resolved_block_height_mip0 height depth block_dim
                   block_height_mip0)
                bytes_per_pixel mipmap_count layer_count layer mip x y z).
Proof.
  intros Hvalid Hrep Hsrc.
  destruct (transfer_ok _ _ _ _ _ _ _ _ Hvalid Hrep true source Hsrc)
    as (r & Hr & Hsz & _ & Hm).
  exists r. split; [exact Hr|]. split; [exact Hsz|].
  intros layer mip x y z Hin.
  apply (Hm (surface_linear width height depth block_dim bytes_per_pixel
               mipmap_count layer mip x y z,
             surface_address width height depth block_dim
               (resolved_block_height_mip0 height depth block_dim
                  block_height_mip0)
               bytes_per_pixel mipmap_count layer_count layer mip x y z)).
  apply (elem_of_moves _ _ _ _ _ _ _ _ Hvalid Hrep true).
  exists layer, mip, x, y, z. split; [exact Hin|reflexivity].
Qed.

Lemma deswizzle_surface_placement_witness :
  exists result,
    deswizzle_surface 3 2 1 (replicate 2048 Byte.x2a) block_dim_uncompressed
      None 4 2 2 = Ok result
    /\ size result
       = deswizzled_surface_size 3 2 1 block_dim_uncompressed 4 2 2
    /\ forall layer mip x y z,
         in_surface 3 2 1 block_dim_uncompressed 4 2 2 layer mip x y z ->
         result !! N.to_nat
           (surface_linear 3 2 1 block_dim_uncompressed 4 2 layer mip x y z)
         = replicate 2048 Byte.x2a !! N.to_nat
             (surface_address 3 2 1 block_dim_uncompressed
                (resolved_block_height_mip0 2 1 block_dim_uncompressed None)
                4 2 2 layer mip x y z).
Proof.
  apply (deswizzle_surface_placement 3 2 1 (replicate 2048 Byte.x2a)
           block_dim_uncompressed None 4 2 2).
  - constructor; simpl; try lia. discriminate.
  - constructor; simpl; lia.
  - by vm_compute.
Defined.

(** X19: [deswizzle_surface] reads the image bytes only: two sources of
    sufficient size that agree at every block-linear address of the image
    deswizzle to the same result, whatever their padding holds. *)
Theorem deswizzle_surface_ignores_padding
  (width height depth : N) (source source' : buffer) (block_dim : BlockDim)
  (block_height_mip0 : option BlockHeight)
  (bytes_per_pixel mipmap_count layer_count : N) :
  valid_descriptor width height depth block_dim block_height_mip0
    bytes_per_pixel mipmap_count layer_count ->
  representable width height depth block_dim mipmap_count layer_count ->
  swizzled_surface_size width height depth block_dim block_height_mip0
    bytes_per_pixel mipmap_count layer_count <= size source ->
  swizzled_surface_size width height depth block_dim block_height_mip0
    bytes_per_pixel mipmap_count layer_count <= size source' ->
  (forall layer mip x y z,
     in_surface width height depth block_dim bytes_per_pixel
       mipmap_count layer_count layer mip x y z ->
     let a :=
       surface_address width height depth block_dim
         (resolved_block_height_mip0 height depth block_dim
            block_height_mip0)
         bytes_per_pixel mipmap_count layer_count layer mip x y z in
     source !! N.to_nat a = source' !! N.to_nat a) ->
  deswizzle_surface width height depth source block_dim block_height_mip0
    bytes_per_pixel mipmap_count layer_count
  = deswizzle_surface width height depth source' block_dim
      block_height_mip0 bytes_per_pixel mipmap_count layer_count.
Proof.
  intros Hvalid Hrep Hsrc Hsrc' Hagree.
  pose proof (transfer_moves _ _ _ _ _ _ _ _ Hvalid Hrep true source) as H1.
  pose proof (transfer_moves _ _ _ _ _ _ _ _ Hvalid Hrep true source') as H2.
  cbv beta iota in H1, H2. rewrite H1, H2.
  destruct (N.ltb_spec (size source)
              (swizzled_surface_size width height depth block_dim
                 block_height_mip0 bytes_per_pixel mipmap_count layer_count));
    [lia|].
  destruct (N.ltb_spec (size source')
              (swizzled_surface_size width height depth block_dim
                 block_height_mip0 bytes_per_pixel mipmap_count layer_count));
    [lia|].
  apply apply_moves_src_ext. intros m Hm.
  apply (elem_of_moves _ _ _ _ _ _ _ _ Hvalid Hrep true) in Hm
    as (layer & mip & x & y & z & Hin & ->).
  apply (Hagree layer mip x y z Hin).
Qed.

Lemma deswizzle_surface_ignores_padding_witness :
  deswizzle_surface 1 1 1 (Byte.x2a :: replicate 511 Byte.x00)
    block_dim_uncompressed None 1 1 1
  = deswizzle_surface 1 1 1 (Byte.x2a :: replicate 511 Byte.xff)
      block_dim_uncompressed None 1 1 1.
Proof.
  apply (deswizzle_surface_ignores_padding 1 1 1
           (Byte.x2a :: replicate 511 Byte.x00)
           (Byte.x2a :: replicate 511 Byte.xff)
           block_dim_uncompressed None 1 1 1).
  - constructor; simpl; try lia. discriminate.
  - constructor; simpl; lia.
  - by vm_compute.
  - by vm_compute.
  - intros layer mip x y z (Hl & Hm & Hx & Hy & Hz).
    assert (layer = 0) as -> by lia. assert (mip = 0) as -> by lia.
    assert (x = 0) as ->
      by (change (mip_dimension 1 0 (bd_width block_dim_uncompressed) * 1)
            with 1 in Hx; lia).
    assert (y = 0) as ->
      by (change (mip_dimension 1 0 (bd_height block_dim_uncompressed))
            with 1 in Hy; lia).
    assert (z = 0) as ->
      by (change (mip_dimension 1 0 (bd_depth block_dim_uncompressed))
            with 1 in Hz; lia).
    reflexivity.
Defined.

(** X20: deswizzling a swizzled surface and swizzling the result again
    keeps every image byte at its address and clears the padding; a
    source of exactly the swizzled size whose padding is zero comes back
    unchanged. *)
Theorem swizzle_deswizzled_surface
  (width height depth : N) (swizzled : buffer) (block_dim : BlockDim)
  (block_height_mip0 : option BlockHeight)
  (bytes_per_pixel mipmap_count layer_count : N) :
  valid_descriptor width height depth block_dim block_height_mip0
    bytes_per_pixel mipmap_count layer_count ->
  representable width height depth block_dim mipmap_count layer_count ->
  let swizzled_size :=
    swizzled_surface_size width height depth block_dim block_height_mip0
      bytes_per_pixel mipmap_count layer_count in
  let inside :=
    in_surface width height depth block_dim bytes_per_pixel mipmap_count
      layer_count in
  let address :=
    surface_address width height depth block_dim
      (resolved_block_height_mip0 height depth block_dim block_height_mip0)
      bytes_per_pixel mipmap_count layer_count in
  let padding i :=
    i < swizzled_size /\
    forall layer mip x y z,
      inside layer mip x y z -> address layer mip x y z <> i in
  swizzled_size <= size swizzled ->
  exists linear again,
    deswizzle_surface width height depth swizzled block_dim
      block_height_mip0 bytes_per_pixel mipmap_count layer_count = Ok linear
    /\ swizzle_surface width height depth linear block_dim
         block_height_mip0 bytes_per_pixel mipmap_count layer_count
       = Ok again
    /\ size again = swizzled_size
    /\ (forall layer mip x y z,
          inside layer mip x y z ->
          again !! N.to_nat (address layer mip x y z)
          = swizzled !! N.to_nat (address layer mip x y z))
    /\ (forall i, padding i -> again !! N.to_nat i = Some x00%byte)
    /\ (size swizzled = swizzled_size ->
        (forall i, padding i -> swizzled !! N.to_nat i = Some x00%byte) ->
        again = swizzled).
Proof.
  intros Hvalid Hrep swizzled_size inside address padding Hsrc.
  destruct (transfer_ok _ _ _ _ _ _ _ _ Hvalid Hrep true swizzled Hsrc)
    as (l & Hl & Hlsz & _ & Hlm).
  assert (deswizzled_surface_size width height depth block_dim
            bytes_per_pixel mipmap_count layer_count <= size l) as Hlin
    by (rewrite Hlsz; apply N.le_refl).
  destruct (transfer_ok _ _ _ _ _ _ _ _ Hvalid Hrep false l Hlin)
    as (s & Hs & Hssz & Hother & Hsm).
  fold swizzled_size in Hssz, Hother.
  assert (forall layer mip x y z,
            inside layer mip x y z ->
            s !! N.to_nat (address layer mip x y z)
            = swizzled !! N.to_nat (address layer mip x y z)) as Himage.
  { intros layer mip x y z Hin.
    set (lin := surface_linear width height depth block_dim bytes_per_pixel
                  mipmap_count layer mip x y z).
    assert ((address layer mip x y z, lin)
            ∈ surface_moves width height depth block_dim
                (resolved_block_height_mip0 height depth block_dim
                   block_height_mip0)
                bytes_per_pixel mipmap_count layer_count false) as H1.
    { apply (elem_of_moves _ _ _ _ _ _ _ _ Hvalid Hrep false).
      exists layer, mip, x, y, z. split; [exact Hin|reflexivity]. }
    assert ((lin, address layer mip x y z)
            ∈ surface_moves width height depth block_dim
                (resolved_block_height_mip0 height depth block_dim
                   block_height_mip0)
                bytes_per_pixel mipmap_count layer_count true) as H2.
    { apply (elem_of_moves _ _ _ _ _ _ _ _ Hvalid Hrep true).
      exists layer, mip, x, y, z. split; [exact Hin|reflexivity]. }
    apply Hsm in H1. apply Hlm in H2. cbn [fst snd] in H1, H2.
    by rewrite H1, H2. }
  assert (forall i,
            i ∉ (surface_moves width height depth block_dim
                   (resolved_block_height_mip0 height depth block_dim
                      block_height_mip0)
                   bytes_per_pixel mipmap_count layer_count false).*1 ->
            forall layer mip x y z,
              inside layer mip x y z -> address layer mip x y z <> i)
    as Hnot.
  { intros i Hi layer mip x y z Hin Heq. apply Hi.
    apply list_elem_of_fmap.
    exists (address layer mip x y z,
            surface_linear width height depth block_dim bytes_per_pixel
              mipmap_count layer mip x y z).
    split; [by rewrite <-Heq|].
    apply (elem_of_moves _ _ _ _ _ _ _ _ Hvalid Hrep false).
    exists layer, mip, x, y, z. split; [exact Hin|reflexivity]. }
  assert (forall i, padding i -> s !! N.to_nat i = Some x00%byte) as Hpadding.
  { intros i [Hi Hpad]. rewrite Hother.
    - apply lookup_replicate_2. lia.
    - intros (m & -> & Hm)%list_elem_of_fmap.
      apply (elem_of_moves _ _ _ _ _ _ _ _ Hvalid Hrep false) in Hm
        as (layer & mip & x & y & z & Hin & ->).
      by apply (Hpad layer mip x y z Hin). }
  exists l, s. split; [exact Hl|]. split; [exact Hs|]. split; [exact Hssz|].
  split; [exact Himage|]. split; [exact Hpadding|].
  intros Hsz Hzero. apply list_eq. intros j.
  destruct (decide (N.of_nat j < swizzled_size)) as [Hj|Hj].
  - destruct (decide
                (N.of_nat j
                 ∈ (surface_moves width height depth block_dim
                      (resolved_block_height_mip0 height depth block_dim
                         block_height_mip0)
                      bytes_per_pixel mipmap_count layer_count false).*1))
      as [Hin|Hout].
    + apply list_elem_of_fmap in Hin as (m & Hm1 & Hm).
      apply (elem_of_moves _ _ _ _ _ _ _ _ Hvalid Hrep false) in Hm
        as (layer & mip & x & y & z & Hin & ->).
      cbn [fst] in Hm1. fold (address layer mip x y z) in Hm1.
      pose proof (Himage layer mip x y z Hin) as Heq.
      rewrite <-Hm1, Nat2N.id in Heq. exact Heq.
    + pose proof (Hnot _ Hout) as Hpad.
      pose proof (Hpadding (N.of_nat j) (conj Hj Hpad)) as H1.
      pose proof (Hzero (N.of_nat j) (conj Hj Hpad)) as H2.
      rewrite Nat2N.id in H1, H2. by rewrite H1, H2.
  - rewrite !lookup_ge_None_2; [done|unfold size in *; lia..].
Qed.

Lemma swizzle_deswizzled_surface_witness :
  let swizzled := Byte.x2a :: replicate 511 Byte.x00 in
  let swizzled_size :=
    swizzled_surface_size 1 1 1 block_dim_uncompressed None 1 1 1 in
  let inside := in_surface 1 1 1 block_dim_uncompressed 1 1 1 in
  let address :=
    surface_address 1 1 1 block_dim_uncompressed
      (resolved_block_height_mip0 1 1 block_dim_uncompressed None) 1 1 1 in
  let padding i :=
    i < swizzled_size /\
    forall layer mip x y z,
      inside layer mip x y z -> address layer mip x y z <> i in
  exists linear again,
    deswizzle_surface 1 1 1 swizzled block_dim_uncompressed None 1 1 1
    = Ok linear
    /\ swizzle_surface 1 1 1 linear block_dim_uncompressed None 1 1 1
       = Ok again
    /\ size again = swizzled_size
    /\ (forall layer mip x y z,
          inside layer mip x y z ->
          again !! N.to_nat (address layer mip x y z)
          = swizzled !! N.to_nat (address layer mip x y z))
    /\ (forall i, padding i -> again !! N.to_nat i = Some x00%byte)
    /\ (size swizzled = swizzled_size ->
        (forall i, padding i -> swizzled !! N.to_nat i = Some x00%byte) ->
        again = swizzled).
Proof.
  apply (swizzle_deswizzled_surface 1 1 1
           (Byte.x2a :: replicate 511 Byte.x00)
           block_dim_uncompressed None 1 1 1).
  - constructor; simpl; try lia. discriminate.
  - constructor; simpl; lia.
  - by vm_compute.
Defined.

(** ** surface.h and swizzle.h: a surface of one level *)

Lemma mip_block_depth_self d :
  d <= 16384 -> mip_block_depth d (block_depth d) = block_depth d.
Proof.
  intros Hd. unfold block_depth. rewrite add_small by lia.
  unfold mip_block_depth.
  split_compares; unroll_halve_while; split_compares; reflexivity || lia.
Qed.

Lemma mip_dimension_0 dim block :
  1 <= dim <= 16384 -> 1 <= block <= 16384 ->
  mip_dimension dim 0 block = div_round_up dim block.
Proof.
  intros Hdim Hblock. unfold mip_dimension. rewrite N.shiftr_0_r.
  rewrite div_round_up_eq by lia.
  pose proof (cdiv_mul_ge dim block ltac:(lia)).
  assert (1 <= cdiv dim block) by nia. lia.
Qed.

Lemma shift_move_0 (ms : list move) : shift_move 0 0 <$> ms = ms.
Proof.
  induction ms as [|[a b] ms IH]; [done|].
  rewrite fmap_cons, IH. unfold shift_move. cbn [fst snd].
  by rewrite !N.add_0_r.
Qed.

Lemma single_level_moves w h d block_dim bh0 bpp (D : bool) :
  surface_moves w h d block_dim bh0 bpp 1 1 D
  = mip_moves w h d block_dim bh0 bpp D 0.
Proof.
  unfold surface_moves, mip_swizzled_offset, mip_deswizzled_offset.
  change (N_range 1) with [0]. cbn [mbind list_bind app].
  change (N_range 0) with (@nil N). cbn [sumN foldr].
  rewrite !N.mul_0_l, !app_nil_r. destruct D; apply shift_move_0.
Qed.

Lemma single_level_sizes w h d block_dim bh_mip0 bpp :
  valid_descriptor w h d block_dim bh_mip0 bpp 1 1 ->
  representable w h d block_dim 1 1 ->
  swizzled_surface_size w h d block_dim bh_mip0 bpp 1 1
  = mip_swizzled_size w h d block_dim
      (resolved_block_height_mip0 h d block_dim bh_mip0) bpp 0
  /\ deswizzled_surface_size w h d block_dim bpp 1 1
     = mip_deswizzled_size w h d block_dim bpp 0.
Proof.
  intros Hvalid Hrep.
  destruct (surface_sizes_layers _ _ _ _ _ _ _ _ Hvalid Hrep) as [-> ->].
  unfold layer_swizzled_size, layer_deswizzled_size.
  change (N_range 1) with [0]. cbn [sumN foldr].
  change (1 <? 1) with false. cbv iota zeta.
  rewrite !N.mul_1_l, !N.add_0_r. done.
Qed.

(** X21: on a surface of one layer and one mip level whose block
    dimensions have depth 1, the surface transfers are the block-linear
    transfers of the level in blocks, at the block height the surface code
    derives for mip 0. *)
Theorem single_level_surface
  (width height depth : N) (source : buffer) (block_dim : BlockDim)
  (block_height_mip0 : option BlockHeight) (bytes_per_pixel : N) :
  valid_descriptor width height depth block_dim block_height_mip0
    bytes_per_pixel 1 1 ->
  representable width height depth block_dim 1 1 ->
  bd_depth block_dim = 1 ->
  let mip_width := div_round_up width (bd_width block_dim) in
  let mip_height := div_round_up height (bd_height block_dim) in
  let block_height :=
    mip_block_height mip_height
      (resolved_block_height_mip0 height depth block_dim block_height_mip0)
  in
  swizzle_surface width height depth source block_dim block_height_mip0
    bytes_per_pixel 1 1
  = swizzle_block_linear mip_width mip_height depth source block_height
      bytes_per_pixel
  /\ deswizzle_surface width height depth source block_dim
       block_height_mip0 bytes_per_pixel 1 1
     = deswizzle_block_linear mip_width mip_height depth source block_height
         bytes_per_pixel
  /\ swizzled_surface_size width height depth block_dim block_height_mip0
       bytes_per_pixel 1 1
     = swizzled_mip_size mip_width mip_height depth block_height
         bytes_per_pixel
  /\ deswizzled_surface_size width height depth block_dim bytes_per_pixel
       1 1
     = deswizzled_mip_size mip_width mip_height depth bytes_per_pixel.
Proof.
  intros Hvalid Hrep Hbd mip_width mip_height block_height.
  pose proof Hvalid as v. pose proof Hrep as r.
  destruct Hvalid as [Hw1 Hh1 Hd1 Hbw1 Hbh1 Hbd1 Hbpp Hm1 Hl1 Hbh0].
  destruct Hrep as [Hw Hh Hd Hbw Hbh Hbd' _ _].
  assert (mip_dimension width 0 (bd_width block_dim) = mip_width) as Emw
    by (apply mip_dimension_0; lia).
  assert (mip_dimension height 0 (bd_height block_dim) = mip_height) as Emh
    by (apply mip_dimension_0; lia).
  assert (mip_dimension depth 0 (bd_depth block_dim) = depth) as Emd.
  { rewrite mip_dimension_0, Hbd by lia.
    rewrite div_round_up_eq by lia. unfold cdiv. rewrite N.div_1_r. lia. }
  assert (mip_width <= 16384 /\ mip_height <= 16384) as [Hmw Hmh].
  { rewrite <-Emw, <-Emh.
    split; apply mip_dimension_le; lia. }
  assert (valid_block_height block_height) as Hvbh.
  { apply mip_block_height_valid.
    apply (resolved_block_height_mip0_valid width height depth block_dim
             block_height_mip0 bytes_per_pixel 1 1 v). }
  destruct (single_level_sizes _ _ _ _ _ _ v r) as [Eswz Elin].
  unfold mip_swizzled_size in Eswz. unfold mip_deswizzled_size in Elin.
  rewrite Emw, Emh, Emd in Eswz, Elin.
  fold block_height in Eswz.
  assert (forall D : bool,
            surface_moves width height depth block_dim
              (resolved_block_height_mip0 height depth block_dim
                 block_height_mip0)
              bytes_per_pixel 1 1 D
            = inner_moves D mip_width mip_height depth block_height
                (block_depth depth) bytes_per_pixel) as Emoves.
  { intros D. rewrite single_level_moves. unfold mip_moves.
    rewrite Emw, Emh, Emd. fold block_height.
    by rewrite mip_block_depth_self. }
  pose proof (transfer_moves _ _ _ _ _ _ _ _ v r) as Hsurface.
  pose proof (bl_transfer_moves mip_width mip_height depth block_height
                bytes_per_pixel Hmw Hmh Hd (proj2 Hbpp) Hvbh) as Hblock.
  split; [|split; [|split; [exact Eswz|exact Elin]]].
  - specialize (Hsurface false source). specialize (Hblock false source).
    cbv beta iota in Hsurface, Hblock.
    rewrite Hsurface, Hblock, Emoves, Eswz, Elin. reflexivity.
  - specialize (Hsurface true source). specialize (Hblock true source).
    cbv beta iota in Hsurface, Hblock.
    rewrite Hsurface, Hblock, Emoves, Eswz, Elin. reflexivity.
Qed.

Lemma single_level_surface_witness :
  let source := replicate 64 Byte.x2a in
  let mip_width := div_round_up 8 (bd_width block_dim_4x4) in
  let mip_height := div_round_up 8 (bd_height block_dim_4x4) in
  let block_height :=
    mip_block_height mip_height
      (resolved_block_height_mip0 8 1 block_dim_4x4 None)
  in
  swizzle_surface 8 8 1 source block_dim_4x4 None 16 1 1
  = swizzle_block_linear mip_width mip_height 1 source block_height 16
  /\ deswizzle_surface 8 8 1 source block_dim_4x4 None 16 1 1
     = deswizzle_block_linear mip_width mip_height 1 source block_height 16
  /\ swizzled_surface_size 8 8 1 block_dim_4x4 None 16 1 1
     = swizzled_mip_size mip_width mip_height 1 block_height 16
  /\ deswizzled_surface_size 8 8 1 block_dim_4x4 16 1 1
     = deswizzled_mip_size mip_width mip_height 1 16.
Proof.
  apply (single_level_surface 8 8 1 (replicate 64 Byte.x2a) block_dim_4x4
           None 16).
  - constructor; simpl; try lia. discriminate.
  - constructor; simpl; lia.
  - reflexivity.
Defined.

(** ** swizzle.h and surface.h: one mip level inside larger vectors *)

Section inner_frame.
Context (w h d : N) (bh : BlockHeight) (bd bpp : N).
Context (Hw : w <= 16384) (Hh : h <= 16384) (Hd : d <= 16384)
  (Hb : bpp <= 16) (Hbh : valid_block_height bh)
  (Hbd : valid_block_depth bd)
  (Hround : round_up d bd <= round_up d (block_depth d)).

Lemma inner_address_lt x y z :
  x < w * bpp -> y < h -> z < d ->
  mip_address w h bh bd bpp x y z < swizzled_mip_size w h d bh bpp.
Proof.
  intros Hx Hy Hz.
  pose proof (valid_block_height_bounds _ Hbh) as Hbh'.
  pose proof (valid_block_depth_bounds _ Hbd) as Hbd'.
  pose proof (valid_block_depth_bounds _ (block_depth_valid d)) as Hbd0.
  rewrite (swizzled_mip_size_eq w h d bh bpp Hw Hh Hd Hb Hbh').
  pose proof (mip_address_lt w h d bh bd bpp (proj1 Hbh') (proj1 Hbd')
                x y z Hx Hy Hz) as Hlt.
  assert (2 ^ 64 = 18446744073709551616) as Hpow by reflexivity.
  rewrite !round_up_eq in Hround by lia.
  unfold swizzled_mip_size_exact.
  eapply N.lt_le_trans; [exact Hlt|].
  apply N.mul_le_mono_r, N.mul_le_mono_l, Hround.
Qed.

Lemma inner_moves_in_bounds (D : bool) m :
  m ∈ inner_moves D w h d bh bd bpp ->
  m.1 < (if D then deswizzled_mip_size w h d bpp
         else swizzled_mip_size w h d bh bpp)
  /\ m.2 < (if D then swizzled_mip_size w h d bh bpp
            else deswizzled_mip_size w h d bpp).
Proof.
  intros Hm.
  apply (elem_of_inner_moves w h d bh bd bpp Hw Hh Hd Hb Hbh Hbd D m) in Hm
    as (x & y & z & Hx & Hy & Hz & ->).
  pose proof (inner_address_lt _ _ _ Hx Hy Hz) as Haddr.
  pose proof (mip_linear_lt w h d bpp x y z Hx Hy Hz) as Hlin.
  fold (deswizzled_mip_size_exact w h d bpp) in Hlin.
  rewrite <-(deswizzled_mip_size_eq w h d bpp Hw Hh Hd Hb) in Hlin.
  destruct D; cbn [mip_move fst snd]; split; assumption.
Qed.

Lemma inner_moves_functional (D : bool) m1 m2 :
  m1 ∈ inner_moves D w h d bh bd bpp ->
  m2 ∈ inner_moves D w h d bh bd bpp -> m1.1 = m2.1 -> m1.2 = m2.2.
Proof.
  intros Hm1 Hm2.
  apply (elem_of_inner_moves w h d bh bd bpp Hw Hh Hd Hb Hbh Hbd D m1) in Hm1
    as (x1 & y1 & z1 & Hx1 & Hy1 & Hz1 & ->).
  apply (elem_of_inner_moves w h d bh bd bpp Hw Hh Hd Hb Hbh Hbd D m2) in Hm2
    as (x2 & y2 & z2 & Hx2 & Hy2 & Hz2 & ->).
  pose proof (valid_block_height_bounds _ Hbh) as Hbh'.
  pose proof (valid_block_depth_bounds _ Hbd) as Hbd'.
  destruct D; cbn [mip_move fst snd]; intros Heq.
  - apply mip_linear_inj in Heq as (-> & -> & ->); [reflexivity|assumption..].
  - apply (mip_address_inj w h d bh bd bpp (proj1 Hbh') (proj1 Hbd')) in Heq
      as (-> & -> & ->); [reflexivity|assumption..].
Qed.

(** The moves of the level applied at offsets into two larger vectors. *)
Lemma shifted_moves_ok (D : bool) src dst so do :
  so + (if D then swizzled_mip_size w h d bh bpp
        else deswizzled_mip_size w h d bpp) <= size src ->
  do + (if D then deswizzled_mip_size w h d bpp
        else swizzled_mip_size w h d bh bpp) <= size dst ->
  exists r,
    apply_moves src (shift_move do so <$> inner_moves D w h d bh bd bpp) dst
    = Ok r
    /\ size r = size dst
    /\ (forall x y z, x < w * bpp -> y < h -> z < d ->
          r !! N.to_nat ((mip_move D w h bh bd bpp x y z).1 + do)
          = src !! N.to_nat ((mip_move D w h bh bd bpp x y z).2 + so))
    /\ (forall i,
          (forall x y z, x < w * bpp -> y < h -> z < d ->
             (mip_move D w h bh bd bpp x y z).1 + do <> i) ->
          r !! N.to_nat i = dst !! N.to_nat i).
Proof.
  intros Hsrc Hdst.
  set (ms := shift_move do so <$> inner_moves D w h d bh bd bpp).
  assert (forall m, m ∈ ms <->
            exists x y z, x < w * bpp /\ y < h /\ z < d /\
              m = shift_move do so (mip_move D w h bh bd bpp x y z)) as Hms.
  { intros m. unfold ms. rewrite list_elem_of_fmap. split.
    - intros (m' & -> & Hm').
      apply (elem_of_inner_moves w h d bh bd bpp Hw Hh Hd Hb Hbh Hbd D m')
        in Hm' as (x & y & z & Hx & Hy & Hz & ->).
      exists x, y, z. done.
    - intros (x & y & z & Hx & Hy & Hz & ->).
      exists (mip_move D w h bh bd bpp x y z). split; [done|].
      apply (elem_of_inner_moves w h d bh bd bpp Hw Hh Hd Hb Hbh Hbd D).
      exists x, y, z. done. }
  assert (forall m, m ∈ ms -> m.1 < size dst /\ m.2 < size src) as Hbnd.
  { intros m (m' & -> & Hm')%list_elem_of_fmap.
    apply inner_moves_in_bounds in Hm' as [H1 H2].
    unfold shift_move. cbn [fst snd]. clear -H1 H2 Hsrc Hdst. lia. }
  assert (forall m1 m2, m1 ∈ ms -> m2 ∈ ms -> m1.1 = m2.1 -> m1.2 = m2.2)
    as Hfun.
  { intros m1 m2 (m1' & -> & Hm1)%list_elem_of_fmap
      (m2' & -> & Hm2)%list_elem_of_fmap.
    unfold shift_move. cbn [fst snd]. intros Heq.
    apply N.add_cancel_r in Heq.
    by rewrite (inner_moves_functional D m1' m2' Hm1 Hm2 Heq). }
  destruct (apply_moves_total src ms dst Hbnd) as [r Hr].
  exists r. split; [exact Hr|]. split.
  { unfold size. by rewrite (apply_moves_length _ _ _ _ Hr). }
  split.
  - intros x y z Hx Hy Hz.
    apply (apply_moves_lookup _ _ _ _
             (shift_move do so (mip_move D w h bh bd bpp x y z)) Hr Hfun).
    apply Hms. exists x, y, z. done.
  - intros i Hi. apply (apply_moves_other _ _ _ _ _ Hr).
    intros (m & -> & (x & y & z & Hx & Hy & Hz & ->)%Hms)%list_elem_of_fmap.
    by apply (Hi x y z).
Qed.
End inner_frame.



(** X23: [swizzle_mipmap] fails with [NotEnoughData] when the source is
    shorter than the source offset plus the source size of the level.
    When the source is long enough, the destination holds at least the
    destination size of the level from the destination offset on, and the
    block depth needs no more depth in GOBs than [swizzled_mip_size]
    reserves, the call transfers the level between the two offsets,
    advances both offsets by the sizes of the level, keeps the length of
    the destination, and changes no byte of it outside the window of the
    level.  The offsets are at most 2^62 and the destination is shorter
    than 2^64 bytes, so that no offset computation wraps around. *)
Theorem swizzle_mipmap_frame (DESWIZZLE : bool)
  (width height depth : N) (block_height : BlockHeight)
  (block_depth_ bytes_per_pixel : N) (source : buffer) (c : cursor) :
  width <= 16384 -> height <= 16384 -> depth <= 16384 ->
  bytes_per_pixel <= 16 -> valid_block_height block_height ->
  valid_block_depth block_depth_ ->
  round_up depth block_depth_ <= round_up depth (block_depth depth) ->
  cur_src_offset c <= 2 ^ 62 -> cur_dst_offset c <= 2 ^ 62 ->
  size (cur_dst c) < 2 ^ 64 ->
  let swizzled_size :=
    swizzled_mip_size width height depth block_height bytes_per_pixel in
  let deswizzled_size :=
    deswizzled_mip_size width height depth bytes_per_pixel in
  let src_size := if DESWIZZLE then swizzled_size else deswizzled_size in
  let dst_size := if DESWIZZLE then deswizzled_size else swizzled_size in
  let move :=
    mip_move DESWIZZLE width height block_height block_depth_
      bytes_per_pixel in
  let run :=
    swizzle_mipmap DESWIZZLE width height depth block_height block_depth_
      bytes_per_pixel source c in
  (size source < cur_src_offset c + src_size -> run = NotEnoughData)
  /\ (cur_src_offset c + src_size <= size source ->
      cur_dst_offset c + dst_size <= size (cur_dst c) ->
      exists result,
        run = Ok (mkCursor result (cur_src_offset c + src_size)
                    (cur_dst_offset c + dst_size))
        /\ size result = size (cur_dst c)
        /\ (forall x y z,
              x < width * bytes_per_pixel -> y < height -> z < depth ->
              result !! N.to_nat ((move x y z).1 + cur_dst_offset c)
              = source !! N.to_nat ((move x y z).2 + cur_src_offset c))
        /\ (forall i,
              i < cur_dst_offset c \/ cur_dst_offset c + dst_size <= i ->
              result !! N.to_nat i = cur_dst c !! N.to_nat i)).
Proof.
  intros Hw Hh Hd Hb Hbh Hbd Hround Hso Hdo Hsz swizzled_size
    deswizzled_size src_size dst_size move run.
  pose proof (valid_block_height_bounds _ Hbh) as Hbh'.
  pose proof (swizzled_mip_size_exact_le width height depth block_height
                bytes_per_pixel Hw Hh Hd Hb Hbh') as Hs1.
  pose proof (mip_size_exact_le width height depth block_height
                bytes_per_pixel (proj1 Hbh')) as Hs2.
  rewrite <-(swizzled_mip_size_eq width height depth block_height
               bytes_per_pixel Hw Hh Hd Hb Hbh') in Hs1, Hs2.
  rewrite <-(deswizzled_mip_size_eq width height depth bytes_per_pixel
               Hw Hh Hd Hb) in Hs2.
  fold swizzled_size in Hs1, Hs2. fold deswizzled_size in Hs2.
  change (2 ^ 47) with 140737488355328 in Hs1.
  change (2 ^ 62) with 4611686018427387904 in Hso, Hdo.
  assert (2 ^ 64 = 18446744073709551616) as Hpow by reflexivity.
  split.
  - intros Hshort. unfold run, swizzle_mipmap. cbv zeta.
    fold swizzled_size deswizzled_size.
    rewrite !add_small by (clear -Hs1 Hs2 Hso Hpow; lia).
    unfold src_size in Hshort. destruct DESWIZZLE; cbn [andb negb].
    + by apply N.ltb_lt in Hshort as ->.
    + by apply N.ltb_lt in Hshort as ->.
  - intros Hsrc Hdst. unfold run.
    rewrite (swizzle_mipmap_moves DESWIZZLE width height depth block_height
               block_depth_ bytes_per_pixel source c Hw Hh Hd Hb Hbh Hbd
               Hsrc Hso Hdo);
      [|clear -Hdst; lia|exact Hsz].
    destruct (shifted_moves_ok width height depth block_height block_depth_
                bytes_per_pixel Hw Hh Hd Hb Hbh Hbd Hround DESWIZZLE
                source (cur_dst c) (cur_src_offset c) (cur_dst_offset c)
                Hsrc Hdst)
      as (r & Hr & Hrsz & Hplace & Hframe).
    rewrite Hr. exists r. split; [reflexivity|]. split; [exact Hrsz|].
    split; [exact Hplace|].
    intros i Hi. apply Hframe. intros x y z Hx Hy Hz Heq.
    assert (move x y z ∈ inner_moves DESWIZZLE width height depth
              block_height block_depth_ bytes_per_pixel) as Hm.
    { apply (elem_of_inner_moves width height depth block_height
               block_depth_ bytes_per_pixel Hw Hh Hd Hb Hbh Hbd DESWIZZLE).
      exists x, y, z. done. }
    apply (inner_moves_in_bounds width height depth block_height
             block_depth_ bytes_per_pixel Hw Hh Hd Hb Hbh Hbd Hround)
      in Hm as [Hm _].
    fold swizzled_size deswizzled_size dst_size in Hm.
    fold (move x y z) in Heq.
    clear -Hm Heq Hi. lia.
Qed.

Lemma swizzle_mipmap_frame_witness :
  let source := replicate 30 Byte.x2a in
  let c := mkCursor (replicate 600 Byte.xff) 4 8 in
  let swizzled_size := swizzled_mip_size 3 2 1 BlockHeight.One 4 in
  let deswizzled_size := deswizzled_mip_size 3 2 1 4 in
  let src_size := deswizzled_size in
  let dst_size := swizzled_size in
  let move := mip_move false 3 2 BlockHeight.One 1 4 in
  let run := swizzle_mipmap false 3 2 1 BlockHeight.One 1 4 source c in
  (size source < cur_src_offset c + src_size -> run = NotEnoughData)
  /\ (cur_src_offset c + src_size <= size source ->
      cur_dst_offset c + dst_size <= size (cur_dst c) ->
      exists result,
        run = Ok (mkCursor result (cur_src_offset c + src_size)
                    (cur_dst_offset c + dst_size))
        /\ size result = size (cur_dst c)
        /\ (forall x y z,
              x < 3 * 4 -> y < 2 -> z < 1 ->
              result !! N.to_nat ((move x y z).1 + cur_dst_offset c)
              = source !! N.to_nat ((move x y z).2 + cur_src_offset c))
        /\ (forall i,
              i < cur_dst_offset c \/ cur_dst_offset c + dst_size <= i ->
              result !! N.to_nat i = cur_dst c !! N.to_nat i)).
Proof.
  apply (swizzle_mipmap_frame false 3 2 1 BlockHeight.One 1 4
           (replicate 30 Byte.x2a) (mkCursor (replicate 600 Byte.xff) 4 8));
    try (by vm_compute); by left.
Defined.

(** ** surface.h: the sizes of a surface *)

Lemma sumN_multiple {A} (f : A -> N) l k :
  1 <= k -> (forall i, i ∈ l -> f i mod k = 0 /\ k <= f i) ->
  sumN f l mod k = 0 /\ N.of_nat (length l) * k <= sumN f l.
Proof.
  intros Hk. induction l as [|a l IH]; intros H.
  - cbn [sumN foldr length]. split; [apply N.Div0.mod_0_l|lia].
  - destruct (H a ltac:(left)) as [H1 H2].
    destruct (IH ltac:(intros; apply H; by right)) as [H3 H4].
    cbn [sumN foldr length]. fold (sumN f l). split.
    + rewrite <-N.Div0.add_mod_idemp_l, H1, N.add_0_l. exact H3.
    + clear -H2 H4. lia.
Qed.

(** X24: the swizzled size of a surface is [layer_count] times a layer
    size that is a whole number of GOBs, holds at least one GOB per mip
    level and, when there are several layers, is a multiple of the block
    of GOBs of the mip-0 block height. *)
Theorem swizzled_surface_size_layers
  (width height depth : N) (block_dim : BlockDim)
  (block_height_mip0 : option BlockHeight)
  (bytes_per_pixel mipmap_count layer_count : N) :
  valid_descriptor width height depth block_dim block_height_mip0
    bytes_per_pixel mipmap_count layer_count ->
  representable width height depth block_dim mipmap_count layer_count ->
  exists layer_size,
    swizzled_surface_size width height depth block_dim block_height_mip0
      bytes_per_pixel mipmap_count layer_count = layer_count * layer_size
    /\ layer_size mod GOB_SIZE_IN_BYTES = 0
    /\ mipmap_count * GOB_SIZE_IN_BYTES <= layer_size
    /\ (1 < layer_count ->
        layer_size
        mod (mip_block_height height
               (resolved_block_height_mip0 height depth block_dim
                  block_height_mip0) * GOB_SIZE_IN_BYTES) = 0).
Proof.
  intros Hvalid Hrep. rewrite GOB_SIZE_IN_BYTES_eq.
  destruct (surface_sizes_layers _ _ _ _ _ _ _ _ Hvalid Hrep) as [-> _].
  set (bh0 := resolved_block_height_mip0 height depth block_dim
                block_height_mip0).
  exists (layer_swizzled_size width height depth block_dim bh0
            bytes_per_pixel mipmap_count layer_count).
  split; [reflexivity|].
  assert (forall mip,
            mip_swizzled_size width height depth block_dim bh0
              bytes_per_pixel mip mod 512 = 0
            /\ 512 <= mip_swizzled_size width height depth block_dim bh0
                        bytes_per_pixel mip) as Hmip.
  { intros mip. unfold bh0.
    destruct (mip_facts _ _ _ _ _ _ _ _ Hvalid Hrep mip)
      as (Hmw & Hmh & Hmd & Hbh & Hbd & Hbpp & -> & _).
    pose proof (valid_block_height_bounds _ Hbh) as Hbh'.
    pose proof (valid_block_depth_bounds _ Hbd) as Hbd'.
    split; [apply N.Div0.mod_mul|].
    match goal with
    | |- 512 <= cdiv ?a 64 * (cdiv ?b ?c * ?e) * (cdiv ?f ?g * ?g) * 512 =>
        pose proof (cdiv_mul_ge a 64 ltac:(lia));
        pose proof (cdiv_mul_ge b c ltac:(lia));
        pose proof (cdiv_mul_ge f g ltac:(lia));
        assert (1 <= cdiv a 64) by nia;
        assert (1 <= cdiv b c * e) by nia;
        assert (1 <= cdiv f g * g) by nia;
        set (X := cdiv a 64) in *; set (Y := cdiv b c * e) in *;
        set (Z := cdiv f g * g) in *
    end.
    nia. }
  destruct (sumN_multiple
              (mip_swizzled_size width height depth block_dim bh0
                 bytes_per_pixel)
              (N_range mipmap_count) 512 ltac:(lia)
              ltac:(intros; apply Hmip)) as [Hsum1 Hsum2].
  rewrite length_N_range, N2Nat.id in Hsum2.
  pose proof (valid_block_height_bounds _
                (mip_block_height_valid height bh0
                   (resolved_block_height_mip0_valid _ _ _ _ _ _ _ _ Hvalid)))
    as Hbh.
  unfold layer_swizzled_size. cbv zeta. unfold layer_alignment.
  set (mip_sum := sumN _ (N_range mipmap_count)) in *.
  set (B := mip_block_height height bh0) in *.
  destruct (N.ltb_spec 1 layer_count) as [Hl|Hl].
  - pose proof (cdiv_mul_ge mip_sum (B * 512) ltac:(lia)) as Hge.
    split; [|split].
    + rewrite N.mul_assoc. apply N.Div0.mod_mul.
    + clear -Hge Hsum2. lia.
    + intros _. apply N.Div0.mod_mul.
  - split; [exact Hsum1|]. split; [exact Hsum2|].
    intros Hl'. clear -Hl Hl'. lia.
Qed.

Lemma swizzled_surface_size_layers_witness :
  exists layer_size,
    swizzled_surface_size 128 128 1 block_dim_uncompressed None 4 8 6
    = 6 * layer_size
    /\ layer_size mod GOB_SIZE_IN_BYTES = 0
    /\ 8 * GOB_SIZE_IN_BYTES <= layer_size
    /\ (1 < 6 ->
        layer_size
        mod (mip_block_height 128
               (resolved_block_height_mip0 128 1 block_dim_uncompressed None)
             * GOB_SIZE_IN_BYTES) = 0).
Proof.
  apply (swizzled_surface_size_layers 128 128 1 block_dim_uncompressed None
           4 8 6).
  - constructor; simpl; try lia. discriminate.
  - constructor; simpl; lia.
Defined.

(** X25: the dimension in blocks that the surface functions use for a mip
    level, [max(div_round_up(dim >> mip, block), 1)], is at least 1,
    covers the halved dimension, does not grow with the level and is 1
    once the dimension is shifted out. *)
Theorem mip_dimension_spec (dim mip block : N) :
  dim <= 16384 -> 1 <= block <= 16384 -> mip < 63 ->
  1 <= mip_dimension dim mip block
  /\ dim / 2 ^ mip <= mip_dimension dim mip block * block
  /\ mip_dimension dim (mip + 1) block <= mip_dimension dim mip block
  /\ (dim < 2 ^ mip -> mip_dimension dim mip block = 1).
Proof.
  intros Hdim Hblock _.
  destruct (mip_dimension_bounds dim mip block Hdim Hblock) as [-> _].
  destruct (mip_dimension_bounds dim (mip + 1) block Hdim Hblock) as [-> _].
  rewrite !N.shiftr_div_pow2.
  pose proof (cdiv_mul_ge (dim / 2 ^ mip) block ltac:(lia)) as Hge.
  split; [apply N.le_max_r|]. split.
  { revert Hge. generalize (cdiv (dim / 2 ^ mip) block).
    generalize (dim / 2 ^ mip). intros q c Hge. nia. }
  split.
  - apply N.max_le_compat_r, cdiv_mono.
    rewrite N.pow_add_r, <-N.Div0.div_div. change (2 ^ 1) with 2.
    apply N.Div0.div_le_upper_bound.
    generalize (dim / 2 ^ mip). intros q. lia.
  - intros Hlt. rewrite N.div_small by exact Hlt.
    unfold cdiv. rewrite N.div_small by lia. reflexivity.
Qed.

Lemma mip_dimension_spec_witness :
  1 <= mip_dimension 100 3 4
  /\ 100 / 2 ^ 3 <= mip_dimension 100 3 4 * 4
  /\ mip_dimension 100 (3 + 1) 4 <= mip_dimension 100 3 4
  /\ (100 < 2 ^ 3 -> mip_dimension 100 3 4 = 1).
Proof. apply (mip_dimension_spec 100 3 4); by vm_compute. Defined.

(** ** swizzle.h: the unrolled copy of a complete GOB *)

Lemma gob_run_facts c o k :
  (c, o) ∈ [(48, 288); (32, 256); (16, 32); (0, 0)] -> k < 16 ->
  c + k < 64 /\ gob_run_offset (c + k) = o /\ (c + k) mod 16 = k.
Proof.
  intros Hc Hk. unfold gob_run_offset.
  repeat (apply elem_of_cons in Hc as [Hc|Hc];
          [injection Hc as -> ->; split_compares; lia|]).
  by apply elem_of_nil in Hc.
Qed.

Lemma gob_run_moves (DESWIZZLE : bool) dst_ptr src_ptr row_size
  first last d_first c o i :
  i < 8 -> (c, o) ∈ [(48, 288); (32, 256); (16, 32); (0, 0)] ->
  last = first + 16 ->
  (if DESWIZZLE
   then first = src_ptr + GOB_ROW_OFFSETS !!! N.to_nat i + o /\
        d_first = dst_ptr + row_size * i + c
   else first = src_ptr + row_size * i + c /\
        d_first = dst_ptr + GOB_ROW_OFFSETS !!! N.to_nat i + o) ->
  std_copy_moves first last d_first
  = k ← N_range 16;
    [if DESWIZZLE
     then (dst_ptr + row_size * i + (c + k),
           src_ptr + gob_offset (c + k) i)
     else (dst_ptr + gob_offset (c + k) i,
           src_ptr + row_size * i + (c + k))].
Proof.
  intros Hi Hc -> Hfd. unfold std_copy_moves.
  replace (first + 16 - first) with 16 by lia.
  rewrite list_bind_singleton. apply list_fmap_ext.
  intros _ k Hk%list_elem_of_lookup_2%elem_of_N_range.
  destruct (gob_run_facts c o k Hc Hk) as (Hlt & Hrun & Hmod).
  rewrite gob_offset_eq, Hrun, Hmod by done.
  destruct DESWIZZLE, Hfd as [-> ->]; f_equal; lia.
Qed.

Lemma complete_gob_moves_general (DESWIZZLE : bool) dst_ptr src_ptr row_size :
  row_size <= 2 ^ 60 ->
  complete_gob_moves DESWIZZLE dst_ptr src_ptr row_size
  = (fun p : N * N =>
       if DESWIZZLE
       then (dst_ptr + row_size * p.2 + p.1, src_ptr + gob_offset p.1 p.2)
       else (dst_ptr + gob_offset p.1 p.2, src_ptr + row_size * p.2 + p.1))
    <$> gob_positions_fast.
Proof.
  intros Hrs. unfold complete_gob_moves, gob_positions_fast.
  change (N.of_nat (length GOB_ROW_OFFSETS)) with 8.
  rewrite list_fmap_bind_comm. apply list_bind_ext_in.
  intros i Hi%elem_of_N_range.
  rewrite list_fmap_bind_comm.
  rewrite !bind_cons, list_bind_nil, app_nil_r.
  rewrite !list_fmap_bind_comm. simpl fmap.
  assert (row_size *% i = row_size * i) as ->.
  { apply mul_small. change (2 ^ 60) with 1152921504606846976 in Hrs.
    change (2 ^ 64) with 18446744073709551616. nia. }
  destruct DESWIZZLE; unfold deswizzle_gob_row_moves, swizzle_gob_row_moves.
  - repeat f_equal.
    + apply (gob_run_moves true _ _ _ _ _ _ 48 288 i); [done|in_list|lia|lia].
    + apply (gob_run_moves true _ _ _ _ _ _ 32 256 i); [done|in_list|lia|lia].
    + apply (gob_run_moves true _ _ _ _ _ _ 16 32 i); [done|in_list|lia|lia].
    + apply (gob_run_moves true _ _ _ _ _ _ 0 0 i); [done|in_list|lia|lia].
  - repeat f_equal.
    + apply (gob_run_moves false _ _ _ _ _ _ 48 288 i); [done|in_list|lia|lia].
    + apply (gob_run_moves false _ _ _ _ _ _ 32 256 i); [done|in_list|lia|lia].
    + apply (gob_run_moves false _ _ _ _ _ _ 16 32 i); [done|in_list|lia|lia].
    + apply (gob_run_moves false _ _ _ _ _ _ 0 0 i); [done|in_list|lia|lia].
Qed.

Lemma elem_of_complete_gob_moves (DESWIZZLE : bool) dst_ptr src_ptr row_size m :
  row_size <= 2 ^ 60 ->
  m ∈ complete_gob_moves DESWIZZLE dst_ptr src_ptr row_size <->
  exists x y, x < 64 /\ y < 8 /\
    m = if DESWIZZLE
        then (dst_ptr + row_size * y + x, src_ptr + gob_offset x y)
        else (dst_ptr + gob_offset x y, src_ptr + row_size * y + x).
Proof.
  intros Hrs. rewrite complete_gob_moves_general by done.
  rewrite list_elem_of_fmap. split.
  - intros ([x y] & -> & Hp). rewrite gob_positions_fast_perm in Hp.
    apply elem_of_gob_positions in Hp as [Hx Hy]. exists x, y. done.
  - intros (x & y & Hx & Hy & ->). exists (x, y). split; [done|].
    rewrite gob_positions_fast_perm. by apply elem_of_gob_positions.
Qed.

(** X26: [swizzle_complete_gob] copies the 64 x 8 bytes of a linear tile
    with the given pitch into the 512 bytes of a GOB, byte [(x, y)] going
    to [gob_offset x y], and changes nothing outside those 512 bytes. *)
Theorem swizzle_complete_gob_spec
  (dst : buffer) (dst_ptr : N) (src : buffer) (src_ptr : N)
  (row_size_in_bytes : N) :
  row_size_in_bytes <= 2 ^ 60 ->
  dst_ptr + GOB_SIZE_IN_BYTES <= size dst ->
  src_ptr + row_size_in_bytes * 7 + GOB_WIDTH_IN_BYTES <= size src ->
  exists result,
    swizzle_complete_gob dst dst_ptr src src_ptr row_size_in_bytes
    = Ok result
    /\ size result = size dst
    /\ (forall x y, x < 64 -> y < 8 ->
          result !! N.to_nat (dst_ptr + gob_offset x y)
          = src !! N.to_nat (src_ptr + row_size_in_bytes * y + x))
    /\ (forall i, i < dst_ptr \/ dst_ptr + GOB_SIZE_IN_BYTES <= i ->
          result !! N.to_nat i = dst !! N.to_nat i).
Proof.
  rewrite GOB_SIZE_IN_BYTES_eq. change GOB_WIDTH_IN_BYTES with 64.
  intros Hrs Hdst Hsrc.
  rewrite (complete_gob_moves_ok false).
  set (ms := complete_gob_moves false dst_ptr src_ptr row_size_in_bytes).
  pose proof (fun m =>
                elem_of_complete_gob_moves false dst_ptr src_ptr
                  row_size_in_bytes m Hrs) as Hms.
  cbv iota in Hms. fold ms in Hms.
  assert (forall m, m ∈ ms -> m.1 < size dst /\ m.2 < size src) as Hbnd.
  { intros m (x & y & Hx & Hy & ->)%Hms. cbn [fst snd].
    pose proof (gob_offset_lt x y Hx Hy). split; [lia|nia]. }
  assert (forall m1 m2, m1 ∈ ms -> m2 ∈ ms -> m1.1 = m2.1 -> m1.2 = m2.2)
    as Hfun.
  { intros m1 m2 (x1 & y1 & Hx1 & Hy1 & ->)%Hms
      (x2 & y2 & Hx2 & Hy2 & ->)%Hms.
    cbn [fst snd]. intros Heq%N.add_cancel_l.
    by destruct (gob_offset_inj x1 y1 x2 y2 Hx1 Hy1 Hx2 Hy2 Heq) as [-> ->]. }
  destruct (apply_moves_total src ms dst Hbnd) as [r Hr].
  exists r. split; [exact Hr|]. split.
  { unfold size. by rewrite (apply_moves_length _ _ _ _ Hr). }
  split.
  - intros x y Hx Hy.
    apply (apply_moves_lookup _ _ _ _
             (dst_ptr + gob_offset x y, src_ptr + row_size_in_bytes * y + x)
             Hr Hfun).
    apply Hms. exists x, y. done.
  - intros i Hi. apply (apply_moves_other _ _ _ _ _ Hr).
    intros (m & -> & (x & y & Hx & Hy & ->)%Hms)%list_elem_of_fmap.
    cbn [fst] in Hi. pose proof (gob_offset_lt x y Hx Hy). lia.
Qed.

Lemma swizzle_complete_gob_spec_witness :
  let dst := replicate 520 Byte.xff in
  let src := replicate 1000 Byte.x2a in
  exists result,
    swizzle_complete_gob dst 4 src 8 128 = Ok result
    /\ size result = size dst
    /\ (forall x y, x < 64 -> y < 8 ->
          result !! N.to_nat (4 + gob_offset x y)
          = src !! N.to_nat (8 + 128 * y + x))
    /\ (forall i, i < 4 \/ 4 + GOB_SIZE_IN_BYTES <= i ->
          result !! N.to_nat i = dst !! N.to_nat i).
Proof.
  apply (swizzle_complete_gob_spec (replicate 520 Byte.xff) 4
           (replicate 1000 Byte.x2a) 8 128); by vm_compute.
Defined.

(** X27: [deswizzle_complete_gob] copies the 512 bytes of a GOB into a
    linear tile of 64 x 8 bytes with the given pitch, the byte at
    [gob_offset x y] going to position [(x, y)], and changes nothing
    outside the tile. *)
Theorem deswizzle_complete_gob_spec
  (dst : buffer) (dst_ptr : N) (src : buffer) (src_ptr : N)
  (row_size_in_bytes : N) :
  GOB_WIDTH_IN_BYTES <= row_size_in_bytes -> row_size_in_bytes <= 2 ^ 60 ->
  dst_ptr + row_size_in_bytes * 7 + GOB_WIDTH_IN_BYTES <= size dst ->
  src_ptr + GOB_SIZE_IN_BYTES <= size src ->
  exists result,
    deswizzle_complete_gob dst dst_ptr src src_ptr row_size_in_bytes
    = Ok result
    /\ size result = size dst
    /\ (forall x y, x < 64 -> y < 8 ->
          result !! N.to_nat (dst_ptr + row_size_in_bytes * y + x)
          = src !! N.to_nat (src_ptr + gob_offset x y))
    /\ (forall i,
          (forall x y, x < 64 -> y < 8 ->
                       dst_ptr + row_size_in_bytes * y + x <> i) ->
          result !! N.to_nat i = dst !! N.to_nat i).
Proof.
  rewrite GOB_SIZE_IN_BYTES_eq. change GOB_WIDTH_IN_BYTES with 64.
  intros Hrs64 Hrs Hdst Hsrc.
  rewrite (complete_gob_moves_ok true).
  set (ms := complete_gob_moves true dst_ptr src_ptr row_size_in_bytes).
  pose proof (fun m =>
                elem_of_complete_gob_moves true dst_ptr src_ptr
                  row_size_in_bytes m Hrs) as Hms.
  cbv iota in Hms. fold ms in Hms.
  assert (forall m, m ∈ ms -> m.1 < size dst /\ m.2 < size src) as Hbnd.
  { intros m (x & y & Hx & Hy & ->)%Hms. cbn [fst snd].
    pose proof (gob_offset_lt x y Hx Hy). split; [nia|lia]. }
  assert (forall m1 m2, m1 ∈ ms -> m2 ∈ ms -> m1.1 = m2.1 -> m1.2 = m2.2)
    as Hfun.
  { intros m1 m2 (x1 & y1 & Hx1 & Hy1 & ->)%Hms
      (x2 & y2 & Hx2 & Hy2 & ->)%Hms.
    cbn [fst snd]. intros Heq.
    assert (y1 = y2) as -> by nia.
    assert (x1 = x2) as -> by lia. reflexivity. }
  destruct (apply_moves_total src ms dst Hbnd) as [r Hr].
  exists r. split; [exact Hr|]. split.
  { unfold size. by rewrite (apply_moves_length _ _ _ _ Hr). }
  split.
  - intros x y Hx Hy.
    apply (apply_moves_lookup _ _ _ _
             (dst_ptr + row_size_in_bytes * y + x, src_ptr + gob_offset x y)
             Hr Hfun).
    apply Hms. exists x, y. done.
  - intros i Hi. apply (apply_moves_other _ _ _ _ _ Hr).
    intros (m & -> & (x & y & Hx & Hy & ->)%Hms)%list_elem_of_fmap.
    by apply (Hi x y).
Qed.

Lemma deswizzle_complete_gob_spec_witness :
  let dst := replicate 1000 Byte.xff in
  let src := replicate 520 Byte.x2a in
  exists result,
    deswizzle_complete_gob dst 8 src 4 128 = Ok result
    /\ size result = size dst
    /\ (forall x y, x < 64 -> y < 8 ->
          result !! N.to_nat (8 + 128 * y + x)
          = src !! N.to_nat (4 + gob_offset x y))
    /\ (forall i,
          (forall x y, x < 64 -> y < 8 -> 8 + 128 * y + x <> i) ->
          result !! N.to_nat i = dst !! N.to_nat i).
Proof.
  apply (deswizzle_complete_gob_spec (replicate 1000 Byte.xff) 8
           (replicate 520 Byte.x2a) 4 128); by vm_compute.
Defined.

(** ** swizzle.h: the byte-by-byte copy of a partial GOB *)

(** X28: [swizzle_deswizzle_gob] moves exactly the positions of the GOB
    that lie inside the image: when their offsets fit both vectors the
    call succeeds, each such byte is copied between
    [gob_address + gob_offset x y] and its linear offset, and no other
    byte of the destination changes; conversely a successful call had all
    those offsets inside the vectors. *)
Theorem swizzle_deswizzle_gob_spec (DESWIZZLE : bool)
  (destination source : buffer)
  (x0 y0 z0 width height bytes_per_pixel gob_address : N) :
  width <= 16384 -> height <= 16384 -> z0 <= 16384 ->
  bytes_per_pixel <= 16 -> x0 < width * bytes_per_pixel -> y0 < height ->
  gob_address <= 2 ^ 63 ->
  let inside x y :=
    x < 64 /\ y < 8 /\ y0 + y < height /\
    x0 + x < width * bytes_per_pixel in
  let swizzled_offset x y := gob_address + gob_offset x y in
  let linear_offset x y :=
    z0 * width * height * bytes_per_pixel
    + (y0 + y) * width * bytes_per_pixel + x0 + x in
  let dst_offset x y :=
    if DESWIZZLE then linear_offset x y else swizzled_offset x y in
  let src_offset x y :=
    if DESWIZZLE then swizzled_offset x y else linear_offset x y in
  let run :=
    swizzle_deswizzle_gob DESWIZZLE destination source x0 y0 z0 width
      height bytes_per_pixel gob_address in
  ((forall x y, inside x y ->
      dst_offset x y < size destination /\ src_offset x y < size source) ->
   exists result,
     run = Ok result
     /\ size result = size destination
     /\ (forall x y, inside x y ->
           result !! N.to_nat (dst_offset x y)
           = source !! N.to_nat (src_offset x y))
     /\ (forall i, (forall x y, inside x y -> dst_offset x y <> i) ->
           result !! N.to_nat i = destination !! N.to_nat i))
  /\ (forall result, run = Ok result ->
        forall x y, inside x y ->
          dst_offset x y < size destination /\
          src_offset x y < size source)
  /\ run <> NotEnoughData.
Proof.
  intros Hw Hh Hz Hb Hx0 Hy0 HG inside swizzled_offset linear_offset
    dst_offset src_offset run.
  unfold run. rewrite gob_moves_ok.
  set (ms := gob_moves DESWIZZLE x0 y0 z0 width height bytes_per_pixel
               gob_address).
  assert (forall m, m ∈ ms <->
            exists x y, inside x y /\ m = (dst_offset x y, src_offset x y))
    as Hms.
  { intros m. unfold ms.
    rewrite (elem_of_gob_moves DESWIZZLE x0 y0 z0 width height
               bytes_per_pixel gob_address m Hw Hh Hz Hb Hx0 Hy0 HG).
    unfold exact_gob_move, inside, dst_offset, src_offset, swizzled_offset,
      linear_offset. cbn [fst snd].
    split; intros (x & y & H); exists x, y; destruct DESWIZZLE; tauto. }
  assert (forall m1 m2, m1 ∈ ms -> m2 ∈ ms -> m1.1 = m2.1 -> m1.2 = m2.2)
    as Hfun.
  { intros m1 m2 (x1 & y1 & (Hx1 & Hy1 & Hh1 & Hw1) & ->)%Hms
      (x2 & y2 & (Hx2 & Hy2 & Hh2 & Hw2) & ->)%Hms.
    unfold dst_offset, src_offset, swizzled_offset, linear_offset.
    destruct DESWIZZLE; cbn [fst snd]; intros Heq.
    - assert (x0 + x1 + width * bytes_per_pixel * (y0 + y1)
              = x0 + x2 + width * bytes_per_pixel * (y0 + y2)) as Heq'
        by (clear -Heq; lia).
      apply radix_inj in Heq' as [Hx Hy]; [|done..].
      assert (x1 = x2) as -> by (clear -Hx; lia).
      assert (y1 = y2) as -> by (clear -Hy; lia). reflexivity.
    - apply N.add_cancel_l in Heq.
      by destruct (gob_offset_inj x1 y1 x2 y2 Hx1 Hy1 Hx2 Hy2 Heq)
        as [-> ->]. }
  split; [|split].
  - intros Hbnd.
    destruct (apply_moves_total source ms destination) as [r Hr].
    { intros m (x & y & Hin & ->)%Hms. by apply Hbnd. }
    exists r. split; [exact Hr|]. split.
    { unfold size. by rewrite (apply_moves_length _ _ _ _ Hr). }
    split.
    + intros x y Hin.
      apply (apply_moves_lookup _ _ _ _ (dst_offset x y, src_offset x y)
               Hr Hfun).
      apply Hms. exists x, y. done.
    + intros i Hi. apply (apply_moves_other _ _ _ _ _ Hr).
      intros (m & -> & (x & y & Hin & ->)%Hms)%list_elem_of_fmap.
      by apply (Hi x y).
  - intros r Hr x y Hin.
    apply (apply_moves_in_bounds _ _ _ _ Hr
             (dst_offset x y, src_offset x y)).
    apply Hms. exists x, y. done.
  - apply apply_moves_sound.
Qed.

Lemma swizzle_deswizzle_gob_spec_witness :
  let destination := replicate 512 Byte.xff in
  let source := replicate 24 Byte.x2a in
  let inside x y := x < 64 /\ y < 8 /\ 0 + y < 2 /\ 0 + x < 3 * 4 in
  let swizzled_offset x y := 0 + gob_offset x y in
  let linear_offset x y := 0 * 3 * 2 * 4 + (0 + y) * 3 * 4 + 0 + x in
  let dst_offset x y := swizzled_offset x y in
  let src_offset x y := linear_offset x y in
  let run := swizzle_deswizzle_gob false destination source 0 0 0 3 2 4 0 in
  ((forall x y, inside x y ->
      dst_offset x y < size destination /\ src_offset x y < size source) ->
   exists result,
     run = Ok result
     /\ size result = size destination
     /\ (forall x y, inside x y ->
           result !! N.to_nat (dst_offset x y)
           = source !! N.to_nat (src_offset x y))
     /\ (forall i, (forall x y, inside x y -> dst_offset x y <> i) ->
           result !! N.to_nat i = destination !! N.to_nat i))
  /\ (forall result, run = Ok result ->
        forall x y, inside x y ->
          dst_offset x y < size destination /\
          src_offset x y < size source)
  /\ run <> NotEnoughData.
Proof.
  apply (swizzle_deswizzle_gob_spec false (replicate 512 Byte.xff)
           (replicate 24 Byte.x2a) 0 0 0 3 2 4 0); by vm_compute.
Defined.
